(** * minarg: a shallow embedding of [minarg.hpp] (minarg 1.0.1)

    The header-only C++ library [minarg] parses command-line arguments
    into caller-owned variables and renders a help message.  This file
    embeds, from [src/include/minarg/minarg.hpp]:
    - the value codec ([toLongest], [fromString], [toStream]/[toString]);
    - the polymorphic arguments ([SignalArg], [BoolArg], [ValueArg],
      [SinkArg]);
    - the parse engine of class [Parser] as a state-and-exception monad
      whose state holds the parser object, the caller's memory (the bound
      targets) and the shared iterator [it];
    - the help renderer ([tokenize], [writeWrapped], [writeGlossary]).

    Strings are Stdlib [string]s (lists of [ascii]); a C++ [char] is an
    [ascii] and the null character ["000"] stands for "no short name".
    Floating-point payloads are not embedded. *)

From Stdlib Require Import String Ascii ZArith List Lia Bool.
Import ListNotations.

Local Open Scope Z_scope.
Local Set Warnings "-register-all".

(* ------------------------------------------------------------------ *)
(** ** Small string helpers *)

Definition chr (n : nat) : ascii := ascii_of_nat n.
Definition dquote : ascii := "034"%char.
Definition nul : ascii := "000"%char.

(** [std::string::find_first_of(set)]: index of the first character of
    [s] that occurs in [set]. *)
Fixpoint find_first_of_from (set s : string) (i : nat) : option nat :=
  match s with
  | EmptyString => None
  | String c r =>
      if existsb (Ascii.eqb c) (list_ascii_of_string set) then Some i
      else find_first_of_from set r (S i)
  end.

Definition find_first_of (set s : string) : option nat :=
  find_first_of_from set s O.

(** [std::string::find(c)]. *)
Definition find_char (c : ascii) (s : string) : option nat :=
  find_first_of (String c EmptyString) s.

(* ------------------------------------------------------------------ *)
(** ** Exceptions ([struct Error], [struct Signal]) *)

Inductive Exn :=
| Error (message : string)
| Signal (shortName : ascii) (longName : string).

(* ------------------------------------------------------------------ *)
(** ** Value codec: string to value *)

Module Codec.

(** [isspace] of the "C" locale. *)
Definition isspace (c : ascii) : bool :=
  existsb (Ascii.eqb c) [" "; "009"; "010"; "011"; "012"; "013"]%char.

(** Value of a digit character in bases up to 36. *)
Definition digitValue (c : ascii) : option Z :=
  let n := Z.of_nat (nat_of_ascii c) in
  if (48 <=? n) && (n <=? 57) then Some (n - 48)
  else if (97 <=? n) && (n <=? 122) then Some (n - 87)
  else if (65 <=? n) && (n <=? 90) then Some (n - 55)
  else None.

(** Longest run of digits of [base]: accumulated value and digit count. *)
Fixpoint readDigits (base acc : Z) (s : string) : Z * nat :=
  match s with
  | EmptyString => (acc, O)
  | String c r =>
      match digitValue c with
      | Some d =>
          if d <? base then
            let '(v, k) := readDigits base (acc * base + d) r in (v, S k)
          else (acc, O)
      | None => (acc, O)
      end
  end.

Fixpoint skipSpaces (s : string) : nat * string :=
  match s with
  | String c r => if isspace c then let '(k, t) := skipSpaces r in (S k, t)
                  else (O, s)
  | EmptyString => (O, s)
  end.

(** Result of the C library scan [strtoll]/[strtoull] (glibc): the sign,
    the unbounded magnitude and the end position, or no conversion. *)
Inductive Scan :=
| Scanned (negative : bool) (magnitude : Z) (pos : nat)
| NoConversion.

Definition isX (c : ascii) : bool := Ascii.eqb c "x" || Ascii.eqb c "X".

Definition strtoScan (s : string) (base : Z) : Scan :=
  let '(i, s1) := skipSpaces s in
  let '(neg, j, s2) :=
    match s1 with
    | String "-" r => (true, 1%nat, r)
    | String "+" r => (false, 1%nat, r)
    | _ => (false, O, s1)
    end in
  let start := (i + j)%nat in
  let plain t off :=
    match readDigits base 0 t with
    | (_, O) => NoConversion
    | (v, k) => Scanned neg v (start + off + k)%nat
    end in
  match s2 with
  | String "0" (String x r) =>
      if (base =? 16) && isX x then
        match readDigits 16 0 r with
        (* "0x" without hex digit: the scan stops after the '0' *)
        | (_, O) => Scanned neg 0 (start + 1)%nat
        | (v, k) => Scanned neg v (start + 2 + k)%nat
        end
      else plain s2 O
  | _ => plain s2 O
  end.

(** Outcome of [std::stoll]/[std::stoull]: a value with the position
    stored through [pos], or one of the two exceptions they throw. *)
Inductive StoResult :=
| StoValue (v : Z) (pos : nat)
| InvalidArgument
| OutOfRange.

Definition stoll (s : string) (base : Z) : StoResult :=
  match strtoScan s base with
  | NoConversion => InvalidArgument
  | Scanned neg m p =>
      let v := if neg then - m else m in
      if (v <? - 2 ^ 63) || (2 ^ 63 - 1 <? v) then OutOfRange else StoValue v p
  end.

Definition stoull (s : string) (base : Z) : StoResult :=
  match strtoScan s base with
  | NoConversion => InvalidArgument
  | Scanned neg m p =>
      if 2 ^ 64 - 1 <? m then OutOfRange
      else StoValue (if neg then (2 ^ 64 - m) mod 2 ^ 64 else m) p
  end.

(** [toLongest<T>]: [stoll] for signed [T]; for unsigned [T] a ['-']
    anywhere is rejected first, then [stoull].  The [Error] thrown here is
    not caught by [fromString]'s two catch clauses. *)
Definition toLongest (signed : bool) (s : string) (base : Z) : Exn + StoResult :=
  if signed then inr (stoll s base)
  else match find_char "-" s with
       | Some _ => inl (Error ("Cannot parse unsigned integer: " ++ s)%string)
       | None => inr (stoull s base)
       end.

(** [std::numeric_limits<T>::min()/max()] of a [bits]-wide integer. *)
Definition intMin (signed : bool) (bits : Z) : Z :=
  if signed then - 2 ^ (bits - 1) else 0.
Definition intMax (signed : bool) (bits : Z) : Z :=
  if signed then 2 ^ (bits - 1) - 1 else 2 ^ bits - 1.

Definition intBase (s : string) : Z :=
  match find_first_of "Xx" s with None => 10 | Some _ => 16 end.

(** [fromString<T>] for integral [T]. *)
Definition fromStringInt (signed : bool) (bits : Z) (s : string) : Exn + Z :=
  let base := intBase s in
  match toLongest signed s base with
  | inl e => inl e
  | inr (StoValue v pos) =>
      if Nat.eqb pos (String.length s)
         && (intMin signed bits <=? v) && (v <=? intMax signed bits)
      then inr v
      else inl (Error ("Cannot parse integer: " ++ s)%string)
  | inr _ => inl (Error ("Cannot parse integer: " ++ s)%string)
  end.

(* ------------------------------------------------------------------ *)
(** ** Value codec: value to string *)

Definition digitChar (d : Z) : ascii := chr (48 + Z.to_nat d).

(** Decimal digits of [n >= 0], prepended to [acc]; [fuel] bounds the
    number of divisions. *)
Fixpoint decAux (fuel : nat) (n : Z) (acc : string) : string :=
  match fuel with
  | O => acc
  | S f =>
      if n <? 10 then String (digitChar n) acc
      else decAux f (n / 10) (String (digitChar (n mod 10)) acc)
  end.

Definition decimalN (n : Z) : string := decAux (S (Z.to_nat (Z.log2 n))) n EmptyString.

(** [stream << static_cast<std::intmax_t>(value)] (or [uintmax_t]). *)
Definition decimal (z : Z) : string :=
  if z <? 0 then String "-" (decimalN (- z)) else decimalN z.

End Codec.

(* ------------------------------------------------------------------ *)
(** ** Value codec for floating-point payloads

    [fromString<T>] and [toStream<T>] for a floating-point [T] ([float]
    or [double]).  A finite value is a fraction [fnum / fden] with
    [fden > 0]; infinities, NaNs and the sign of zero are outside the
    model.  [toStream] is [stream << value] under the stream's default
    format, i.e. [%g] with precision 6.  [fromString] is
    [stream >> value >> std::ws] in the "C" locale as libstdc++ does it:
    the sentry skips leading white space, [num_get::_M_extract_float]
    collects the characters of the number, [strtod] (or [strtof]) converts
    them rounding to nearest, an overflow sets failbit, and the rest of the
    text must be white space for [eof()] to hold. *)
Module FloatCodec.
Import Codec.

(** Precision (with the hidden bit) and exponent range of a binary
    format. *)
Record Format := mkFormat { prec : Z; emin : Z; emax : Z }.
Definition binary32 : Format := mkFormat 24 (-126) 127.
Definition binary64 : Format := mkFormat 53 (-1022) 1023.

Record fval := mkF { fnum : Z; fden : Z }.

(** Equality of the represented numbers. *)
Definition feqb (x y : fval) : bool := fnum x * fden y =? fnum y * fden x.

(** [n / d] rounded to the nearest integer, ties to even ([n >= 0],
    [d > 0]). *)
Definition roundHalfEven (n d : Z) : Z :=
  let q := n / d in
  match Z.compare (2 * (n mod d)) d with
  | Lt => q
  | Gt => q + 1
  | Eq => if Z.even q then q else q + 1
  end.

(** [n / d * b ^ k] as a fraction. *)
Definition scaleFrac (n d b k : Z) : Z * Z :=
  if 0 <=? k then (n * b ^ k, d) else (n, d * b ^ (- k)).

(** [floor (log2 (n / d))] for [n, d > 0]. *)
Definition floorLog2 (n d : Z) : Z :=
  let c := Z.log2 n - Z.log2 d in
  let '(a, b) := scaleFrac d 1 2 c in
  if a <=? n * b then c else c - 1.

(** Number of decimal digits of [n > 0]. *)
Definition ndigits (n : Z) : Z := Z.of_nat (String.length (decimal n)).

(** [floor (log10 (n / d))] for [n, d > 0]. *)
Definition floorLog10 (n d : Z) : Z :=
  let c := ndigits n - ndigits d in
  let '(a, b) := scaleFrac d 1 10 c in
  if a <=? n * b then c else c - 1.

(** Round to nearest, ties to even, with gradual underflow; [None] when
    the rounded value exceeds the largest finite value. *)
Definition roundF (fmt : Format) (x : fval) : option fval :=
  let n := Z.abs (fnum x) in
  let d := fden x in
  if n =? 0 then Some (mkF 0 1) else
  let qe := Z.max (floorLog2 n d) (emin fmt) - (prec fmt - 1) in
  let m := let '(a, b) := scaleFrac n d 2 (- qe) in roundHalfEven a b in
  let top := emax fmt - prec fmt + 1 in
  let overflow :=
    if top <=? qe then 2 ^ prec fmt - 1 <? m * 2 ^ (qe - top)
    else (2 ^ prec fmt - 1) * 2 ^ (top - qe) <? m in
  if overflow then None
  else
    let sm := if fnum x <? 0 then - m else m in
    if 0 <=? qe then Some (mkF (sm * 2 ^ qe) 1) else Some (mkF sm (2 ^ (- qe))).

(* ---- Value to string: [%g] with precision 6 ---- *)

Fixpoint dropZeros (l : list ascii) : list ascii :=
  match l with
  | c :: r => if Ascii.eqb c "0" then dropZeros r else l
  | [] => []
  end.

(** Trailing zeros removed, as [%g] does without the [#] flag. *)
Definition stripZeros (s : string) : string :=
  string_of_list_ascii (rev (dropZeros (rev (list_ascii_of_string s)))).

Fixpoint zeros (k : nat) : string :=
  match k with O => EmptyString | S k' => String "0" (zeros k') end.

(** An integer part and a fraction; the point is dropped with an empty
    fraction. *)
Definition withPoint (ip frac : string) : string :=
  match stripZeros frac with
  | EmptyString => ip
  | f => (ip ++ String "." f)%string
  end.

(** The exponent of style [e]: a sign and at least two digits. *)
Definition expDigits (k : Z) : string :=
  if k <? 10 then String "0" (decimal k) else decimal k.

(** Style [f] for the six significant digits [ds] of a value with decimal
    exponent [X] ([-4 <= X < 6]). *)
Definition styleF (ds : string) (X : Z) : string :=
  if 0 <=? X
  then withPoint (substring 0 (Z.to_nat X + 1) ds) (substring (Z.to_nat X + 1) 6 ds)
  else withPoint "0" (zeros (Z.to_nat (- X - 1)) ++ ds)%string.

(** Style [e]: one digit, the others after the point, the exponent. *)
Definition styleE (ds : string) (X : Z) : string :=
  (withPoint (substring 0 1 ds) (substring 1 5 ds)
   ++ String "e" (String (if Z.ltb X 0 then "-"%char else "+"%char) (expDigits (Z.abs X))))%string.

(** [stream << value] for a floating-point [value]: [%g], precision 6.
    [X] is the decimal exponent after rounding to six significant digits;
    style [f] is used when [-4 <= X < 6], style [e] otherwise. *)
Definition toStringFloat (x : fval) : string :=
  let n := Z.abs (fnum x) in
  let d := fden x in
  if n =? 0 then "0" else
  let X0 := floorLog10 n d in
  let N0 := let '(a, b) := scaleFrac n d 10 (5 - X0) in roundHalfEven a b in
  let '(N, X) := if N0 =? 10 ^ 6 then (10 ^ 5, X0 + 1) else (N0, X0) in
  let body := if (-4 <=? X) && (X <? 6) then styleF (decimal N) X else styleE (decimal N) X in
  if fnum x <? 0 then String "-" body else body.

(* ---- String to value: [stream >> value >> std::ws] ---- *)

Definition isDigit (c : ascii) : bool :=
  match digitValue c with Some v => v <? 10 | None => false end.

Fixpoint skipSpace (s : string) : string :=
  match s with
  | String c r => if isspace c then skipSpace r else s
  | EmptyString => s
  end.

(** The leading-zeros loop of [_M_extract_float]: the first zero is
    kept, the others are skipped.  Returns the collected text, whether a
    mantissa digit was found, and the rest. *)
Fixpoint zerosLoop (mant : bool) (s : string) : string * bool * string :=
  match s with
  | String c r =>
      if Ascii.eqb c "0" then
        let '(x, m, rest) := zerosLoop true r in
        ((if mant then x else String "0" x), m, rest)
      else (EmptyString, mant, s)
  | EmptyString => (EmptyString, mant, EmptyString)
  end.

(** The main loop of [_M_extract_float]: digits, one decimal point
    before any exponent mark, and one exponent mark after a mantissa digit
    with its optional sign; a character that is not a sign right after the
    mark is examined again. *)
Fixpoint extractLoop (mant dec sci : bool) (s : string) : string * string :=
  match s with
  | EmptyString => (EmptyString, EmptyString)
  | String c r =>
      if isDigit c then
        let '(x, rest) := extractLoop true dec sci r in (String c x, rest)
      else if Ascii.eqb c "." && negb dec && negb sci then
        let '(x, rest) := extractLoop mant true sci r in (String "." x, rest)
      else if (Ascii.eqb c "e" || Ascii.eqb c "E") && negb sci && mant then
        match r with
        | String c2 r2 =>
            if Ascii.eqb c2 "+" || Ascii.eqb c2 "-" then
              let '(x, rest) := extractLoop mant dec true r2 in (String "e" (String c2 x), rest)
            else
              let '(x, rest) := extractLoop mant dec true r in (String "e" x, rest)
        | EmptyString => (String "e" EmptyString, EmptyString)
        end
      else (EmptyString, s)
  end.

(** [_M_extract_float]: an optional sign, leading zeros, then the main
    loop.  Returns the collected text and the unread rest. *)
Definition extractFloat (s : string) : string * string :=
  let '(sg, s1) :=
    match s with
    | String c r => if Ascii.eqb c "+" || Ascii.eqb c "-"
                    then (String c EmptyString, r) else (EmptyString, s)
    | EmptyString => (EmptyString, s)
    end in
  let '(z, mant, s2) := zerosLoop false s1 in
  let '(x, rest) := extractLoop mant false false s2 in
  ((sg ++ z ++ x)%string, rest).

(** [m * 10 ^ k] as a fraction. *)
Definition decScale (m k : Z) : fval :=
  if 0 <=? k then mkF (m * 10 ^ k) 1 else mkF m (10 ^ (- k)).

Definition readSign (s : string) : bool * string :=
  match s with
  | String c r =>
      if Ascii.eqb c "-" then (true, r) else if Ascii.eqb c "+" then (false, r) else (false, s)
  | EmptyString => (false, s)
  end.

(** [strtod] on the collected text, which must be consumed entirely: an
    optional sign, digits with at most one point and at least one digit,
    then an optional exponent with at least one digit.  The exact value. *)
Definition readDec (s : string) : option fval :=
  let '(neg, s1) := readSign s in
  let '(ip, ni) := readDigits 10 0 s1 in
  let s2 := substring ni (String.length s1) s1 in
  let '(mant, nf, s3) :=
    match s2 with
    | String c r =>
        if Ascii.eqb c "." then
          let '(v, k) := readDigits 10 ip r in (v, k, substring k (String.length r) r)
        else (ip, O, s2)
    | EmptyString => (ip, O, s2)
    end in
  let sm := if neg then - mant else mant in
  if Nat.eqb (ni + nf) 0 then None else
  match s3 with
  | EmptyString => Some (decScale sm (- Z.of_nat nf))
  | String c r =>
      if Ascii.eqb c "e" then
        let '(eneg, r1) := readSign r in
        let '(ev, ne) := readDigits 10 0 r1 in
        if Nat.eqb ne 0 || negb (Nat.eqb ne (String.length r1)) then None
        else Some (decScale sm ((if eneg then - ev else ev) - Z.of_nat nf))
      else None
  end.

(** [fromString<T>] for a floating-point [T] of format [fmt]. *)
Definition fromStringFloat (fmt : Format) (s : string) : Exn + fval :=
  let err := inl (Error ("Cannot parse value: " ++ s)%string) in
  match skipSpace s with
  | EmptyString => err
  | s1 =>
      let '(x, rest) := extractFloat s1 in
      match readDec x with
      | None => err
      | Some q =>
          match roundF fmt q with
          | None => err
          | Some v => if forallb isspace (list_ascii_of_string rest) then inr v else err
          end
      end
  end.

End FloatCodec.

(* ------------------------------------------------------------------ *)
(** ** Payload types and values *)

(** A payload type: an integral type of a signedness and a width, or
    [std::string]. *)
Inductive ty :=
| TInt (signed : bool) (bits : Z)
| TStr.

Definition int8 := TInt true 8.
Definition uint8 := TInt false 8.
Definition int32 := TInt true 32.
Definition uint32 := TInt false 32.
Definition int64 := TInt true 64.
Definition uint64 := TInt false 64.

(** The content of a caller variable: an integer, a string, a [bool]
    (target of a [BoolArg]) or a container (target of a [SinkArg]). *)
Inductive val :=
| VInt (z : Z)
| VStr (s : string)
| VBool (b : bool)
| VList (l : list val).

(** [fromString<T>]. *)
Definition fromString (T : ty) (s : string) : Exn + val :=
  match T with
  | TInt sg bits =>
      match Codec.fromStringInt sg bits s with
      | inl e => inl e
      | inr z => inr (VInt z)
      end
  | TStr => inr (VStr s)
  end.

(** [toString<T>] through [toStream]: integers in decimal, strings between
    double quotes.  Containers are never rendered. *)
Definition toString (v : val) : string :=
  match v with
  | VInt z => Codec.decimal z
  | VStr s => String dquote (s ++ String dquote EmptyString)
  | VBool b => Codec.decimal (if b then 1 else 0)
  | VList _ => EmptyString
  end.

(* ------------------------------------------------------------------ *)
(** ** Polymorphic arguments ([class Arg] and its four subclasses) *)

(** Caller memory: the variables the arguments are bound to, by address. *)
Definition Mem := nat -> val.

Definition memSet (m : Mem) (k : nat) (v : val) : Mem :=
  fun k' => if Nat.eqb k' k then v else m k'.

(** The subclass of an argument with its private members: the target
    reference [target_] and, for [ValueArg], the copy [default_] taken by
    the constructor. *)
Inductive ArgKind :=
| SignalArg
| BoolArg (target : nat)
| ValueArg (T : ty) (target : nat) (default : val)
| SinkArg (T : ty) (target : nat).

Record Arg := mkArg {
  shortName : ascii;
  longName : string;
  valueName : string;
  description : string;
  isRequired : bool;
  hasValue : bool;
  isSink : bool;
  isDone : bool;
  kind : ArgKind
}.

Definition newSignalArg (c : ascii) (l d : string) : Arg :=
  mkArg c l EmptyString d false false false false SignalArg.

Definition newBoolArg (c : ascii) (l d : string) (req : bool) (target : nat) : Arg :=
  mkArg c l EmptyString d req false false false (BoolArg target).

(** [ValueArg(..., T& target)]: [default_{target}] copies the target's
    value at construction. *)
Definition newValueArg (c : ascii) (l vn d : string) (req : bool)
    (T : ty) (target : nat) (m : Mem) : Arg :=
  mkArg c l vn d req true false false (ValueArg T target (m target)).

Definition newSinkArg (vn d : string) (req : bool) (T : ty) (target : nat) : Arg :=
  mkArg nul EmptyString vn d req true true false (SinkArg T target).

Definition setDone (a : Arg) : Arg :=
  mkArg (shortName a) (longName a) (valueName a) (description a)
        (isRequired a) (hasValue a) (isSink a) true (kind a).

(** [Arg::getDefaultValue]. *)
Definition getDefaultValue (a : Arg) : string :=
  if isRequired a then EmptyString
  else match kind a with
       | ValueArg _ _ d => toString d
       | _ => EmptyString
       end.

(** [target_.push_back(x)] on a container. *)
Definition push_back (c : val) (x : val) : val :=
  match c with
  | VList l => VList (l ++ [x])
  | _ => VList [x]
  end.

(* ------------------------------------------------------------------ *)
(** ** The parser object *)

Record Parser := mkParser {
  shortPrefix : ascii;
  longPrefix : string;
  longSeparator : ascii;
  terminator : string;
  isTerminated : bool;
  helpProlog : string;
  helpEpilog : string;
  usageTitle : string;
  optionsTitle : string;
  operandsTitle : string;
  utilityName : string;
  optionsUsage : string;
  operandsUsage : string;
  defaultIntro : string;
  helpWidth : nat;
  helpIndent : nat;
  options : list Arg;
  operands : list Arg
}.

(** [Parser(helpProlog, helpEpilog)] with the member initialisers. *)
Definition newParser (prolog epilog : string) : Parser :=
  mkParser "-" "--" "=" "--" false prolog epilog "USAGE" "OPTIONS" "OPERANDS"
    EmptyString EmptyString EmptyString "default: " 80 2 [] [].

Definition setTerminated (p : Parser) : Parser :=
  mkParser (shortPrefix p) (longPrefix p) (longSeparator p) (terminator p) true
    (helpProlog p) (helpEpilog p) (usageTitle p) (optionsTitle p) (operandsTitle p)
    (utilityName p) (optionsUsage p) (operandsUsage p) (defaultIntro p)
    (helpWidth p) (helpIndent p) (options p) (operands p).

Definition setUtilityName (p : Parser) (s : string) : Parser :=
  mkParser (shortPrefix p) (longPrefix p) (longSeparator p) (terminator p) (isTerminated p)
    (helpProlog p) (helpEpilog p) (usageTitle p) (optionsTitle p) (operandsTitle p)
    s (optionsUsage p) (operandsUsage p) (defaultIntro p)
    (helpWidth p) (helpIndent p) (options p) (operands p).

Definition setArgs (p : Parser) (opts opds : list Arg) : Parser :=
  mkParser (shortPrefix p) (longPrefix p) (longSeparator p) (terminator p) (isTerminated p)
    (helpProlog p) (helpEpilog p) (usageTitle p) (optionsTitle p) (operandsTitle p)
    (utilityName p) (optionsUsage p) (operandsUsage p) (defaultIntro p)
    (helpWidth p) (helpIndent p) opts opds.

Definition setHelpWidth (p : Parser) (w : nat) : Parser :=
  mkParser (shortPrefix p) (longPrefix p) (longSeparator p) (terminator p) (isTerminated p)
    (helpProlog p) (helpEpilog p) (usageTitle p) (optionsTitle p) (operandsTitle p)
    (utilityName p) (optionsUsage p) (operandsUsage p) (defaultIntro p)
    w (helpIndent p) (options p) (operands p).

(** Declarations: [addSignal], the two [addOption], [addOperand],
    [addOperandSink].  The value-taking ones read the caller memory for the
    default copy. *)
Definition addSignal (p : Parser) (c : ascii) (l d : string) : Parser :=
  setArgs p (options p ++ [newSignalArg c l d]) (operands p).

Definition addOptionBool (p : Parser) (target : nat) (c : ascii) (l d : string)
    (req : bool) : Parser :=
  setArgs p (options p ++ [newBoolArg c l d req target]) (operands p).

Definition addOption (p : Parser) (m : Mem) (T : ty) (target : nat) (c : ascii)
    (l vn d : string) (req : bool) : Parser :=
  setArgs p (options p ++ [newValueArg c l vn d req T target m]) (operands p).

Definition addOperand (p : Parser) (m : Mem) (T : ty) (target : nat)
    (vn d : string) (req : bool) : Parser :=
  setArgs p (options p) (operands p ++ [newValueArg nul EmptyString vn d req T target m]).

Definition addOperandSink (p : Parser) (T : ty) (target : nat)
    (vn d : string) (req : bool) : Parser :=
  setArgs p (options p) (operands p ++ [newSinkArg vn d req T target]).

(* ------------------------------------------------------------------ *)
(** ** Parse state and the exception monad

    A parse runs on the parser object, the caller memory and the shared
    iterator [it] (the tokens not yet consumed).  A thrown exception keeps
    the state reached at the throw: C++ unwinding undoes no write. *)

Record St := mkSt { parser : Parser; mem : Mem; it : list string }.

Definition M (A : Type) : Type := St -> (Exn + A) * St.

Definition ret {A} (x : A) : M A := fun st => (inr x, st).
Definition bind {A B} (m : M A) (k : A -> M B) : M B :=
  fun st => match m st with
            | (inl e, st') => (inl e, st')
            | (inr x, st') => k x st'
            end.
Definition throw {A} (e : Exn) : M A := fun st => (inl e, st).
Definition get : M St := fun st => (inr st, st).
Definition setCursor (l : list string) : M unit :=
  fun st => (inr tt, mkSt (parser st) (mem st) l).
Definition getCursor : M (list string) := fun st => (inr (it st), st).

Notation "x <- m ;; k" := (bind m (fun x => k))
  (at level 61, m at next level, right associativity).
Notation "m ;; k" := (bind m (fun _ => k))
  (at level 61, right associativity).

(* ------------------------------------------------------------------ *)
(** ** Parse engine *)

(** A reference to an argument object: position in [options_] or in
    [operands_]. *)
Inductive ArgRef := Opt (i : nat) | Opd (i : nat).

Fixpoint replace_nth {A} (l : list A) (i : nat) (f : A -> A) : list A :=
  match l, i with
  | [], _ => []
  | x :: r, O => f x :: r
  | x :: r, S j => x :: replace_nth r j f
  end.

Definition markDone (p : Parser) (r : ArgRef) : Parser :=
  match r with
  | Opt i => setArgs p (replace_nth (options p) i setDone) (operands p)
  | Opd i => setArgs p (options p) (replace_nth (operands p) i setDone)
  end.

(** [Arg::parse] = [doParse]: [ValueArg] assigns [fromString<T>(s)],
    [SinkArg] appends it; the others ignore the token. *)
Definition argParse (a : Arg) (s : string) : M unit :=
  fun st =>
    match kind a with
    | ValueArg T k _ =>
        match fromString T s with
        | inl e => (inl e, st)
        | inr v => (inr tt, mkSt (parser st) (memSet (mem st) k v) (it st))
        end
    | SinkArg T k =>
        match fromString T s with
        | inl e => (inl e, st)
        | inr v => (inr tt, mkSt (parser st) (memSet (mem st) k (push_back (mem st k) v)) (it st))
        end
    | _ => (inr tt, st)
    end.

(** [Arg::done]: [doDone()] (a [SignalArg] throws, a [BoolArg] sets its
    target to [true]), then [isDone_ = true]. *)
Definition argDone (r : ArgRef) (a : Arg) : M unit :=
  fun st =>
    match kind a with
    | SignalArg => (inl (Signal (shortName a) (longName a)), st)
    | BoolArg k => (inr tt, mkSt (markDone (parser st) r) (memSet (mem st) k (VBool true)) (it st))
    | _ => (inr tt, mkSt (markDone (parser st) r) (mem st) (it st))
    end.

Fixpoint findArg (f : Arg -> bool) (l : list Arg) (i : nat) : option (nat * Arg) :=
  match l with
  | [] => None
  | a :: r => if f a then Some (i, a) else findArg f r (S i)
  end.

(** [getOption(const std::string&)]: first option with that long name. *)
Definition getOptionLong (name : string) : M (nat * Arg) :=
  fun st =>
    match (if String.eqb name EmptyString then None
           else findArg (fun a => String.eqb (longName a) name) (options (parser st)) O) with
    | Some r => (inr r, st)
    | None => (inl (Error ("Unknown option name: " ++ name)%string), st)
    end.

(** [getOption(char)]: first option with that short name. *)
Definition getOptionShort (name : ascii) : M (nat * Arg) :=
  fun st =>
    match (if Ascii.eqb name nul then None
           else findArg (fun a => Ascii.eqb (shortName a) name) (options (parser st)) O) with
    | Some r => (inr r, st)
    | None => (inl (Error ("Unknown option name: " ++ String name EmptyString)%string), st)
    end.

Definition parseUtility : M unit :=
  fun st =>
    match it st with
    | [] => (inr tt, st)
    | t :: r =>
        let p := parser st in
        let p' := if String.eqb (utilityName p) EmptyString then setUtilityName p t else p in
        (inr tt, mkSt p' (mem st) r)
    end.

Definition parseTerminator : M unit :=
  fun st =>
    match it st with
    | [] => (inr tt, st)
    | t :: r =>
        let p := parser st in
        if isTerminated p || String.eqb (terminator p) EmptyString
           || negb (String.eqb t (terminator p))
        then (inr tt, st)
        else (inr tt, mkSt (setTerminated p) (mem st) r)
    end.

Definition predictLongOption (p : Parser) (cur : list string) : bool :=
  match cur with
  | [] => false
  | t :: _ =>
      negb (isTerminated p)
      && negb (String.eqb (longPrefix p) EmptyString)
      && Nat.ltb (String.length (longPrefix p)) (String.length t)
      && String.prefix (longPrefix p) t
  end.

(** [std::find(nameIt, token.end(), longSeparator_)]: the name before the
    first separator and, if one was found, the text after it. *)
Fixpoint splitAtSep (sep : ascii) (s : string) : string * option string :=
  match s with
  | EmptyString => (EmptyString, None)
  | String c r =>
      if Ascii.eqb c sep then (EmptyString, Some r)
      else let '(n, v) := splitAtSep sep r in (String c n, v)
  end.

(** The next token as the value, or the "Cannot find value" error. *)
Definition nextValue (token : string) (a : Arg) : M unit :=
  cur <- getCursor;;
  match cur with
  | [] => throw (Error ("Cannot find value for option: " ++ token)%string)
  | t :: r => setCursor r;; argParse a t
  end.

Definition parseLongOption : M unit :=
  st <- get;;
  if negb (predictLongOption (parser st) (it st)) then ret tt else
  match it st with
  | [] => ret tt
  | token :: rest =>
      setCursor rest;;
      let p := parser st in
      let afterPrefix := String.substring (String.length (longPrefix p))
                           (String.length token) token in
      let '(name, sepValue) := splitAtSep (longSeparator p) afterPrefix in
      ia <- getOptionLong name;;
      let '(i, a) := ia in
      (if hasValue a then
         match sepValue with
         | Some v => argParse a v
         | None => nextValue token a
         end
       else
         match sepValue with
         | Some _ => throw (Error ("Unexpected option value: " ++ token)%string)
         | None => ret tt
         end);;
      argDone (Opt i) a
  end.

Definition predictShortOption (p : Parser) (cur : list string) : bool :=
  match cur with
  | String c (String _ _) :: _ => negb (isTerminated p) && Ascii.eqb c (shortPrefix p)
  | _ => false
  end.

(** The walk over the characters of a short-option cluster. *)
Fixpoint shortLoop (token names : string) : M unit :=
  match names with
  | EmptyString => ret tt
  | String c rest =>
      ia <- getOptionShort c;;
      let '(i, a) := ia in
      if hasValue a then
        (if negb (String.eqb rest EmptyString) then argParse a rest
         else nextValue token a);;
        argDone (Opt i) a
        (* [nameIt] is now [token.end()]: the walk ends *)
      else
        argDone (Opt i) a;;
        shortLoop token rest
  end.

Definition parseShortOptions : M unit :=
  st <- get;;
  if negb (predictShortOption (parser st) (it st)) then ret tt else
  match it st with
  | [] => ret tt
  | token :: rest =>
      setCursor rest;;
      match token with
      | EmptyString => ret tt
      | String _ names => shortLoop token names
      end
  end.

(** [it != old] for two positions of the same token vector. *)
Definition moved (old cur : list string) : bool :=
  negb (Nat.eqb (List.length cur) (List.length old)).

(** The [while (true)] loop of [parseOptions]; every iteration that does
    not [break] consumes a token, so [S (length it)] rounds suffice. *)
Fixpoint parseOptionsLoop (fuel : nat) : M unit :=
  match fuel with
  | O => ret tt
  | S f =>
      old <- getCursor;;
      parseTerminator;;
      c1 <- getCursor;;
      if moved old c1 then ret tt else
      parseLongOption;;
      c2 <- getCursor;;
      if moved old c2 then parseOptionsLoop f else
      parseShortOptions;;
      c3 <- getCursor;;
      if moved old c3 then parseOptionsLoop f else
      ret tt
  end.

Definition parseOptions : M unit :=
  cur <- getCursor;;
  parseOptionsLoop (S (List.length cur)).

(** The [while (true)] loop of [parseOperandContent]. *)
Fixpoint parseOperandLoop (fuel : nat) (r : ArgRef) (a : Arg) : M unit :=
  match fuel with
  | O => ret tt
  | S f =>
      parseTerminator;;
      st <- get;;
      match it st with
      | [] => ret tt
      | t :: rest =>
          if predictLongOption (parser st) (it st) || predictShortOption (parser st) (it st)
          then throw (Error ("Unexpected option: " ++ t)%string)
          else
            setCursor rest;;
            argParse a t;;
            argDone r a;;
            if isSink a then parseOperandLoop f r a else ret tt
      end
  end.

Definition parseOperandContent (r : ArgRef) (a : Arg) : M unit :=
  cur <- getCursor;;
  parseOperandLoop (S (List.length cur)) r a.

Fixpoint parseOperandsFrom (i : nat) (ops : list Arg) : M unit :=
  match ops with
  | [] => ret tt
  | a :: rest => parseOperandContent (Opd i) a;; parseOperandsFrom (S i) rest
  end.

Definition parseOperands : M unit :=
  st <- get;;
  parseOperandsFrom O (operands (parser st)).

Definition checkEnd : M unit :=
  cur <- getCursor;;
  match cur with
  | [] => ret tt
  | t :: _ => throw (Error ("Unexpected argument: " ++ t)%string)
  end.

Definition expandName (p : Parser) (a : Arg) : string :=
  if negb (Ascii.eqb (shortName a) nul)
  then String (shortPrefix p) (String (shortName a) EmptyString)
  else if negb (String.eqb (longName a) EmptyString)
  then (longPrefix p ++ longName a)%string
  else valueName a.

Definition checkRequired (args : list Arg) : M unit :=
  st <- get;;
  match find (fun a => isRequired a && negb (isDone a)) args with
  | Some a => throw (Error ("Cannot find required argument: " ++ expandName (parser st) a)%string)
  | None => ret tt
  end.

Definition parseAll : M unit :=
  parseUtility;;
  parseOptions;;
  parseOperands;;
  parseTerminator;;
  checkEnd;;
  st1 <- get;; checkRequired (options (parser st1));;
  st2 <- get;; checkRequired (operands (parser st2)).

(** [Parser::parse(const std::vector<std::string>& argv)]: the outcome and
    the parser object and caller memory afterwards. *)
Definition parse (p : Parser) (m : Mem) (argv : list string) : (Exn + unit) * St :=
  parseAll (mkSt p m argv).

(* ------------------------------------------------------------------ *)
(** ** Help renderer (glossary and word wrapping) *)

Definition newline : string := String (chr 10) EmptyString.

Fixpoint spaces (n : nat) : string :=
  match n with O => EmptyString | S k => String " " (spaces k) end.

Definition flushWord (cur : string) (l : list string) : list string :=
  if String.eqb cur EmptyString then l else cur :: l.

(** [tokenize]: words separated by runs of spaces; every ['\n'] is a token
    of its own.  [cur] is the word being read. *)
Fixpoint tokenizeFrom (cur s : string) : list string :=
  match s with
  | EmptyString => flushWord cur []
  | String c r =>
      if Ascii.eqb c " " then flushWord cur (tokenizeFrom EmptyString r)
      else if Ascii.eqb c (chr 10) then flushWord cur (newline :: tokenizeFrom EmptyString r)
      else tokenizeFrom (cur ++ String c EmptyString)%string r
  end.

Definition tokenize (text : string) : list string := tokenizeFrom EmptyString text.

(** The loop of [writeWrapped], from column [pos] with [spc] pending
    separator spaces; returns the text written to [out]. *)
Fixpoint wrapLoop (width hangingIndent pos spc : nat) (tokens : list string) : string :=
  match tokens with
  | [] => EmptyString
  | token :: ts =>
      let isNewline := String.eqb token newline in
      let isOverflow := Nat.ltb width (pos + spc + String.length token) in
      let brk := isNewline || (isOverflow && Nat.ltb hangingIndent pos) in
      let pos1 := if brk then O else pos in
      let spc1 := if brk then hangingIndent else spc in
      ((if brk then newline else EmptyString) ++
       (if isNewline then wrapLoop width hangingIndent pos1 spc1 ts
        else spaces spc1 ++ token
             ++ wrapLoop width hangingIndent (pos1 + spc1 + String.length token)%nat 1 ts))%string
  end.

Definition writeWrapped (p : Parser) (tokens : list string) (initialPos hangingIndent : nat) : string :=
  wrapLoop (helpWidth p) hangingIndent initialPos O tokens.

Definition hasAnyShortName (args : list Arg) : bool :=
  existsb (fun a => negb (Ascii.eqb (shortName a) nul)) args.

(** The [Entry] built for one argument in [writeGlossary]. *)
Definition glossaryEntry (p : Parser) (hasAnyShort : bool) (a : Arg) : string * list string :=
  let hasShort := negb (Ascii.eqb (shortName a) nul) in
  let term1 :=
    if hasAnyShort
    then (if hasShort then String (shortPrefix p) (String (shortName a) EmptyString)
          else "  ")%string
    else EmptyString in
  let term2 :=
    if negb (String.eqb (longName a) EmptyString)
    then (term1 ++ (if hasAnyShort then (if hasShort then ", " else "  ") else EmptyString)
          ++ longPrefix p ++ longName a)%string
    else term1 in
  let term3 :=
    if hasValue a
    then ((if String.eqb term2 EmptyString then term2 else term2 ++ " ") ++ valueName a)%string
    else term2 in
  let desc := tokenize (description a) in
  let desc' :=
    if negb (String.eqb (defaultIntro p) EmptyString)
    then let value := getDefaultValue a in
         if negb (String.eqb value EmptyString)
         then desc ++ [("(" ++ defaultIntro p ++ value ++ ")")%string]
         else desc
    else desc in
  (term3, desc').

Definition writeGlossary (p : Parser) (title : string) (args : list Arg) : string :=
  if String.eqb title EmptyString then EmptyString else
  match args with
  | [] => EmptyString
  | _ =>
      let entries := map (glossaryEntry p (hasAnyShortName args)) args in
      let maxTermSize := fold_left Nat.max (map (fun e => String.length (fst e)) entries) O in
      let tab := (helpIndent p + maxTermSize + helpIndent p)%nat in
      (title ++ newline ++
       String.concat EmptyString
         (map (fun e => spaces (helpIndent p) ++ fst e
                        ++ spaces (tab - helpIndent p - String.length (fst e))
                        ++ writeWrapped p (snd e) tab tab ++ newline) entries)
       ++ newline)%string
  end.

(** One token of [pushUsageTokens]: the short or else the long form, the
    value name, brackets for an optional argument, ["..."] for a sink. *)
Definition usageToken (p : Parser) (a : Arg) : string :=
  let t1 :=
    if negb (Ascii.eqb (shortName a) nul)
    then String (shortPrefix p) (String (shortName a) EmptyString)
    else if negb (String.eqb (longName a) EmptyString)
    then (longPrefix p ++ longName a)%string
    else EmptyString in
  let t2 :=
    if hasValue a
    then ((if String.eqb t1 EmptyString then t1 else t1 ++ " ") ++ valueName a)%string
    else t1 in
  let t3 := if negb (isRequired a) then ("[" ++ t2 ++ "]")%string else t2 in
  if isSink a then (t3 ++ "...")%string else t3.

(** [pushUsageTokens]: one token per argument, appended to [tokens]. *)
Definition pushUsageTokens (p : Parser) (tokens : list string) (args : list Arg) : list string :=
  tokens ++ map (usageToken p) args.

(** [writeUsage]. *)
Definition writeUsage (p : Parser) : string :=
  if String.eqb (usageTitle p) EmptyString then EmptyString else
  let t0 := if String.eqb (utilityName p) EmptyString then [] else [utilityName p] in
  let t1 := if negb (String.eqb (optionsUsage p) EmptyString)
            then t0 ++ [optionsUsage p] else pushUsageTokens p t0 (options p) in
  let t2 := if negb (String.eqb (operandsUsage p) EmptyString)
            then t1 ++ [operandsUsage p] else pushUsageTokens p t1 (operands p) in
  (usageTitle p ++ newline ++ spaces (helpIndent p)
   ++ writeWrapped p t2 (helpIndent p) (helpIndent p * 2)%nat ++ newline ++ newline)%string.

(** [writeParagraph]. *)
Definition writeParagraph (p : Parser) (paragraph : string) : string :=
  if String.eqb paragraph EmptyString then EmptyString
  else (writeWrapped p (tokenize paragraph) O O ++ newline ++ newline)%string.

(** [writeHelp], the text [operator<<] writes for a parser. *)
Definition writeHelp (p : Parser) : string :=
  (writeParagraph p (helpProlog p) ++ writeUsage p
   ++ writeGlossary p (optionsTitle p) (options p)
   ++ writeGlossary p (operandsTitle p) (operands p)
   ++ writeParagraph p (helpEpilog p))%string.

(* ------------------------------------------------------------------ *)
(** ** The operand stage as the specification states it

    Written from the specification's sentences, not from the code, to be
    compared with [parseOperands].  A token looks like an option when it
    is longer than a non-empty long prefix and starts with it, or when it
    has more than one character and its first one is the short prefix. *)
Definition looksLikeOption (sp : ascii) (lp : string) (t : string) : bool :=
  (negb (String.eqb lp EmptyString) && Nat.ltb (String.length lp) (String.length t)
   && String.prefix lp t)
  || (Nat.ltb 1 (String.length t)
      && match String.get 0 t with Some c => Ascii.eqb c sp | None => false end).

(** Replaces the whole state. *)
Definition put (s : St) : M unit := fun _ => (inr tt, s).

(** The operands with their positions in [operands_]. *)
Fixpoint numbered (i : nat) (l : list Arg) : list (ArgRef * Arg) :=
  match l with
  | [] => []
  | a :: r => (Opd i, a) :: numbered (S i) r
  end.

(** The operands stage token by token, as the specification states it.
    [ops] are the operands still waiting, the first one being filled.
    Before a token is bound, the terminator is tried: the first
    terminator token sets the sticky flag and is dropped.  Otherwise,
    while not terminated, a token that looks like an option is the error
    "Unexpected option".  Any other token is bound to the waiting operand
    ([Arg::parse], then [Arg::done]); a sink keeps waiting, any other
    operand is filled and the next one waits.  The stage ends when no
    operand waits or no token is left; every round consumes a token, so
    [fuel] beyond the number of tokens is enough. *)
Fixpoint operandsFromSpec (fuel : nat) (ops : list (ArgRef * Arg)) : M unit :=
  match fuel, ops with
  | O, _ => ret tt
  | _, [] => ret tt
  | S f, (r, a) :: ops' =>
      st <- get;;
      let p := parser st in
      match it st with
      | [] => ret tt
      | t :: rest =>
          if negb (isTerminated p) && negb (String.eqb (terminator p) EmptyString)
             && String.eqb t (terminator p)
          then put (mkSt (setTerminated p) (mem st) rest);; operandsFromSpec f ops
          else if negb (isTerminated p) && looksLikeOption (shortPrefix p) (longPrefix p) t
          then throw (Error ("Unexpected option: " ++ t)%string)
          else setCursor rest;; argParse a t;; argDone r a;;
               operandsFromSpec f (if isSink a then ops else ops')
      end
  end.

Definition operandsStageSpec : M unit :=
  st <- get;;
  operandsFromSpec (S (List.length (it st))) (numbered O (operands (parser st))).

(* ------------------------------------------------------------------ *)
(** ** Example configurations *)

(** Caller memory holding the integer 0 in every variable. *)
Definition zeroMem : Mem := fun _ => VInt 0.

(** A help signal [-h]/[--help] next to a required integer option
    [-n]/[--num] bound to variable 1. *)
Definition helpParser : Parser :=
  addOption (addSignal (newParser EmptyString EmptyString) "h" "help" "Print help")
    zeroMem int32 1%nat "n" "num" "N" "A number" true.

(** Caller memory holding the string [init] in every variable. *)
Definition initMem : Mem := fun _ => VStr "init".

(** A string option [-s]/[--str] bound to variable 1. *)
Definition strParser : Parser :=
  addOption (newParser EmptyString EmptyString) initMem TStr 1%nat "s" "str" "S" "A string" false.

(** Caller memory holding the integer 5 in every variable. *)
Definition fiveMem : Mem := fun _ => VInt 5.

(** A 32-bit integer option [-i]/[--int] bound to variable 1, declared
    while the variable holds 5. *)
Definition intParser : Parser :=
  addOption (newParser EmptyString EmptyString) fiveMem int32 1%nat "i" "int" "N" "An int" false.

(** A 32-bit integer option [-i] bound to variable 1 and a required
    integer operand [M] bound to variable 2. *)
Definition reqOpParser : Parser :=
  addOperand intParser fiveMem int32 2%nat "M" "A number" true.

(** A boolean option [-a] whose description is one word of 25
    characters, with the help width set to 21. *)
Definition narrowParser : Parser :=
  setHelpWidth (addOptionBool (newParser EmptyString EmptyString) 1%nat "a" EmptyString
                  "Thisisaverylongtokenxxxxx" false) 21.

(* ------------------------------------------------------------------ *)
(** ** Vocabulary for the proofs *)

(** [m] never moves the iterator backwards. *)
Definition cursorShrinks {A} (m : M A) : Prop :=
  forall st, (List.length (it (snd (m st))) <= List.length (it st))%nat.

(** [m] leaves the iterator where it is. *)
Definition cursorKept {A} (m : M A) : Prop :=
  forall st, it (snd (m st)) = it st.

(** [m] leaves the declared operands as they are. *)
Definition operandsKept {A} (m : M A) : Prop :=
  forall st, operands (parser (snd (m st))) = operands (parser st).

(** The state with more tokens after the iterator's end. *)
Definition appendCursor (st : St) (ex : list string) : St :=
  mkSt (parser st) (mem st) (it st ++ ex).

(** A successful run of [m] does not depend on tokens it did not reach. *)
Definition appendStable {A} (m : M A) : Prop :=
  forall st ex x st',
    m st = (inr x, st') -> m (appendCursor st ex) = (inr x, appendCursor st' ex).

(** The default configuration of the prefixes, separator and terminator. *)
Definition defaultSyntax (p : Parser) : Prop :=
  shortPrefix p = "-"%char /\ longPrefix p = "--"%string /\ longSeparator p = "="%char /\
  terminator p = "--"%string /\ isTerminated p = false.

(** An argument as declared: its done flag cleared. *)
Definition clearDone (a : Arg) : Arg :=
  mkArg (shortName a) (longName a) (valueName a) (description a)
        (isRequired a) (hasValue a) (isSink a) false (kind a).

(** The configuration of a parser: everything but the state a parse
    updates (the terminated flag and the done flags). *)
Definition configOf (p : Parser) : Parser :=
  mkParser (shortPrefix p) (longPrefix p) (longSeparator p) (terminator p) false
    (helpProlog p) (helpEpilog p) (usageTitle p) (optionsTitle p) (operandsTitle p)
    (utilityName p) (optionsUsage p) (operandsUsage p) (defaultIntro p)
    (helpWidth p) (helpIndent p) (map clearDone (options p)) (map clearDone (operands p)).

(** [m] leaves the configuration of the parser as it is. *)
Definition configKept {A} (m : M A) : Prop :=
  forall st, configOf (parser (snd (m st))) = configOf (parser st).

(** A character that [tokenize] keeps inside a word. *)
Definition wordChar (c : ascii) : bool :=
  negb (Ascii.eqb c " ") && negb (Ascii.eqb c (chr 10)).

(** A non-empty word without separators. *)
Definition isWord (t : string) : bool :=
  negb (String.eqb t EmptyString) && forallb wordChar (list_ascii_of_string t).

(* ================================================================== *)
(** * Properties of the value codec *)

Module CodecFacts.
Import Codec.

Lemma digit_cases (d : Z) :
  0 <= d < 10 ->
  d = 0 \/ d = 1 \/ d = 2 \/ d = 3 \/ d = 4 \/ d = 5 \/ d = 6 \/ d = 7 \/ d = 8 \/ d = 9.
Proof. lia. Qed.

Lemma digitValue_digitChar (d : Z) :
  0 <= d < 10 -> digitValue (digitChar d) = Some d.
Proof.
  intros H; apply digit_cases in H.
  repeat destruct H as [H | H]; subst; reflexivity.
Qed.

Lemma digitChar_not_special (d : Z) :
  0 <= d < 10 ->
  existsb (Ascii.eqb (digitChar d)) (list_ascii_of_string "Xx") = false /\
  existsb (Ascii.eqb (digitChar d)) (list_ascii_of_string "-") = false /\
  isspace (digitChar d) = false.
Proof.
  intros H; apply digit_cases in H.
  repeat destruct H as [H | H]; subst; repeat split; reflexivity.
Qed.

(** Reading back the digits written by [decAux]. *)
Lemma readDigits_decAux (fuel : nat) :
  forall n acc a,
    0 <= n -> Z.log2 n < Z.of_nat fuel ->
    exists k : nat,
      (1 <= k)%nat /\
      String.length (decAux fuel n acc) = (k + String.length acc)%nat /\
      readDigits 10 a (decAux fuel n acc)
      = (fst (readDigits 10 (a * 10 ^ Z.of_nat k + n) acc),
         (k + snd (readDigits 10 (a * 10 ^ Z.of_nat k + n) acc))%nat).
Proof.
  induction fuel as [| f IH]; intros n acc a Hn Hlog.
  - pose proof (Z.log2_nonneg n); lia.
  - cbn [decAux].
    destruct (Z.ltb_spec n 10) as [Hlt | Hge].
    + exists 1%nat; split; [lia|]; split; [reflexivity|].
      cbn [readDigits]. rewrite digitValue_digitChar by lia.
      destruct (Z.ltb_spec n 10); [|lia].
      destruct (readDigits 10 (a * 10 + n) acc) as [v c] eqn:E.
      replace (a * 10 ^ Z.of_nat 1 + n) with (a * 10 + n) by (cbn; lia).
      rewrite E; reflexivity.
    + assert (Hd : 0 <= n mod 10 < 10) by (apply Z.mod_pos_bound; lia).
      assert (Hq : 0 < n / 10) by (apply Z.div_str_pos; lia).
      assert (Hlog' : Z.log2 (n / 10) < Z.of_nat f).
      { assert (H2 : 2 * (n / 10) <= n) by (pose proof (Z.mul_div_le n 10); lia).
        apply Z.log2_le_mono in H2. rewrite Z.log2_double in H2 by lia. lia. }
      destruct (IH (n / 10) (String (digitChar (n mod 10)) acc) a ltac:(lia) Hlog')
        as [k [Hk [Hlen Hread]]].
      exists (S k); split; [lia|]; split.
      * rewrite Hlen; cbn [String.length]; lia.
      * rewrite Hread. cbn [readDigits]. rewrite digitValue_digitChar by exact Hd.
        destruct (Z.ltb_spec (n mod 10) 10); [|lia].
        replace ((a * 10 ^ Z.of_nat k + n / 10) * 10 + n mod 10)
          with (a * 10 ^ Z.of_nat (S k) + n).
        2:{ rewrite Nat2Z.inj_succ, Z.pow_succ_r by lia.
            pose proof (Z.div_mod n 10 ltac:(lia)). lia. }
        destruct (readDigits 10 (a * 10 ^ Z.of_nat (S k) + n) acc) as [v c].
        cbn. f_equal. lia.
Qed.

Lemma find_first_of_from_cons (set : string) (c : ascii) (r : string) (i : nat) :
  find_first_of_from set (String c r) i
  = if existsb (Ascii.eqb c) (list_ascii_of_string set) then Some i
    else find_first_of_from set r (S i).
Proof. reflexivity. Qed.

(** [decAux] writes only digits in front of [acc]. *)
Lemma decAux_none (set : string) (fuel : nat) :
  (forall d, 0 <= d < 10 -> existsb (Ascii.eqb (digitChar d)) (list_ascii_of_string set) = false) ->
  forall n acc,
    0 <= n -> (forall j, find_first_of_from set acc j = None) ->
    forall i, find_first_of_from set (decAux fuel n acc) i = None.
Proof.
  intros Hset; induction fuel as [| f IH]; intros n acc Hn Hacc i; cbn [decAux]; [apply Hacc|].
  destruct (Z.ltb_spec n 10).
  - rewrite find_first_of_from_cons, Hset by lia. apply Hacc.
  - apply IH; [apply Z.div_pos; lia|].
    intros j. rewrite find_first_of_from_cons, Hset by (apply Z.mod_pos_bound; lia).
    apply Hacc.
Qed.

Lemma decAux_head (f : nat) :
  forall n acc, 0 <= n ->
    exists d r, 0 <= d < 10 /\ decAux (S f) n acc = String (digitChar d) r.
Proof.
  induction f as [| f IH]; intros n acc Hn; cbn [decAux].
  - destruct (Z.ltb_spec n 10).
    + exists n, acc; split; [lia | reflexivity].
    + exists (n mod 10), acc; split; [apply Z.mod_pos_bound; lia | reflexivity].
  - destruct (Z.ltb_spec n 10).
    + exists n, acc; split; [lia | reflexivity].
    + apply IH. apply Z.div_pos; lia.
Qed.

Lemma strtoScan_digit (d : Z) (r : string) :
  0 <= d < 10 ->
  strtoScan (String (digitChar d) r) 10
  = match readDigits 10 0 (String (digitChar d) r) with
    | (_, O) => NoConversion
    | (v, k) => Scanned false v k
    end.
Proof.
  intros H; apply digit_cases in H.
  repeat destruct H as [H | H]; subst; unfold strtoScan; cbn [skipSpaces];
    try (destruct r; reflexivity); reflexivity.
Qed.

Lemma strtoScan_minus_digit (d : Z) (r : string) :
  0 <= d < 10 ->
  strtoScan (String "-" (String (digitChar d) r)) 10
  = match readDigits 10 0 (String (digitChar d) r) with
    | (_, O) => NoConversion
    | (v, k) => Scanned true v (S k)
    end.
Proof.
  intros H; apply digit_cases in H.
  repeat destruct H as [H | H]; subst; unfold strtoScan; cbn [skipSpaces];
    try (destruct r; reflexivity); reflexivity.
Qed.

Lemma decimalN_read (n : Z) :
  0 <= n ->
  readDigits 10 0 (decimalN n) = (n, String.length (decimalN n)).
Proof.
  intros Hn. unfold decimalN.
  destruct (readDigits_decAux (S (Z.to_nat (Z.log2 n))) n EmptyString 0 Hn)
    as [k [Hk [Hlen Hread]]].
  { pose proof (Z.log2_nonneg n); lia. }
  rewrite Hread, Hlen. cbn. f_equal; lia.
Qed.

Lemma decimal_scan (z : Z) :
  strtoScan (decimal z) 10 = Scanned (z <? 0) (Z.abs z) (String.length (decimal z)).
Proof.
  unfold decimal. destruct (Z.ltb_spec z 0) as [Hz | Hz].
  - assert (Hn : 0 <= - z) by lia.
    pose proof (decimalN_read (- z) Hn) as Hr.
    unfold decimalN in *.
    destruct (decAux_head (Z.to_nat (Z.log2 (- z))) (- z) EmptyString Hn) as [d [r [Hd He]]].
    rewrite He in *. rewrite strtoScan_minus_digit by exact Hd. rewrite Hr.
    cbn [String.length]. f_equal; lia.
  - assert (Hn : 0 <= z) by lia.
    pose proof (decimalN_read z Hn) as Hr.
    unfold decimalN in *.
    destruct (decAux_head (Z.to_nat (Z.log2 z)) z EmptyString Hn) as [d [r [Hd He]]].
    rewrite He in *. rewrite strtoScan_digit by exact Hd. rewrite Hr.
    cbn [String.length]. f_equal; lia.
Qed.

Lemma decimal_no_x (z : Z) : find_first_of "Xx" (decimal z) = None.
Proof.
  unfold find_first_of, decimal, decimalN.
  assert (Hs : forall d, 0 <= d < 10 ->
            existsb (Ascii.eqb (digitChar d)) (list_ascii_of_string "Xx") = false)
    by (intros d Hd; apply digitChar_not_special; exact Hd).
  destruct (Z.ltb_spec z 0).
  - rewrite find_first_of_from_cons. cbn [list_ascii_of_string existsb].
    change (Ascii.eqb "-" "X" || (Ascii.eqb "-" "x" || false))%bool with false.
    apply decAux_none; [exact Hs | lia | reflexivity].
  - apply decAux_none; [exact Hs | lia | reflexivity].
Qed.

Lemma decimal_minus (z : Z) :
  find_char "-" (decimal z) = if z <? 0 then Some O else None.
Proof.
  unfold find_char, find_first_of, decimal, decimalN.
  destruct (Z.ltb_spec z 0).
  - reflexivity.
  - apply decAux_none; [| lia | reflexivity].
    intros d Hd; apply digitChar_not_special; exact Hd.
Qed.

Lemma pow_bits_le (bits : Z) :
  1 <= bits <= 64 -> 2 ^ (bits - 1) <= 2 ^ 63 /\ 2 ^ bits <= 2 ^ 64 /\ 1 <= 2 ^ (bits - 1).
Proof.
  intros H; repeat split.
  - apply Z.pow_le_mono_r; lia.
  - apply Z.pow_le_mono_r; lia.
  - change 1 with (2 ^ 0); apply Z.pow_le_mono_r; lia.
Qed.

(** [fromString<T>] on the decimal rendering of any integer [z]: the
    value back exactly when [z] fits the type, an [Error] otherwise. *)
Lemma fromStringInt_decimal (sg : bool) (bits z : Z) :
  1 <= bits <= 64 ->
  fromStringInt sg bits (decimal z)
  = if (intMin sg bits <=? z) && (z <=? intMax sg bits) then inr z
    else inl (Error ((if negb sg && (Z.ltb z 0) then "Cannot parse unsigned integer: "
                      else "Cannot parse integer: ") ++ decimal z)%string).
Proof.
  intros Hb. destruct (pow_bits_le bits Hb) as [H63 [H64 H1]].
  unfold fromStringInt, intBase. rewrite decimal_no_x.
  destruct sg; unfold toLongest.
  - unfold stoll. rewrite decimal_scan.
    replace (if z <? 0 then - Z.abs z else Z.abs z) with z
      by (destruct (Z.ltb_spec z 0); lia).
    unfold intMin, intMax. cbn [negb andb].
    destruct (Z.ltb_spec z (- 2 ^ 63)); destruct (Z.ltb_spec (2 ^ 63 - 1) z); cbn [orb];
      rewrite ?Nat.eqb_refl; cbn [andb];
      destruct (Z.leb_spec (- 2 ^ (bits - 1)) z); destruct (Z.leb_spec z (2 ^ (bits - 1) - 1));
      cbn [andb]; try reflexivity; lia.
  - rewrite decimal_minus. unfold intMin, intMax. cbn [negb andb].
    destruct (Z.ltb_spec z 0).
    + destruct (Z.leb_spec 0 z); [lia|]. reflexivity.
    + unfold stoull. rewrite decimal_scan.
      replace (z <? 0) with false by (symmetry; apply Z.ltb_ge; lia).
      replace (Z.abs z) with z by lia.
      destruct (Z.ltb_spec (2 ^ 64 - 1) z);
        rewrite ?Nat.eqb_refl; cbn [andb];
        destruct (Z.leb_spec 0 z); destruct (Z.leb_spec z (2 ^ bits - 1));
        cbn [andb]; try reflexivity; lia.
Qed.

Lemma find_Xx_spec (s : string) :
  forall i, (exists j, find_first_of_from "Xx" s i = Some j)
            <-> exists k c, String.get k s = Some c /\ (c = "x"%char \/ c = "X"%char).
Proof.
  induction s as [| c r IH]; intros i.
  - split; [intros [j Hj]; discriminate | intros [k [c [Hk _]]]; destruct k; discriminate].
  - rewrite find_first_of_from_cons. cbn [list_ascii_of_string existsb].
    destruct (Ascii.eqb_spec c "X") as [HX | HX]; [|destruct (Ascii.eqb_spec c "x") as [Hx | Hx]];
      cbn [orb].
    + split; [intros _; exists O, c; split; [reflexivity | right; exact HX]
             | intros _; exists i; reflexivity].
    + split; [intros _; exists O, c; split; [reflexivity | left; exact Hx]
             | intros _; exists i; reflexivity].
    + rewrite (IH (S i)). split.
      * intros [k [c' [Hk Hc']]]. exists (S k), c'. split; assumption.
      * intros [k [c' [Hk Hc']]]. destruct k as [| k].
        -- cbn in Hk. injection Hk as <-. destruct Hc'; contradiction.
        -- exists k, c'. split; assumption.
Qed.

(** C1 (as amended).  Integers: rendering any value of an integral type
    with [toString] and re-parsing that text with [fromString] at the same
    type gives the value back.  Strings: [toString] adds double quotes that
    [fromString<std::string>] keeps, so re-parsing gives the quoted text.
    Floating point: [toString] keeps six significant digits, so 1234567,
    a [double], is rendered as [1.23457e+06] and read back as 1234570. *)
Theorem roundtrip_int_and_quoted_string (sg : bool) (bits z : Z) (s : string) :
  1 <= bits <= 64 ->
  intMin sg bits <= z <= intMax sg bits ->
  fromString (TInt sg bits) (toString (VInt z)) = inr (VInt z)
  /\ fromString TStr (toString (VStr s))
     = inr (VStr (String dquote (s ++ String dquote EmptyString)))
  /\ FloatCodec.toStringFloat (FloatCodec.mkF 1234567 1) = "1.23457e+06"%string
  /\ (exists v, FloatCodec.fromStringFloat FloatCodec.binary64
                  (FloatCodec.toStringFloat (FloatCodec.mkF 1234567 1)) = inr v
                /\ FloatCodec.feqb v (FloatCodec.mkF 1234570 1) = true).
Proof.
  intros Hb Hz. split; [| split; [| split]].
  - cbn [fromString toString]. rewrite fromStringInt_decimal by exact Hb.
    destruct (Z.leb_spec (intMin sg bits) z); destruct (Z.leb_spec z (intMax sg bits));
      cbn [andb]; try reflexivity; lia.
  - reflexivity.
  - vm_compute. reflexivity.
  - eexists. split; vm_compute; reflexivity.
Qed.

Lemma roundtrip_int_and_quoted_string_witness :
  (1 <= 8 <= 64 /\ intMin true 8 <= -128 <= intMax true 8)
  /\ fromString (TInt true 8) (toString (VInt (-128))) = inr (VInt (-128))
  /\ fromString TStr (toString (VStr "a"))
     = inr (VStr (String dquote ("a" ++ String dquote EmptyString)))
  /\ FloatCodec.toStringFloat (FloatCodec.mkF 1234567 1) = "1.23457e+06"%string
  /\ (exists v, FloatCodec.fromStringFloat FloatCodec.binary64
                  (FloatCodec.toStringFloat (FloatCodec.mkF 1234567 1)) = inr v
                /\ FloatCodec.feqb v (FloatCodec.mkF 1234570 1) = true).
Proof.
  split; [split; [lia | vm_compute; split; discriminate] |].
  apply (roundtrip_int_and_quoted_string true 8 (-128) "a").
  - lia.
  - vm_compute; split; discriminate.
Defined.

(** C1 counterexample.  Strings: ["a"] is rendered as the three
    characters ["a"] between double quotes, and [fromString<std::string>]
    of that text is not the original ["a"].  Floating point: 1234567 is a
    [double] and a [float], [toStream] renders it with six significant
    digits as [1.23457e+06], and [fromString] of that text at either type
    gives 1234570. *)
Lemma roundtrip_fails_for_strings_and_floats :
  (toString (VStr "a") = String dquote (String "a" (String dquote EmptyString))
   /\ fromString TStr (toString (VStr "a")) <> inr (VStr "a")) /\
  (exists v, FloatCodec.roundF FloatCodec.binary64 (FloatCodec.mkF 1234567 1) = Some v
             /\ FloatCodec.feqb v (FloatCodec.mkF 1234567 1) = true) /\
  (exists v, FloatCodec.roundF FloatCodec.binary32 (FloatCodec.mkF 1234567 1) = Some v
             /\ FloatCodec.feqb v (FloatCodec.mkF 1234567 1) = true) /\
  FloatCodec.toStringFloat (FloatCodec.mkF 1234567 1) = "1.23457e+06"%string /\
  (exists v, FloatCodec.fromStringFloat FloatCodec.binary64 "1.23457e+06" = inr v
             /\ FloatCodec.feqb v (FloatCodec.mkF 1234570 1) = true
             /\ FloatCodec.feqb v (FloatCodec.mkF 1234567 1) = false) /\
  (exists v, FloatCodec.fromStringFloat FloatCodec.binary32 "1.23457e+06" = inr v
             /\ FloatCodec.feqb v (FloatCodec.mkF 1234570 1) = true
             /\ FloatCodec.feqb v (FloatCodec.mkF 1234567 1) = false).
Proof.
  split; [split; [reflexivity | discriminate] |].
  split; [eexists; split; vm_compute; reflexivity |].
  split; [eexists; split; vm_compute; reflexivity |].
  split; [vm_compute; reflexivity |].
  split; eexists; split; [vm_compute; reflexivity | vm_compute; split; reflexivity
                         | vm_compute; reflexivity | vm_compute; split; reflexivity].
Qed.

(** The floating-point codec on the texts of the library's tests:
    [0] and [0.5] are rendered as [0] and [0.5]; [1], [2.], [.5], [1e6],
    [-1e+6], [1.0e-6] and [0.000001] are read as [double]s (the last two
    as the same one), and the empty text, [1.-], [e1] and [1e] are
    rejected. *)
Lemma float_codec_on_test_texts :
  FloatCodec.toStringFloat (FloatCodec.mkF 0 1) = "0"%string /\
  FloatCodec.toStringFloat (FloatCodec.mkF 1 2) = "0.5"%string /\
  map (fun t => match FloatCodec.fromStringFloat FloatCodec.binary64 t with
                | inr v => Some (FloatCodec.feqb v (FloatCodec.mkF 1 1),
                                 FloatCodec.feqb v (FloatCodec.mkF 2 1),
                                 FloatCodec.feqb v (FloatCodec.mkF 1 2),
                                 FloatCodec.feqb v (FloatCodec.mkF 1000000 1),
                                 FloatCodec.feqb v (FloatCodec.mkF (-1000000) 1))
                | inl _ => None end)
      ["1"; "2."; ".5"; "1e6"; "-1e+6"]%string
    = [Some (true, false, false, false, false); Some (false, true, false, false, false);
       Some (false, false, true, false, false); Some (false, false, false, true, false);
       Some (false, false, false, false, true)] /\
  (exists v, FloatCodec.fromStringFloat FloatCodec.binary64 "1.0e-6" = inr v /\
             FloatCodec.fromStringFloat FloatCodec.binary64 "0.000001" = inr v) /\
  map (fun t => match FloatCodec.fromStringFloat FloatCodec.binary64 t with
                | inr _ => false | inl _ => true end)
      [EmptyString; "1.-"; "e1"; "1e"]%string
    = [true; true; true; true].
Proof.
  split; [vm_compute; reflexivity |]. split; [vm_compute; reflexivity |].
  split; [vm_compute; reflexivity |]. split; [eexists; split; vm_compute; reflexivity |].
  vm_compute; reflexivity.
Qed.

(** C5.  For every integral type of width 1 to 64 bits (8, 16, 32 and 64
    included), signed or unsigned, [fromString] of the decimal text of an
    integer [z] yields [z] exactly when [z] lies between the type's minimum
    and maximum and fails with a parse [Error] otherwise; in particular the
    listed 8-, 32- and 64-bit boundary texts are accepted or rejected as
    stated. *)
Theorem int_accepts_exactly_representable (sg : bool) (bits z : Z) :
  1 <= bits <= 64 ->
  (fromString (TInt sg bits) (decimal z) = inr (VInt z)
     <-> intMin sg bits <= z <= intMax sg bits)
  /\ (~ (intMin sg bits <= z <= intMax sg bits) ->
      exists msg, fromString (TInt sg bits) (decimal z) = inl (Error msg))
  /\ fromString int8 "-128" = inr (VInt (-128))
  /\ fromString int8 "127" = inr (VInt 127)
  /\ (exists msg, fromString int8 "-129" = inl (Error msg))
  /\ (exists msg, fromString int8 "128" = inl (Error msg))
  /\ fromString uint8 "0" = inr (VInt 0)
  /\ fromString uint8 "255" = inr (VInt 255)
  /\ (exists msg, fromString uint8 "-1" = inl (Error msg))
  /\ (exists msg, fromString uint8 "256" = inl (Error msg))
  /\ fromString int32 "-2147483648" = inr (VInt (-2147483648))
  /\ fromString int32 "2147483647" = inr (VInt 2147483647)
  /\ (exists msg, fromString int32 "-2147483649" = inl (Error msg))
  /\ (exists msg, fromString int32 "2147483648" = inl (Error msg))
  /\ fromString uint32 "0" = inr (VInt 0)
  /\ fromString uint32 "4294967295" = inr (VInt 4294967295)
  /\ (exists msg, fromString uint32 "-1" = inl (Error msg))
  /\ (exists msg, fromString uint32 "4294967296" = inl (Error msg))
  /\ fromString int64 "-9223372036854775808" = inr (VInt (-9223372036854775808))
  /\ fromString int64 "9223372036854775807" = inr (VInt 9223372036854775807)
  /\ (exists msg, fromString int64 "-9223372036854775809" = inl (Error msg))
  /\ (exists msg, fromString int64 "9223372036854775808" = inl (Error msg))
  /\ fromString uint64 "0" = inr (VInt 0)
  /\ fromString uint64 "18446744073709551615" = inr (VInt 18446744073709551615)
  /\ (exists msg, fromString uint64 "-1" = inl (Error msg))
  /\ (exists msg, fromString uint64 "18446744073709551616" = inl (Error msg)).
Proof.
  intros Hb. cbn [fromString]. rewrite fromStringInt_decimal by exact Hb.
  split; [| split].
  - destruct (Z.leb_spec (intMin sg bits) z); destruct (Z.leb_spec z (intMax sg bits));
      cbn [andb]; split; intros Hx; try reflexivity; try discriminate; lia.
  - intros Hn. destruct (Z.leb_spec (intMin sg bits) z); destruct (Z.leb_spec z (intMax sg bits));
      cbn [andb]; try lia; eexists; reflexivity.
  - repeat split; try (eexists; vm_compute; reflexivity); vm_compute; reflexivity.
Qed.

Lemma int_accepts_exactly_representable_witness :
  (1 <= 32 <= 64)
  /\ (fromString (TInt true 32) (decimal 2147483647) = inr (VInt 2147483647)
      <-> intMin true 32 <= 2147483647 <= intMax true 32).
Proof.
  split; [lia|].
  apply (int_accepts_exactly_representable true 32 2147483647). lia.
Defined.

(** C6.  The base of an integer token is 16 exactly when the token
    contains an ['x'] or ['X'] at any position, and 10 otherwise; the
    token ["0x7fffffff"] read as a signed 32-bit integer is 2147483647. *)
Theorem int_base_rule :
  (forall s, intBase s = 16
             <-> exists k c, String.get k s = Some c /\ (c = "x"%char \/ c = "X"%char))
  /\ (forall s, intBase s = 10
             <-> ~ exists k c, String.get k s = Some c /\ (c = "x"%char \/ c = "X"%char))
  /\ fromString int32 "0x7fffffff" = inr (VInt 2147483647)
  /\ fromString int32 "0x10" = inr (VInt 16)
  /\ fromString int32 "10" = inr (VInt 10)
  /\ (exists msg, fromString int32 "ff" = inl (Error msg))
  /\ (exists msg, fromString int32 "1x" = inl (Error msg)).
Proof.
  split; [| split].
  - intros s. rewrite <- (find_Xx_spec s O). unfold intBase, find_first_of.
    destruct (find_first_of_from "Xx" s O) as [j |].
    + split; [intros _; exists j; reflexivity | reflexivity].
    + split; [discriminate | intros [j Hj]; discriminate].
  - intros s. rewrite <- (find_Xx_spec s O). unfold intBase, find_first_of.
    destruct (find_first_of_from "Xx" s O) as [j |].
    + split; [discriminate | intros H; exfalso; apply H; exists j; reflexivity].
    + split; [intros _ [j Hj]; discriminate | reflexivity].
  - repeat split; try (eexists; vm_compute; reflexivity); vm_compute; reflexivity.
Qed.

End CodecFacts.

(* ================================================================== *)
(** * Properties of the parse engine *)

Module ParseFacts.

Lemma bind_shrinks {A B} (m : M A) (k : A -> M B) :
  cursorShrinks m -> (forall x, cursorShrinks (k x)) -> cursorShrinks (bind m k).
Proof.
  intros Hm Hk st. unfold bind. specialize (Hm st).
  destruct (m st) as [[e | x] st']; cbn in *; [exact Hm|].
  specialize (Hk x st'). lia.
Qed.

Lemma bind_kept {A B} (m : M A) (k : A -> M B) :
  cursorKept m -> (forall x, cursorKept (k x)) -> cursorKept (bind m k).
Proof.
  intros Hm Hk st. unfold bind. specialize (Hm st).
  destruct (m st) as [[e | x] st']; cbn in *; [exact Hm|].
  rewrite Hk; exact Hm.
Qed.

Lemma kept_shrinks {A} (m : M A) : cursorKept m -> cursorShrinks m.
Proof. intros H st; rewrite H; lia. Qed.

Lemma ret_kept {A} (x : A) : cursorKept (ret x).
Proof. intros st; reflexivity. Qed.

Lemma throw_kept {A} (e : Exn) : cursorKept (@throw A e).
Proof. intros st; reflexivity. Qed.

Lemma argParse_kept (a : Arg) (s : string) : cursorKept (argParse a s).
Proof.
  intros st; unfold argParse.
  destruct (kind a); try reflexivity; destruct (fromString T s); reflexivity.
Qed.

Lemma argDone_kept (r : ArgRef) (a : Arg) : cursorKept (argDone r a).
Proof. intros st; unfold argDone; destruct (kind a); reflexivity. Qed.

Lemma getOptionLong_kept (name : string) : cursorKept (getOptionLong name).
Proof.
  intros st; unfold getOptionLong.
  destruct (if String.eqb name EmptyString then None else _); reflexivity.
Qed.

Lemma getOptionShort_kept (name : ascii) : cursorKept (getOptionShort name).
Proof.
  intros st; unfold getOptionShort.
  destruct (if Ascii.eqb name nul then None else _); reflexivity.
Qed.

Create HintDb cursor.
#[local] Hint Resolve bind_shrinks bind_kept kept_shrinks ret_kept throw_kept
  argParse_kept argDone_kept getOptionLong_kept getOptionShort_kept : cursor.

Lemma nextValue_shrinks (token : string) (a : Arg) : cursorShrinks (nextValue token a).
Proof.
  intros st. unfold nextValue, bind, getCursor; cbn.
  destruct (it st) as [| t r] eqn:E; cbn; [rewrite E; cbn; lia|].
  rewrite (argParse_kept a t). cbn. lia.
Qed.

#[local] Hint Resolve nextValue_shrinks : cursor.

Lemma parseTerminator_shrinks : cursorShrinks parseTerminator.
Proof.
  intros st. unfold parseTerminator.
  destruct (it st) as [| t r] eqn:E; cbn; [rewrite E; cbn; lia|].
  destruct (_ || _); cbn; rewrite ?E; cbn; lia.
Qed.

Lemma parseLongOption_shrinks : cursorShrinks parseLongOption.
Proof.
  intros st. unfold parseLongOption at 1. unfold bind at 1, get. cbv beta iota.
  destruct (negb _); [cbn; lia|].
  destruct (it st) as [| token rest] eqn:E; [cbn; rewrite E; cbn; lia|].
  unfold bind at 1, setCursor. cbv beta iota.
  match goal with |- context [snd (?k (mkSt ?p ?m rest))] =>
    assert (Hk : cursorShrinks k) end.
  { destruct (splitAtSep _ _) as [name sepValue].
    apply bind_shrinks; [auto with cursor|]. intros [i a].
    apply bind_shrinks; [| auto with cursor].
    destruct (hasValue a), sepValue; auto with cursor. }
  specialize (Hk (mkSt (parser st) (mem st) rest)). cbn in Hk |- *.
  destruct (splitAtSep _ _). lia.
Qed.

Lemma shortLoop_shrinks (token names : string) : cursorShrinks (shortLoop token names).
Proof.
  induction names as [| c rest IH]; cbn [shortLoop]; [auto with cursor|].
  apply bind_shrinks; [auto with cursor|]. intros [i a].
  destruct (hasValue a); [| auto with cursor].
  apply bind_shrinks; [destruct (negb _) | ]; auto with cursor.
Qed.

Lemma parseShortOptions_shrinks : cursorShrinks parseShortOptions.
Proof.
  intros st. unfold parseShortOptions at 1. unfold bind at 1, get. cbv beta iota.
  destruct (negb _); [cbn; lia|].
  destruct (it st) as [| token rest] eqn:E; [cbn; rewrite E; cbn; lia|].
  unfold bind at 1, setCursor. cbv beta iota.
  destruct token as [| c0 names]; [cbn; lia|].
  pose proof (shortLoop_shrinks (String c0 names) names (mkSt (parser st) (mem st) rest)).
  cbn in *. lia.
Qed.

Lemma moved_lt (old cur : list string) :
  (List.length cur <= List.length old)%nat ->
  moved old cur = true -> (List.length cur < List.length old)%nat.
Proof.
  unfold moved. intros Hle Hm. apply negb_true_iff, Nat.eqb_neq in Hm. lia.
Qed.

Lemma moved_refl (l : list string) : moved l l = false.
Proof. unfold moved. rewrite Nat.eqb_refl. reflexivity. Qed.

Ltac shrink_fact lem st E :=
  let H := fresh "Hs" in pose proof (lem st) as H; rewrite E in H; cbn [snd] in H.

(** Any fuel above the number of remaining tokens gives the same run of
    the options loop. *)
Lemma parseOptionsLoop_fuel (n : nat) :
  forall k st,
    (List.length (it st) < n)%nat -> (List.length (it st) < k)%nat ->
    parseOptionsLoop n st = parseOptionsLoop k st.
Proof.
  induction n as [| n IH]; intros k st Hn Hk; [lia|].
  destruct k as [| k]; [lia|].
  cbn [parseOptionsLoop]. unfold bind, getCursor. cbv beta iota.
  destruct (parseTerminator st) as [[e | []] st1] eqn:E1; [reflexivity|].
  shrink_fact parseTerminator_shrinks st E1.
  destruct (moved (it st) (it st1)); [reflexivity|].
  destruct (parseLongOption st1) as [[e | []] st2] eqn:E2; [reflexivity|].
  shrink_fact parseLongOption_shrinks st1 E2.
  destruct (moved (it st) (it st2)) eqn:M2.
  { apply moved_lt in M2; [|lia]. apply IH; lia. }
  destruct (parseShortOptions st2) as [[e | []] st3] eqn:E3; [reflexivity|].
  shrink_fact parseShortOptions_shrinks st2 E3.
  destruct (moved (it st) (it st3)) eqn:M3; [|reflexivity].
  apply moved_lt in M3; [|lia]. apply IH; lia.
Qed.

(** Same for the loop of [parseOperandContent]. *)
Lemma parseOperandLoop_fuel (n : nat) :
  forall k r a st,
    (List.length (it st) < n)%nat -> (List.length (it st) < k)%nat ->
    parseOperandLoop n r a st = parseOperandLoop k r a st.
Proof.
  induction n as [| n IH]; intros k r a st Hn Hk; [lia|].
  destruct k as [| k]; [lia|].
  cbn [parseOperandLoop]. unfold bind, get. cbv beta iota.
  destruct (parseTerminator st) as [[e | []] st1] eqn:E1; [reflexivity|].
  shrink_fact parseTerminator_shrinks st E1.
  destruct (it st1) as [| t rest] eqn:Ec; [reflexivity|].
  destruct (_ || _); [reflexivity|].
  unfold setCursor. cbv beta iota.
  destruct (argParse a t _) as [[e | []] st2] eqn:E2; [reflexivity|].
  pose proof (argParse_kept a t (mkSt (parser st1) (mem st1) rest)) as K2.
  rewrite E2 in K2; cbn in K2.
  destruct (argDone r a st2) as [[e | []] st3] eqn:E3; [reflexivity|].
  pose proof (argDone_kept r a st2) as K3. rewrite E3 in K3; cbn in K3.
  destruct (isSink a); [|reflexivity].
  cbn [List.length] in Hs. apply IH; rewrite K3, K2; lia.
Qed.

(** ** The options stage keeps the declared operands *)

Lemma bind_opkept {A B} (m : M A) (k : A -> M B) :
  operandsKept m -> (forall x, operandsKept (k x)) -> operandsKept (bind m k).
Proof.
  intros Hm Hk st. unfold bind. specialize (Hm st).
  destruct (m st) as [[e | x] st']; cbn in *; [exact Hm|].
  rewrite Hk; exact Hm.
Qed.

Lemma markDone_opt_operands (p : Parser) (i : nat) :
  operands (markDone p (Opt i)) = operands p.
Proof. reflexivity. Qed.

Lemma ret_opkept {A} (x : A) : operandsKept (ret x).
Proof. intros st; reflexivity. Qed.
Lemma throw_opkept {A} (e : Exn) : operandsKept (@throw A e).
Proof. intros st; reflexivity. Qed.
Lemma argParse_opkept (a : Arg) (s : string) : operandsKept (argParse a s).
Proof.
  intros st; unfold argParse.
  destruct (kind a); try reflexivity; destruct (fromString T s); reflexivity.
Qed.
Lemma argDone_opt_opkept (i : nat) (a : Arg) : operandsKept (argDone (Opt i) a).
Proof. intros st; unfold argDone; destruct (kind a); reflexivity. Qed.
Lemma getOptionLong_opkept (name : string) : operandsKept (getOptionLong name).
Proof.
  intros st; unfold getOptionLong.
  destruct (if String.eqb name EmptyString then None else _); reflexivity.
Qed.
Lemma getOptionShort_opkept (name : ascii) : operandsKept (getOptionShort name).
Proof.
  intros st; unfold getOptionShort.
  destruct (if Ascii.eqb name nul then None else _); reflexivity.
Qed.
Lemma nextValue_opkept (token : string) (a : Arg) : operandsKept (nextValue token a).
Proof.
  intros st. unfold nextValue, bind, getCursor; cbn.
  destruct (it st) as [| t r]; [reflexivity|].
  exact (argParse_opkept a t (mkSt (parser st) (mem st) r)).
Qed.

Create HintDb opkept.
#[local] Hint Resolve bind_opkept ret_opkept throw_opkept argParse_opkept argDone_opt_opkept
  getOptionLong_opkept getOptionShort_opkept nextValue_opkept : opkept.

Lemma parseTerminator_opkept : operandsKept parseTerminator.
Proof.
  intros st. unfold parseTerminator.
  destruct (it st) as [| t r]; [reflexivity|]. destruct (_ || _); reflexivity.
Qed.

Lemma parseUtility_opkept : operandsKept parseUtility.
Proof.
  intros st. unfold parseUtility.
  destruct (it st) as [| t r]; [reflexivity|]. cbn.
  destruct (String.eqb _ _); reflexivity.
Qed.

Lemma parseLongOption_opkept : operandsKept parseLongOption.
Proof.
  intros st. unfold parseLongOption at 1. unfold bind at 1, get. cbv beta iota.
  destruct (negb _); [reflexivity|].
  destruct (it st) as [| token rest]; [reflexivity|].
  unfold bind at 1, setCursor. cbv beta iota.
  match goal with |- context [snd (?k (mkSt ?p ?m rest))] =>
    assert (Hk : operandsKept k) end.
  { destruct (splitAtSep _ _) as [name sepValue].
    apply bind_opkept; [auto with opkept|]. intros [i a].
    apply bind_opkept; [| auto with opkept].
    destruct (hasValue a), sepValue; auto with opkept. }
  specialize (Hk (mkSt (parser st) (mem st) rest)). cbn in Hk |- *.
  destruct (splitAtSep _ _). exact Hk.
Qed.

Lemma shortLoop_opkept (token names : string) : operandsKept (shortLoop token names).
Proof.
  induction names as [| c rest IH]; cbn [shortLoop]; [auto with opkept|].
  apply bind_opkept; [auto with opkept|]. intros [i a].
  destruct (hasValue a); [| auto with opkept].
  apply bind_opkept; [destruct (negb _) | ]; auto with opkept.
Qed.

Lemma parseShortOptions_opkept : operandsKept parseShortOptions.
Proof.
  intros st. unfold parseShortOptions at 1. unfold bind at 1, get. cbv beta iota.
  destruct (negb _); [reflexivity|].
  destruct (it st) as [| token rest]; [reflexivity|].
  unfold bind at 1, setCursor. cbv beta iota.
  destruct token as [| c0 names]; [reflexivity|].
  apply (shortLoop_opkept (String c0 names) names (mkSt (parser st) (mem st) rest)).
Qed.

Lemma parseOptionsLoop_opkept (n : nat) : operandsKept (parseOptionsLoop n).
Proof.
  induction n as [| n IH]; cbn [parseOptionsLoop]; [auto with opkept|].
  unfold getCursor.
  apply bind_opkept; [intros st; reflexivity|]. intros old.
  apply bind_opkept; [apply parseTerminator_opkept|]. intros _.
  apply bind_opkept; [intros st; reflexivity|]. intros c1.
  destruct (moved old c1); [auto with opkept|].
  apply bind_opkept; [apply parseLongOption_opkept|]. intros _.
  apply bind_opkept; [intros st; reflexivity|]. intros c2.
  destruct (moved old c2); [exact IH|].
  apply bind_opkept; [apply parseShortOptions_opkept|]. intros _.
  apply bind_opkept; [intros st; reflexivity|]. intros c3.
  destruct (moved old c3); [exact IH | auto with opkept].
Qed.

Lemma parseOptions_opkept : operandsKept parseOptions.
Proof.
  unfold parseOptions. apply bind_opkept; [intros st; reflexivity|].
  intros cur; apply parseOptionsLoop_opkept.
Qed.

(** ** A sink operand consumes the input to its end *)

Lemma sink_loop_exhausts (n : nat) :
  forall r a st, isSink a = true -> (List.length (it st) < n)%nat ->
    match parseOperandLoop n r a st with
    | (inr _, st') => it st' = []
    | (inl _, _) => True
    end.
Proof.
  induction n as [| n IH]; intros r a st Hs Hn; [lia|].
  cbn [parseOperandLoop]. unfold bind, get. cbv beta iota.
  destruct (parseTerminator st) as [[e | []] st1] eqn:E1; [exact I|].
  shrink_fact parseTerminator_shrinks st E1.
  destruct (it st1) as [| t rest] eqn:Ec; [cbn; exact Ec|].
  destruct (_ || _); [exact I|].
  unfold setCursor. cbv beta iota.
  destruct (argParse a t _) as [[e | []] st2] eqn:E2; [exact I|].
  pose proof (argParse_kept a t (mkSt (parser st1) (mem st1) rest)) as K2.
  rewrite E2 in K2; cbn in K2.
  destruct (argDone r a st2) as [[e | []] st3] eqn:E3; [exact I|].
  pose proof (argDone_kept r a st2) as K3. rewrite E3 in K3; cbn in K3.
  rewrite Hs. apply IH; [exact Hs|]. cbn [List.length] in Hs0. rewrite K3, K2. lia.
Qed.

Lemma operands_last_sink_exhaust (pre : list Arg) (a : Arg) :
  isSink a = true ->
  forall i st,
    match parseOperandsFrom i (pre ++ [a]) st with
    | (inr _, st') => it st' = []
    | (inl _, _) => True
    end.
Proof.
  intros Hs. induction pre as [| b pre IH]; intros i st; cbn [app parseOperandsFrom].
  - unfold parseOperandContent, bind, getCursor. cbv beta iota.
    pose proof (sink_loop_exhausts (S (List.length (it st))) (Opd i) a st Hs ltac:(lia)) as H.
    destruct (parseOperandLoop _ _ _ st) as [[e | []] st']; [exact I|].
    cbn. exact H.
  - unfold bind at 1. destruct (parseOperandContent (Opd i) b st) as [[e | []] st1]; [exact I|].
    apply IH.
Qed.

(** C10: when the last declared operand is a sink, every run of the stages
    before the end check that does not abort leaves the iterator at the end
    of the input, so the end check passes there and its
    "Unexpected argument" error is never raised. *)
Theorem sink_last_end_check_passes (p : Parser) (m : Mem) (argv : list string)
  (pre : list Arg) (a : Arg) :
  operands p = pre ++ [a] -> isSink a = true ->
  match (parseUtility;; parseOptions;; parseOperands;; parseTerminator) (mkSt p m argv) with
  | (inr _, st') => it st' = [] /\ checkEnd st' = (inr tt, st')
  | (inl _, _) => True
  end.
Proof.
  intros Hops Hs. unfold bind at 1.
  pose proof (parseUtility_opkept (mkSt p m argv)) as K1.
  destruct (parseUtility (mkSt p m argv)) as [[e | []] s1]; [exact I|]. cbn in K1.
  unfold bind at 1.
  pose proof (parseOptions_opkept s1) as K2.
  destruct (parseOptions s1) as [[e | []] s2]; [exact I|]. cbn in K2.
  unfold bind at 1, parseOperands, bind at 1, get. cbv beta iota.
  rewrite K2, K1, Hops.
  pose proof (operands_last_sink_exhaust pre a Hs O s2) as H3.
  destruct (parseOperandsFrom O (pre ++ [a]) s2) as [[e | []] s3]; [exact I|].
  unfold parseTerminator. rewrite H3. cbn. unfold checkEnd, bind, getCursor. cbn.
  rewrite H3. split; reflexivity.
Qed.

(** Witness: a parser with an integer option and a string sink. *)
Lemma sink_last_end_check_passes_witness :
  operands (addOperandSink (addOption (newParser EmptyString EmptyString) (fun _ => VInt 0) int32 1%nat "i"%char "int" "N" "an int" false) TStr 2%nat "S" "rest" false)
    = [] ++ [newSinkArg "S" "rest" false TStr 2%nat] /\
  isSink (newSinkArg "S" "rest" false TStr 2%nat) = true /\
  match (parseUtility;; parseOptions;; parseOperands;; parseTerminator)
          (mkSt (addOperandSink (addOption (newParser EmptyString EmptyString) (fun _ => VInt 0) int32 1%nat "i"%char "int" "N" "an int" false) TStr 2%nat "S" "rest" false)
                (fun _ => VList []) ["prog"; "-i"; "7"; "a"; "--"; "-b"]%string) with
  | (inr _, st') => it st' = [] /\ checkEnd st' = (inr tt, st')
  | (inl _, _) => True
  end.
Proof.
  split; [reflexivity|]. split; [reflexivity|].
  apply sink_last_end_check_passes with (pre := []) (a := newSinkArg "S" "rest" false TStr 2%nat);
    reflexivity.
Defined.

Lemma loop_long_signal (f : nat) (st : St) (token : string) (rest : list string)
  (name : string) (i : nat) (a : Arg) :
  it st = token :: rest ->
  token <> terminator (parser st) ->
  predictLongOption (parser st) (it st) = true ->
  splitAtSep (longSeparator (parser st))
    (String.substring (String.length (longPrefix (parser st))) (String.length token) token)
    = (name, None) ->
  getOptionLong name (mkSt (parser st) (mem st) rest) = (inr (i, a), mkSt (parser st) (mem st) rest) ->
  kind a = SignalArg -> hasValue a = false ->
  parseOptionsLoop (S f) st
    = (inl (Signal (shortName a) (longName a)), mkSt (parser st) (mem st) rest).
Proof.
  intros Hit Ht Hp Hs Hg Hk Hv.
  cbn [parseOptionsLoop]. unfold bind at 1, getCursor. cbv beta iota.
  unfold bind at 1. unfold parseTerminator at 1. rewrite Hit.
  assert (Hterm : (isTerminated (parser st) || String.eqb (terminator (parser st)) EmptyString
                  || negb (String.eqb token (terminator (parser st)))) = true).
  { apply String.eqb_neq in Ht. rewrite Ht. now rewrite !orb_true_r. }
  rewrite Hterm. unfold bind at 1. cbv beta iota. rewrite Hit, moved_refl.
  unfold bind at 1. unfold parseLongOption at 1. unfold bind at 1, get. cbv beta iota.
  rewrite Hp. cbn [negb]. rewrite Hit. unfold bind at 1, setCursor. cbv beta iota.
  rewrite Hs. unfold bind at 1. rewrite Hg. cbv beta iota. rewrite Hv.
  unfold bind at 1, ret. unfold argDone. rewrite Hk. reflexivity.
Qed.

Lemma loop_short_signal (f : nat) (st : St) (c0 c : ascii) (names : string) (rest : list string)
  (i : nat) (a : Arg) :
  it st = String c0 (String c names) :: rest ->
  String c0 (String c names) <> terminator (parser st) ->
  predictLongOption (parser st) (it st) = false ->
  predictShortOption (parser st) (it st) = true ->
  getOptionShort c (mkSt (parser st) (mem st) rest) = (inr (i, a), mkSt (parser st) (mem st) rest) ->
  kind a = SignalArg -> hasValue a = false ->
  parseOptionsLoop (S f) st
    = (inl (Signal (shortName a) (longName a)), mkSt (parser st) (mem st) rest).
Proof.
  intros Hit Ht Hl Hp Hg Hk Hv.
  cbn [parseOptionsLoop]. unfold bind at 1, getCursor. cbv beta iota.
  unfold bind at 1. unfold parseTerminator at 1. rewrite Hit.
  assert (Hterm : (isTerminated (parser st) || String.eqb (terminator (parser st)) EmptyString
                  || negb (String.eqb (String c0 (String c names)) (terminator (parser st)))) = true).
  { apply String.eqb_neq in Ht. rewrite Ht. now rewrite !orb_true_r. }
  rewrite Hterm. unfold bind at 1. cbv beta iota. rewrite Hit, moved_refl.
  unfold bind at 1. unfold parseLongOption at 1. unfold bind at 1, get. cbv beta iota.
  rewrite Hl. cbn [negb]. unfold ret. unfold bind at 1. cbv beta iota. rewrite Hit, moved_refl.
  unfold bind at 1. unfold parseShortOptions at 1. unfold bind at 1, get. cbv beta iota.
  rewrite Hp. cbn [negb]. rewrite Hit. unfold bind at 1, setCursor. cbv beta iota.
  cbn [shortLoop]. unfold bind at 1. rewrite Hg. cbv beta iota. rewrite Hv.
  unfold argDone. rewrite Hk. reflexivity.
Qed.

Lemma options_stage_exn_aborts (st : St) (e : Exn) (st' : St) :
  (parseUtility;; parseOptions) st = (inl e, st') -> parseAll st = (inl e, st').
Proof.
  unfold parseAll, bind. destruct (parseUtility st) as [[e1 | []] s1]; [easy|].
  destruct (parseOptions s1) as [[e2 | []] s2]; easy.
Qed.

(** C4: a Signal argument throws [Signal short long] the moment it is
    marked done, leaving the state as it is; this happens for a long
    option given without an inline value and for a short option of a
    cluster; an exception of the options stage ends [parseAll] at once,
    before the operands, the end check and the required check; and a
    signal is never an ordinary [Error]. *)
Theorem signal_aborts_parse :
  (forall r a st, kind a = SignalArg ->
     argDone r a st = (inl (Signal (shortName a) (longName a)), st)) /\
  (forall f st token rest name i a,
     it st = token :: rest ->
     token <> terminator (parser st) ->
     predictLongOption (parser st) (it st) = true ->
     splitAtSep (longSeparator (parser st))
       (String.substring (String.length (longPrefix (parser st))) (String.length token) token)
       = (name, None) ->
     getOptionLong name (mkSt (parser st) (mem st) rest) = (inr (i, a), mkSt (parser st) (mem st) rest) ->
     kind a = SignalArg -> hasValue a = false ->
     parseOptionsLoop (S f) st
       = (inl (Signal (shortName a) (longName a)), mkSt (parser st) (mem st) rest)) /\
  (forall f st c0 c names rest i a,
     it st = String c0 (String c names) :: rest ->
     String c0 (String c names) <> terminator (parser st) ->
     predictLongOption (parser st) (it st) = false ->
     predictShortOption (parser st) (it st) = true ->
     getOptionShort c (mkSt (parser st) (mem st) rest) = (inr (i, a), mkSt (parser st) (mem st) rest) ->
     kind a = SignalArg -> hasValue a = false ->
     parseOptionsLoop (S f) st
       = (inl (Signal (shortName a) (longName a)), mkSt (parser st) (mem st) rest)) /\
  (forall st e st', (parseUtility;; parseOptions) st = (inl e, st') -> parseAll st = (inl e, st')) /\
  (forall c l msg, Signal c l <> Error msg).
Proof.
  split; [intros r a st Hk; unfold argDone; rewrite Hk; reflexivity|].
  split; [exact loop_long_signal|].
  split; [exact loop_short_signal|].
  split; [exact options_stage_exn_aborts|].
  intros c l msg H; discriminate H.
Qed.

(** Witness: [--help] and [-h] end the parse with the help signal although
    the required option [-n] is missing. *)
Lemma signal_aborts_parse_witness :
  fst (parse helpParser zeroMem ["prog"; "--help"]%string) = inl (Signal "h" "help"%string) /\
  fst (parse helpParser zeroMem ["prog"; "-h"]%string) = inl (Signal "h" "help"%string) /\
  parseOptionsLoop 2 (mkSt helpParser zeroMem ["--help"]%string)
    = (inl (Signal "h" "help"%string), mkSt helpParser zeroMem []) /\
  parseOptionsLoop 2 (mkSt helpParser zeroMem ["-h"]%string)
    = (inl (Signal "h" "help"%string), mkSt helpParser zeroMem []).
Proof.
  destruct signal_aborts_parse as [_ [HL [HS [HP _]]]].
  split; [unfold parse; erewrite HP; [reflexivity | reflexivity]|].
  split; [unfold parse; erewrite HP; [reflexivity | reflexivity]|].
  split.
  - apply (HL 1%nat (mkSt helpParser zeroMem ["--help"]%string) "--help"%string [] "help"%string O
             (newSignalArg "h" "help"%string "Print help"%string)); try reflexivity.
    cbn. discriminate.
  - apply (HS 1%nat (mkSt helpParser zeroMem ["-h"]%string) "-"%char "h"%char EmptyString [] O
             (newSignalArg "h" "help"%string "Print help"%string)); try reflexivity.
    cbn. discriminate.
Defined.

(** C4 counterexample: a matched help signal written with an inline value,
    [--help=x], ends in the ordinary "Unexpected option value" error, not
    in a signal. *)
Lemma signal_inline_value_is_error :
  fst (parse helpParser zeroMem ["prog"; "--help=x"]%string)
    = inl (Error "Unexpected option value: --help=x"%string).
Proof. reflexivity. Qed.

(** ** The three ways to give an option's value *)

Lemma substring0_full (s : string) (k : nat) :
  (String.length s <= k)%nat -> String.substring O k s = s.
Proof.
  revert k; induction s as [| c s IH]; intros k Hk; destruct k as [| k]; cbn in *;
    try reflexivity; try lia.
  f_equal. apply IH. lia.
Qed.

Lemma string_length_app (s t : string) :
  String.length (s ++ t) = (String.length s + String.length t)%nat.
Proof. induction s as [| c s IH]; cbn; [reflexivity | now rewrite IH]. Qed.

Lemma substring_after (pre s : string) (k : nat) :
  (String.length s <= k)%nat -> String.substring (String.length pre) k (pre ++ s) = s.
Proof.
  intros Hk. induction pre as [| c pre IH]; cbn [String.length String.append].
  - now apply substring0_full.
  - destruct k; [destruct s; cbn in Hk; [exact IH | lia]|]. exact IH.
Qed.

Lemma splitAtSep_none (sep : ascii) (l : string) :
  (forall n, String.get n l <> Some sep) -> splitAtSep sep l = (l, None).
Proof.
  induction l as [| c l IH]; intros H; [reflexivity|]. cbn.
  destruct (Ascii.eqb_spec c sep) as [-> | Hne]; [now destruct (H O)|].
  rewrite IH; [reflexivity|]. intros n; exact (H (S n)).
Qed.

Lemma splitAtSep_some (sep : ascii) (l v : string) :
  (forall n, String.get n l <> Some sep) ->
  splitAtSep sep (l ++ String sep v) = (l, Some v).
Proof.
  induction l as [| c l IH]; intros H; cbn; [now rewrite Ascii.eqb_refl|].
  destruct (Ascii.eqb_spec c sep) as [-> | Hne]; [now destruct (H O)|].
  rewrite IH; [reflexivity|]. intros n; exact (H (S n)).
Qed.

Lemma step_long_next (f : nat) (p : Parser) (m : Mem) (l v : string) (rest : list string)
  (i : nat) (a : Arg) :
  defaultSyntax p -> l <> EmptyString -> (forall n, String.get n l <> Some "="%char) ->
  findArg (fun b => String.eqb (longName b) l) (options p) O = Some (i, a) ->
  hasValue a = true ->
  parseOptionsLoop (S f) (mkSt p m (("--" ++ l)%string :: v :: rest))
    = (argParse a v;; argDone (Opt i) a;; parseOptionsLoop f) (mkSt p m rest).
Proof.
  intros (Hsp & Hlp & Hsep & Ht & Hterm) Hl Hns Hf Hv.
  destruct l as [| c0 l0]; [congruence|].
  cbn [parseOptionsLoop]. unfold bind at 1, getCursor. cbv beta iota.
  unfold bind at 1. unfold parseTerminator at 1. cbn [it parser].
  assert (Etok : String.eqb ("--" ++ String c0 l0) "--" = false) by reflexivity.
  rewrite Hterm, Ht, Etok. cbn [orb negb].
  rewrite orb_true_r. cbv beta iota. unfold bind at 1. cbv beta iota. cbn [it]. rewrite moved_refl.
  unfold bind at 1. unfold parseLongOption at 1. unfold bind at 1, get. cbv beta iota.
  cbn [it parser]. unfold predictLongOption. rewrite Hterm, Hlp.
  match goal with |- context [if negb ?b then _ else _] => replace b with true by reflexivity end.
  cbn [negb]. unfold bind at 1, setCursor. cbv beta iota. cbn [parser].
  rewrite Hsep, substring_after by (rewrite string_length_app; lia).
  rewrite splitAtSep_none by exact Hns.
  cbn [mem]. unfold bind at 1. unfold bind at 1. unfold getOptionLong at 1. cbn [parser String.eqb].
  rewrite Hf. cbv beta iota. rewrite Hv.
  unfold bind at 1. unfold nextValue at 1, bind at 1, getCursor. cbv beta iota. cbn [it].
  unfold bind at 1, setCursor. cbv beta iota. cbn [parser mem].
  unfold bind.
  destruct (argParse a v (mkSt p m rest)) as [[e | []] s1] eqn:E1; [reflexivity|].
  pose proof (argParse_kept a v (mkSt p m rest)) as K1. rewrite E1 in K1. cbn in K1.
  destruct (argDone (Opt i) a s1) as [[e | []] s2] eqn:E2; [reflexivity|].
  pose proof (argDone_kept (Opt i) a s1) as K2. rewrite E2 in K2. cbn in K2.
  rewrite K2, K1. unfold moved. cbn [List.length].
  rewrite (proj2 (Nat.eqb_neq _ _)) by lia. reflexivity.
Qed.

Lemma step_long_merged (f : nat) (p : Parser) (m : Mem) (l v : string) (rest : list string)
  (i : nat) (a : Arg) :
  defaultSyntax p -> l <> EmptyString -> (forall n, String.get n l <> Some "="%char) ->
  findArg (fun b => String.eqb (longName b) l) (options p) O = Some (i, a) ->
  hasValue a = true ->
  parseOptionsLoop (S f) (mkSt p m (("--" ++ l ++ "=" ++ v)%string :: rest))
    = (argParse a v;; argDone (Opt i) a;; parseOptionsLoop f) (mkSt p m rest).
Proof.
  intros (Hsp & Hlp & Hsep & Ht & Hterm) Hl Hns Hf Hv.
  destruct l as [| c0 l0]; [congruence|].
  cbn [parseOptionsLoop]. unfold bind at 1, getCursor. cbv beta iota.
  unfold bind at 1. unfold parseTerminator at 1. cbn [it parser].
  assert (Etok : String.eqb ("--" ++ String c0 l0 ++ "=" ++ v) "--" = false) by reflexivity.
  rewrite Hterm, Ht, Etok. cbn [orb negb].
  rewrite orb_true_r. cbv beta iota. unfold bind at 1. cbv beta iota. cbn [it]. rewrite moved_refl.
  unfold bind at 1. unfold parseLongOption at 1. unfold bind at 1, get. cbv beta iota.
  cbn [it parser]. unfold predictLongOption. rewrite Hterm, Hlp.
  match goal with |- context [if negb ?b then _ else _] => replace b with true by reflexivity end.
  cbn [negb]. unfold bind at 1, setCursor. cbv beta iota. cbn [parser].
  rewrite Hsep, substring_after by (rewrite (string_length_app "--"); lia).
  change (("=" ++ v)%string) with (String "=" v).
  rewrite splitAtSep_some by exact Hns.
  cbn [mem]. unfold bind at 1. unfold bind at 1. unfold getOptionLong at 1. cbn [parser String.eqb].
  rewrite Hf. cbv beta iota. rewrite Hv.
  unfold bind.
  destruct (argParse a v (mkSt p m rest)) as [[e | []] s1] eqn:E1; [reflexivity|].
  pose proof (argParse_kept a v (mkSt p m rest)) as K1. rewrite E1 in K1. cbn in K1.
  destruct (argDone (Opt i) a s1) as [[e | []] s2] eqn:E2; [reflexivity|].
  pose proof (argDone_kept (Opt i) a s1) as K2. rewrite E2 in K2. cbn in K2.
  rewrite K2, K1. unfold moved. cbn [List.length].
  rewrite (proj2 (Nat.eqb_neq _ _)) by lia. reflexivity.
Qed.

Lemma step_short_merged (f : nat) (p : Parser) (m : Mem) (c : ascii) (v : string)
  (rest : list string) (i : nat) (a : Arg) :
  defaultSyntax p -> c <> "-"%char -> c <> nul -> v <> EmptyString ->
  findArg (fun b => Ascii.eqb (shortName b) c) (options p) O = Some (i, a) ->
  hasValue a = true ->
  parseOptionsLoop (S f) (mkSt p m (String "-" (String c v) :: rest))
    = (argParse a v;; argDone (Opt i) a;; parseOptionsLoop f) (mkSt p m rest).
Proof.
  intros (Hsp & Hlp & Hsep & Ht & Hterm) Hc Hn Hvne Hf Hv.
  assert (Etok : String.eqb (String "-" (String c v)) "--" = false).
  { cbn. rewrite (proj2 (Ascii.eqb_neq c "-") Hc). reflexivity. }
  assert (Epre : String.prefix "--" (String "-" (String c v)) = false).
  { cbn [String.prefix]. destruct (ascii_dec "-" "-") as [_ | C]; [|congruence].
    destruct (ascii_dec "-" c); [congruence | reflexivity]. }
  cbn [parseOptionsLoop]. unfold bind at 1, getCursor. cbv beta iota.
  unfold bind at 1. unfold parseTerminator at 1. cbn [it parser].
  rewrite Hterm, Ht, Etok. cbn [orb negb].
  rewrite orb_true_r. cbv beta iota. unfold bind at 1. cbv beta iota. cbn [it]. rewrite moved_refl.
  unfold bind at 1. unfold parseLongOption at 1. unfold bind at 1, get. cbv beta iota.
  cbn [it parser]. unfold predictLongOption. rewrite Hterm, Hlp, Epre, andb_false_r.
  cbn [negb]. unfold ret. cbv beta iota.
  unfold bind at 1. cbv beta iota. cbn [it]. rewrite moved_refl.
  unfold bind at 1. unfold parseShortOptions at 1. unfold bind at 1, get. cbv beta iota.
  cbn [it parser]. unfold predictShortOption. rewrite Hterm, Hsp. cbn [negb andb Ascii.eqb Bool.eqb].
  unfold bind at 1, setCursor. cbv beta iota. cbn [parser mem shortLoop].
  unfold bind at 1. unfold getOptionShort at 1. cbn [parser].
  rewrite (proj2 (Ascii.eqb_neq c nul) Hn), Hf. cbv beta iota. rewrite Hv.
  rewrite (proj2 (String.eqb_neq v EmptyString) Hvne). cbn [negb].
  unfold bind.
  destruct (argParse a v (mkSt p m rest)) as [[e | []] s1] eqn:E1; [reflexivity|].
  pose proof (argParse_kept a v (mkSt p m rest)) as K1. rewrite E1 in K1. cbn in K1.
  destruct (argDone (Opt i) a s1) as [[e | []] s2] eqn:E2; [reflexivity|].
  pose proof (argDone_kept (Opt i) a s1) as K2. rewrite E2 in K2. cbn in K2.
  rewrite K2, K1. unfold moved. cbn [List.length].
  rewrite (proj2 (Nat.eqb_neq _ _)) by lia. reflexivity.
Qed.

(** Once an option has taken its value, the options stage goes on from the
    state after it with fresh fuel. *)
Lemma options_after_value (f : nat) (a : Arg) (i : nat) (v : string) (st : St) :
  (List.length (it st) < f)%nat ->
  (argParse a v;; argDone (Opt i) a;; parseOptionsLoop f) st
    = (argParse a v;; argDone (Opt i) a;; parseOptions) st.
Proof.
  intros Hf. unfold bind.
  destruct (argParse a v st) as [[e | []] s1] eqn:E1; [reflexivity|].
  pose proof (argParse_kept a v st) as K1. rewrite E1 in K1. cbn in K1.
  destruct (argDone (Opt i) a s1) as [[e | []] s2] eqn:E2; [reflexivity|].
  pose proof (argDone_kept (Opt i) a s1) as K2. rewrite E2 in K2. cbn in K2.
  unfold parseOptions, bind, getCursor. cbv beta iota.
  apply parseOptionsLoop_fuel; rewrite ?K2, ?K1; lia.
Qed.

Lemma parseUtility_cons (p : Parser) (m : Mem) (prog : string) (l : list string) :
  parseUtility (mkSt p m (prog :: l))
    = (inr tt, mkSt (if String.eqb (utilityName p) EmptyString then setUtilityName p prog else p) m l).
Proof. reflexivity. Qed.

Lemma setUtilityName_syntax (p : Parser) (t : string) :
  defaultSyntax p -> defaultSyntax (setUtilityName p t).
Proof. intros H; exact H. Qed.

Lemma setUtilityName_options (p : Parser) (t : string) :
  options (setUtilityName p t) = options p.
Proof. reflexivity. Qed.

(** The parse of [prog :: token :: ...] once the first options-loop round
    has been replaced by its effect. *)
Lemma parse_first_round (p : Parser) (m : Mem) (prog : string) (toks rest : list string)
  (k : M unit) :
  (forall q, defaultSyntax q -> options q = options p ->
     parseOptions (mkSt q m toks) = k (mkSt q m rest)) ->
  defaultSyntax p ->
  parse p m (prog :: toks)
    = (parseUtility;; k;; parseOperands;; parseTerminator;; checkEnd;;
       st1 <- get;; checkRequired (options (parser st1));;
       st2 <- get;; checkRequired (operands (parser st2)))
        (mkSt p m (prog :: rest)).
Proof.
  intros Hk Hp. unfold parse, parseAll. unfold bind at 1 5.
  rewrite !parseUtility_cons. cbv beta iota.
  set (q := if String.eqb (utilityName p) EmptyString then setUtilityName p prog else p).
  assert (Hq : defaultSyntax q /\ options q = options p).
  { unfold q; destruct (String.eqb _ _); split; try exact Hp; reflexivity. }
  unfold bind at 1 3. rewrite (Hk q (proj1 Hq) (proj2 Hq)). reflexivity.
Qed.

Lemma parseOptions_long_next (p : Parser) (m : Mem) (l v : string) (rest : list string)
  (i : nat) (a : Arg) :
  defaultSyntax p -> l <> EmptyString -> (forall n, String.get n l <> Some "="%char) ->
  findArg (fun b => String.eqb (longName b) l) (options p) O = Some (i, a) ->
  hasValue a = true ->
  parseOptions (mkSt p m (("--" ++ l)%string :: v :: rest))
    = (argParse a v;; argDone (Opt i) a;; parseOptions) (mkSt p m rest).
Proof.
  intros. unfold parseOptions at 1, bind at 1, getCursor. cbv beta iota. cbn [it List.length].
  rewrite (step_long_next _ p m l v rest i a) by assumption. apply options_after_value. cbn. lia.
Qed.

Lemma parseOptions_long_merged (p : Parser) (m : Mem) (l v : string) (rest : list string)
  (i : nat) (a : Arg) :
  defaultSyntax p -> l <> EmptyString -> (forall n, String.get n l <> Some "="%char) ->
  findArg (fun b => String.eqb (longName b) l) (options p) O = Some (i, a) ->
  hasValue a = true ->
  parseOptions (mkSt p m (("--" ++ l ++ "=" ++ v)%string :: rest))
    = (argParse a v;; argDone (Opt i) a;; parseOptions) (mkSt p m rest).
Proof.
  intros. unfold parseOptions at 1, bind at 1, getCursor. cbv beta iota. cbn [it List.length].
  rewrite (step_long_merged _ p m l v rest i a) by assumption. apply options_after_value. cbn. lia.
Qed.

Lemma parseOptions_short_merged (p : Parser) (m : Mem) (c : ascii) (v : string)
  (rest : list string) (i : nat) (a : Arg) :
  defaultSyntax p -> c <> "-"%char -> c <> nul -> v <> EmptyString ->
  findArg (fun b => Ascii.eqb (shortName b) c) (options p) O = Some (i, a) ->
  hasValue a = true ->
  parseOptions (mkSt p m (String "-" (String c v) :: rest))
    = (argParse a v;; argDone (Opt i) a;; parseOptions) (mkSt p m rest).
Proof.
  intros. unfold parseOptions at 1, bind at 1, getCursor. cbv beta iota. cbn [it List.length].
  rewrite (step_short_merged _ p m c v rest i a) by assumption. apply options_after_value. cbn. lia.
Qed.

(** C2: with the default syntax ([-], [--], [=] and the terminator [--]),
    for a value option found under the long name [l] (non-empty, without
    [=]) and the short name [c] (neither [-] nor NUL), the forms
    [--l v], [--l=v] and, for a non-empty [v], [-cv] give the same parse:
    the same outcome, the same memory and the same parser state. *)
Theorem value_forms_agree (p : Parser) (m : Mem) (prog l v : string) (c : ascii)
  (rest : list string) (i : nat) (a : Arg) :
  defaultSyntax p -> l <> EmptyString -> (forall n, String.get n l <> Some "="%char) ->
  c <> "-"%char -> c <> nul ->
  findArg (fun b => String.eqb (longName b) l) (options p) O = Some (i, a) ->
  findArg (fun b => Ascii.eqb (shortName b) c) (options p) O = Some (i, a) ->
  hasValue a = true ->
  parse p m (prog :: ("--" ++ l)%string :: v :: rest)
    = parse p m (prog :: ("--" ++ l ++ "=" ++ v)%string :: rest) /\
  (v <> EmptyString ->
   parse p m (prog :: ("--" ++ l)%string :: v :: rest)
     = parse p m (prog :: String "-" (String c v) :: rest)).
Proof.
  intros Hp Hl Hns Hc Hn Hfl Hfs Hv.
  assert (E1 := parse_first_round p m prog (("--" ++ l)%string :: v :: rest) rest
                  (argParse a v;; argDone (Opt i) a;; parseOptions)).
  rewrite E1; clear E1.
  2:{ intros q Hq Ho. rewrite <- Ho in Hfl. now apply parseOptions_long_next. }
  2:{ exact Hp. }
  split.
  - rewrite (parse_first_round p m prog (("--" ++ l ++ "=" ++ v)%string :: rest) rest
               (argParse a v;; argDone (Opt i) a;; parseOptions)); [reflexivity | | exact Hp].
    intros q Hq Ho. rewrite <- Ho in Hfl. now apply parseOptions_long_merged.
  - intros Hvne.
    rewrite (parse_first_round p m prog (String "-" (String c v) :: rest) rest
               (argParse a v;; argDone (Opt i) a;; parseOptions)); [reflexivity | | exact Hp].
    intros q Hq Ho. rewrite <- Ho in Hfs. now apply parseOptions_short_merged.
Qed.

(** Witness: the string option [-s]/[--str] with the value [abc]. *)
Lemma value_forms_agree_witness :
  parse strParser initMem ["prog"; "--str"; "abc"]%string
    = parse strParser initMem ["prog"; "--str=abc"]%string /\
  parse strParser initMem ["prog"; "--str"; "abc"]%string
    = parse strParser initMem ["prog"; "-sabc"]%string.
Proof.
  destruct (value_forms_agree strParser initMem "prog" "str" "abc" "s" [] O
              (newValueArg "s" "str" "S" "A string" false TStr 1%nat initMem))
    as [H1 H2].
  - repeat split; reflexivity.
  - discriminate.
  - intros [| [| [| n]]]; cbn; discriminate.
  - discriminate.
  - discriminate.
  - reflexivity.
  - reflexivity.
  - reflexivity.
  - split; [exact H1 | apply H2; discriminate].
Defined.

(** C2 counterexample: the empty value.  [--str] followed by an empty
    token and [--str=] both store the empty string, but [-s] alone has no
    merged value, takes the next token, finds none, and fails with the
    variable left at its initial value. *)
Lemma empty_value_short_form_differs :
  fst (parse strParser initMem ["prog"; "--str"; EmptyString]%string) = inr tt /\
  mem (snd (parse strParser initMem ["prog"; "--str"; EmptyString]%string)) 1%nat = VStr EmptyString /\
  mem (snd (parse strParser initMem ["prog"; "--str="]%string)) 1%nat = VStr EmptyString /\
  fst (parse strParser initMem ["prog"; "-s"]%string)
    = inl (Error "Cannot find value for option: -s"%string) /\
  mem (snd (parse strParser initMem ["prog"; "-s"]%string)) 1%nat = VStr "init"%string.
Proof. repeat split; reflexivity. Qed.

(** ** The operand loop of a string sink *)

Lemma predict_either (p : Parser) (t : string) (r : list string) :
  predictLongOption p (t :: r) || predictShortOption p (t :: r)
    = negb (isTerminated p) && looksLikeOption (shortPrefix p) (longPrefix p) t.
Proof.
  unfold predictLongOption, predictShortOption, looksLikeOption.
  destruct (isTerminated p); cbn [negb andb orb].
  - destruct t as [| c [| c' t]]; reflexivity.
  - destruct t as [| c [| c' t]]; cbn [String.length String.get Nat.ltb Nat.leb andb];
      rewrite ?orb_false_r; reflexivity.
Qed.

Lemma bind_assoc {A B C} (m : M A) (k : A -> M B) (g : B -> M C) (st : St) :
  bind (bind m k) g st = bind m (fun x => bind (k x) g) st.
Proof. unfold bind. destruct (m st) as [[e | x] s]; reflexivity. Qed.

Lemma bind_inr {A B} (m : M A) (k : A -> M B) (st : St) (x : A) (s : St) :
  m st = (inr x, s) -> bind m k st = k x s.
Proof. intros H. unfold bind. rewrite H. reflexivity. Qed.

Lemma argParse_it (a : Arg) (t : string) (s : St) :
  it (snd (argParse a t s)) = it s.
Proof. unfold argParse. destruct (kind a); try destruct (fromString _ t); reflexivity. Qed.

Lemma argDone_it (r : ArgRef) (a : Arg) (s : St) :
  it (snd (argDone r a s)) = it s.
Proof. unfold argDone. destruct (kind a); reflexivity. Qed.

Lemma operandsFrom_no_tokens (i : nat) (ops : list Arg) (st : St) :
  it st = [] -> parseOperandsFrom i ops st = (inr tt, st).
Proof.
  revert i. induction ops as [| a ops IH]; intros i Hit; [reflexivity|].
  cbn [parseOperandsFrom]. unfold parseOperandContent, bind at 1. unfold bind at 1, getCursor.
  rewrite Hit. cbn [List.length parseOperandLoop]. unfold bind at 1 2, parseTerminator, get.
  rewrite Hit. cbv beta iota. rewrite Hit. unfold ret. exact (IH (S i) Hit).
Qed.

Lemma operandsSpec_no_tokens (n : nat) (ops : list (ArgRef * Arg)) (st : St) :
  it st = [] -> operandsFromSpec n ops st = (inr tt, st).
Proof.
  intros Hit. destruct n as [| n]; [reflexivity|]. destruct ops as [| [r a] ops]; [reflexivity|].
  cbn [operandsFromSpec]. unfold bind, get. cbv beta iota. rewrite Hit. reflexivity.
Qed.

(** The bound token and what follows it, in the code and in the
    specification, from the state after the token was taken. *)
Lemma operand_tail_same (i : nat) (a : Arg) (rest : list Arg) (t : string) (r : list string)
  (f1 f2 : nat) (s : St)
  (IHop : forall s', it s' = r ->
     bind (parseOperandLoop f1 (Opd i) a) (fun _ => parseOperandsFrom (S i) rest) s'
     = operandsFromSpec f2 ((Opd i, a) :: numbered (S i) rest) s')
  (IHnext : forall s', it s' = r ->
     parseOperandsFrom (S i) rest s' = operandsFromSpec f2 (numbered (S i) rest) s') :
  bind (setCursor r;; argParse a t;; argDone (Opd i) a;;
        if isSink a then parseOperandLoop f1 (Opd i) a else ret tt)
       (fun _ => parseOperandsFrom (S i) rest) s
  = (setCursor r;; argParse a t;; argDone (Opd i) a;;
     operandsFromSpec f2 (if isSink a then (Opd i, a) :: numbered (S i) rest
                          else numbered (S i) rest)) s.
Proof.
  unfold bind, setCursor. cbv beta iota.
  set (s1 := mkSt (parser s) (mem s) r).
  pose proof (argParse_it a t s1) as E1.
  destruct (argParse a t s1) as [[e | []] s2]; [reflexivity|]. cbn [snd] in E1.
  pose proof (argDone_it (Opd i) a s2) as E2.
  destruct (argDone (Opd i) a s2) as [[e | []] s3]; [reflexivity|]. cbn [snd] in E2.
  assert (H3 : it s3 = r) by (rewrite E2, E1; reflexivity).
  destruct (isSink a).
  - exact (IHop s3 H3).
  - unfold ret. exact (IHnext s3 H3).
Qed.

Lemma operands_stage_spec_gen (k : nat) :
  forall st, (List.length (it st) <= k)%nat ->
  (forall n1 n2 i a rest, (List.length (it st) < n1)%nat -> (List.length (it st) < n2)%nat ->
     bind (parseOperandLoop n1 (Opd i) a) (fun _ => parseOperandsFrom (S i) rest) st
     = operandsFromSpec n2 ((Opd i, a) :: numbered (S i) rest) st) /\
  (forall n2 i ops, (List.length (it st) < n2)%nat ->
     parseOperandsFrom i ops st = operandsFromSpec n2 (numbered i ops) st).
Proof.
  induction k as [| k IH]; intros st Hk.
  - assert (Hit : it st = []) by (destruct (it st); [reflexivity | cbn in Hk; lia]).
    split.
    + intros n1 n2 i a rest H1 H2. destruct n1 as [| n1]; [lia|].
      rewrite operandsSpec_no_tokens by exact Hit.
      cbn [parseOperandLoop]. unfold bind, parseTerminator, get. rewrite Hit.
      cbv beta iota. rewrite Hit. unfold ret. exact (operandsFrom_no_tokens _ _ _ Hit).
    + intros n2 i ops H2. rewrite operandsFrom_no_tokens, operandsSpec_no_tokens by exact Hit.
      reflexivity.
  - (* the second part from the first, at any state *)
    assert (Hnext : forall s, (List.length (it s) <= S k)%nat ->
      (forall n1 n2 i a rest, (List.length (it s) < n1)%nat -> (List.length (it s) < n2)%nat ->
         bind (parseOperandLoop n1 (Opd i) a) (fun _ => parseOperandsFrom (S i) rest) s
         = operandsFromSpec n2 ((Opd i, a) :: numbered (S i) rest) s) ->
      forall n2 i ops, (List.length (it s) < n2)%nat ->
         parseOperandsFrom i ops s = operandsFromSpec n2 (numbered i ops) s).
    { intros s Hs P n2 i ops H2. destruct ops as [| a rest].
      - destruct n2; reflexivity.
      - cbn [parseOperandsFrom numbered]. unfold parseOperandContent.
        unfold bind at 1. unfold bind at 1, getCursor. cbv beta iota.
        apply P; lia. }
    assert (Hop : forall n1 n2 i a rest, (List.length (it st) < n1)%nat ->
                  (List.length (it st) < n2)%nat ->
       bind (parseOperandLoop n1 (Opd i) a) (fun _ => parseOperandsFrom (S i) rest) st
       = operandsFromSpec n2 ((Opd i, a) :: numbered (S i) rest) st).
    { intros n1 n2 i a rest H1 H2.
      destruct (it st) as [| t r] eqn:Hit.
      { apply (proj1 (IH st ltac:(rewrite Hit; cbn; lia))); rewrite Hit; cbn; lia. }
      destruct n1 as [| f1]; [cbn in H1; lia|]. destruct n2 as [| f2]; [cbn in H2; lia|].
      cbn [List.length] in Hk, H1, H2.
      (* the tail after a bound token, by the induction hypothesis *)
      assert (Tail : forall s' r' f1' f2', (List.length r' <= k)%nat ->
                (List.length r' < f1')%nat -> (List.length r' < f2')%nat -> forall t',
         bind (setCursor r';; argParse a t';; argDone (Opd i) a;;
               if isSink a then parseOperandLoop f1' (Opd i) a else ret tt)
              (fun _ => parseOperandsFrom (S i) rest) s'
         = (setCursor r';; argParse a t';; argDone (Opd i) a;;
            operandsFromSpec f2' (if isSink a then (Opd i, a) :: numbered (S i) rest
                                  else numbered (S i) rest)) s').
      { intros s' r' f1' f2' Hr' Hf1 Hf2 t'. apply operand_tail_same.
        - intros s'' Hs''. apply (proj1 (IH s'' ltac:(rewrite Hs''; lia))); rewrite Hs''; lia.
        - intros s'' Hs''. apply (proj2 (IH s'' ltac:(rewrite Hs''; lia))); rewrite Hs''; lia. }
      cbn [parseOperandLoop operandsFromSpec].
      rewrite bind_assoc.
      rewrite (bind_inr get _ st st st) by reflexivity.
      cbv beta. rewrite Hit. cbv iota.
      destruct (isTerminated (parser st) || String.eqb (terminator (parser st)) EmptyString
                || negb (String.eqb t (terminator (parser st)))) eqn:Hc.
      + assert (Hs1 : negb (isTerminated (parser st))
                      && negb (String.eqb (terminator (parser st)) EmptyString)
                      && String.eqb t (terminator (parser st)) = false).
        { destruct (isTerminated _), (String.eqb (terminator _) _), (String.eqb t _);
            cbn in Hc |- *; congruence. }
        rewrite Hs1.
        rewrite (bind_inr parseTerminator _ st tt st)
          by (unfold parseTerminator; rewrite Hit, Hc; reflexivity).
        rewrite bind_assoc, (bind_inr get _ st st st) by reflexivity.
        cbv beta. rewrite Hit. cbv iota. rewrite predict_either.
        destruct (negb (isTerminated (parser st)) && looksLikeOption _ _ t).
        * reflexivity.
        * apply (Tail st r f1 f2); lia.
      + assert (Hs1 : negb (isTerminated (parser st))
                      && negb (String.eqb (terminator (parser st)) EmptyString)
                      && String.eqb t (terminator (parser st)) = true).
        { destruct (isTerminated _), (String.eqb (terminator _) _), (String.eqb t _);
            cbn in Hc |- *; congruence. }
        rewrite Hs1.
        set (st' := mkSt (setTerminated (parser st)) (mem st) r).
        rewrite (bind_inr parseTerminator _ st tt st')
          by (unfold parseTerminator; rewrite Hit, Hc; reflexivity).
        rewrite (bind_inr (put st') _ st tt st') by reflexivity.
        rewrite bind_assoc, (bind_inr get _ st' st' st') by reflexivity.
        cbv beta. cbn [it] in *. unfold st' at 1. cbn [it].
        destruct r as [| t2 r2].
        * cbv iota. unfold ret at 1. rewrite (bind_inr (fun st0 => (inr tt, st0)) _ st' tt st')
            by reflexivity.
          rewrite operandsFrom_no_tokens by reflexivity.
          rewrite operandsSpec_no_tokens by reflexivity. reflexivity.
        * cbv iota. destruct f2 as [| f2]; [cbn in H2; lia|].
          cbn [operandsFromSpec]. rewrite (bind_inr get _ st' st' st') by reflexivity.
          cbv beta. unfold st'. cbn [it parser mem]. rewrite predict_either.
          cbn [isTerminated setTerminated negb andb].
          cbn [List.length] in Hk, H1, H2.
          apply (Tail _ r2 f1 f2); lia. }
    split; [exact Hop | exact (Hnext st Hk Hop)].
Qed.

Lemma operands_stage_spec (st : St) : parseOperands st = operandsStageSpec st.
Proof.
  unfold parseOperands, operandsStageSpec, bind, get. cbv beta iota.
  apply (proj2 (operands_stage_spec_gen (List.length (it st)) st (le_n _))). lia.
Qed.

(** C3: the operands stage of the parser ([parseOperands]: every operand
    in turn, value operands and sinks of any type) is the stage the
    specification describes ([operandsStageSpec]): the same outcome and the
    same final state from any state.  A one-character token is never
    predicted to be an option; so, in the described stage, a bare short
    prefix [-] that is not the terminator is bound to the waiting operand
    like any other value, also before termination. *)
Theorem sink_operands_follow_spec :
  (forall st, parseOperands st = operandsStageSpec st) /\
  (forall p c r, predictLongOption p (String c EmptyString :: r) = false /\
                 predictShortOption p (String c EmptyString :: r) = false) /\
  (forall f r a ops st rest,
     terminator (parser st) <> String (shortPrefix (parser st)) EmptyString ->
     it st = String (shortPrefix (parser st)) EmptyString :: rest ->
     operandsFromSpec (S f) ((r, a) :: ops) st
     = (setCursor rest;; argParse a (String (shortPrefix (parser st)) EmptyString);;
        argDone r a;; operandsFromSpec f (if isSink a then (r, a) :: ops else ops)) st).
Proof.
  split; [| split].
  - exact operands_stage_spec.
  - intros p c r. unfold predictLongOption, predictShortOption.
    destruct (isTerminated p), (longPrefix p) as [| x lp]; cbn; split; try reflexivity.
  - intros f r a ops st rest Hne Hit. cbn [operandsFromSpec].
    unfold bind at 1, get. cbv beta iota. rewrite Hit.
    rewrite (proj2 (String.eqb_neq _ _) (fun H => Hne (eq_sym H))), andb_false_r.
    assert (Hl : looksLikeOption (shortPrefix (parser st)) (longPrefix (parser st))
                   (String (shortPrefix (parser st)) EmptyString) = false).
    { unfold looksLikeOption. destruct (longPrefix (parser st)) as [| x lp]; cbn; [reflexivity|].
      destruct lp; reflexivity. }
    rewrite Hl, andb_false_r. reflexivity.
Qed.

Lemma sink_operands_follow_spec_witness :
  let P := addOperandSink (newParser EmptyString EmptyString) TStr 2%nat "S" "rest" false in
  let st := mkSt P (fun _ => VList []) ["-"; "x"]%string in
  terminator (parser st) <> String (shortPrefix (parser st)) EmptyString /\
  it st = String (shortPrefix (parser st)) EmptyString :: ["x"%string] /\
  operandsFromSpec 3 [(Opd 0, newSinkArg "S" "rest" false TStr 2%nat)] st
  = (setCursor ["x"%string];; argParse (newSinkArg "S" "rest" false TStr 2%nat) "-"%string;;
     argDone (Opd 0) (newSinkArg "S" "rest" false TStr 2%nat);;
     operandsFromSpec 2 [(Opd 0, newSinkArg "S" "rest" false TStr 2%nat)]) st.
Proof.
  intros P st.
  assert (Hne : terminator (parser st) <> String (shortPrefix (parser st)) EmptyString)
    by (vm_compute; discriminate).
  assert (Hit : it st = String (shortPrefix (parser st)) EmptyString :: ["x"%string])
    by reflexivity.
  split; [exact Hne|]. split; [exact Hit|].
  exact (proj2 (proj2 sink_operands_follow_spec) 2%nat (Opd 0)
           (newSinkArg "S" "rest" false TStr 2%nat) [] st ["x"%string] Hne Hit).
Defined.

(** ** Tokens after the end of a successful options stage *)

Lemma bind_stable {A B} (m : M A) (k : A -> M B) :
  appendStable m -> (forall x, appendStable (k x)) -> appendStable (bind m k).
Proof.
  intros Hm Hk st ex y st'' H. unfold bind in H |- *.
  destruct (m st) as [[e | x] st'] eqn:E; [discriminate H|].
  rewrite (Hm st ex x st' E). exact (Hk x st' ex y st'' H).
Qed.

Lemma ret_stable {A} (x : A) : appendStable (ret x).
Proof. intros st ex y st' H. unfold ret in *. now inversion H. Qed.

Lemma throw_stable {A} (e : Exn) : appendStable (@throw A e).
Proof. intros st ex y st' H. discriminate H. Qed.

Lemma argParse_stable (a : Arg) (s : string) : appendStable (argParse a s).
Proof.
  intros st ex y st' H. unfold argParse in *.
  destruct (kind a); try (inversion H; reflexivity);
    destruct (fromString T s); inversion H; reflexivity.
Qed.

Lemma argDone_stable (r : ArgRef) (a : Arg) : appendStable (argDone r a).
Proof.
  intros st ex y st' H. unfold argDone in *.
  destruct (kind a); inversion H; reflexivity.
Qed.

Lemma getOptionLong_stable (name : string) : appendStable (getOptionLong name).
Proof.
  intros st ex y st' H. unfold getOptionLong in *. cbn [parser appendCursor].
  destruct (if String.eqb name EmptyString then None else _); inversion H; reflexivity.
Qed.

Lemma getOptionShort_stable (name : ascii) : appendStable (getOptionShort name).
Proof.
  intros st ex y st' H. unfold getOptionShort in *. cbn [parser appendCursor].
  destruct (if Ascii.eqb name nul then None else _); inversion H; reflexivity.
Qed.

Lemma nextValue_stable (token : string) (a : Arg) : appendStable (nextValue token a).
Proof.
  intros st ex y st' H. unfold nextValue, bind, getCursor, setCursor in *. cbv beta iota in *.
  destruct (it st) as [| t r] eqn:Hit; [discriminate H|].
  unfold appendCursor at 1. rewrite Hit. cbn [app].
  exact (argParse_stable a t (mkSt (parser st) (mem st) r) ex y st' H).
Qed.

Create HintDb stable.
#[local] Hint Resolve bind_stable ret_stable throw_stable argParse_stable argDone_stable
  getOptionLong_stable getOptionShort_stable nextValue_stable : stable.

Lemma predictLong_app (p : Parser) (l ex : list string) :
  l <> [] -> predictLongOption p (l ++ ex) = predictLongOption p l.
Proof. destruct l; [congruence | reflexivity]. Qed.

Lemma predictShort_app (p : Parser) (l ex : list string) :
  l <> [] -> predictShortOption p (l ++ ex) = predictShortOption p l.
Proof. destruct l; [congruence | reflexivity]. Qed.

Lemma parseLongOption_stable (st : St) (ex : list string) (st' : St) :
  it st <> [] -> parseLongOption st = (inr tt, st') ->
  parseLongOption (appendCursor st ex) = (inr tt, appendCursor st' ex).
Proof.
  intros Hne H. unfold parseLongOption in H |- *. unfold bind at 1 in H. unfold bind at 1. unfold get in H |- *. cbv beta iota in H |- *.
  cbn [appendCursor parser it]. rewrite predictLong_app by exact Hne.
  destruct (negb _); [unfold ret in *; inversion H; reflexivity|].
  destruct (it st) as [| token rest] eqn:Hit; [congruence|]. cbn [app].
  unfold bind at 1 in H. unfold bind at 1. unfold setCursor in H |- *. cbv beta iota in H |- *.
  cbn [mem parser].
  match goal with |- ?k (mkSt ?p ?m (rest ++ ex)) = _ =>
    assert (Hk : appendStable k) end.
  { destruct (splitAtSep _ _) as [name sepValue].
    apply bind_stable; [auto with stable|]. intros [i a].
    apply bind_stable; [| auto with stable].
    destruct (hasValue a), sepValue; auto with stable. }
  exact (Hk (mkSt (parser st) (mem st) rest) ex tt st' H).
Qed.

Lemma shortLoop_stable (token names : string) : appendStable (shortLoop token names).
Proof.
  induction names as [| c rest IH]; cbn [shortLoop]; [auto with stable|].
  apply bind_stable; [auto with stable|]. intros [i a].
  destruct (hasValue a); [| auto with stable].
  apply bind_stable; [destruct (negb _) | ]; auto with stable.
Qed.

Lemma parseShortOptions_stable (st : St) (ex : list string) (st' : St) :
  it st <> [] -> parseShortOptions st = (inr tt, st') ->
  parseShortOptions (appendCursor st ex) = (inr tt, appendCursor st' ex).
Proof.
  intros Hne H. unfold parseShortOptions in H |- *. unfold bind at 1 in H. unfold bind at 1. unfold get in H |- *. cbv beta iota in H |- *.
  cbn [appendCursor parser it]. rewrite predictShort_app by exact Hne.
  destruct (negb _); [unfold ret in *; inversion H; reflexivity|].
  destruct (it st) as [| token rest] eqn:Hit; [congruence|]. cbn [app].
  unfold bind at 1 in H. unfold bind at 1. unfold setCursor in H |- *. cbv beta iota in H |- *.
  destruct token as [| c0 names]; [unfold ret in *; inversion H; reflexivity|].
  exact (shortLoop_stable (String c0 names) names (mkSt (parser st) (mem st) rest) ex tt st' H).
Qed.

Lemma parseTerminator_stable (st : St) (ex : list string) :
  it st <> [] ->
  parseTerminator (appendCursor st ex)
    = (fst (parseTerminator st), appendCursor (snd (parseTerminator st)) ex).
Proof.
  intros Hne. unfold parseTerminator, appendCursor. cbn [it parser mem].
  destruct (it st) as [| t r] eqn:Hit; [congruence|]. cbn [app].
  destruct (_ || _); cbn; rewrite ?Hit; reflexivity.
Qed.

Lemma parseTerminator_cases (st st' : St) (x : unit) :
  parseTerminator st = (inr x, st') -> st' = st \/ isTerminated (parser st') = true.
Proof.
  unfold parseTerminator. destruct (it st); [intros H; inversion H; auto|].
  destruct (_ || _); intros H; inversion H; auto.
Qed.

Lemma moved_app (a b ex : list string) : moved (a ++ ex) (b ++ ex) = moved a b.
Proof. unfold moved. rewrite !length_app. destruct (Nat.eqb_spec (List.length b) (List.length a)) as [E | E];
  [rewrite E, Nat.eqb_refl; reflexivity | rewrite (proj2 (Nat.eqb_neq _ _)); [reflexivity | lia]].
Qed.

Lemma options_loop_empty (f : nat) (p : Parser) (m : Mem) :
  parseOptionsLoop (S f) (mkSt p m []) = (inr tt, mkSt p m []).
Proof. reflexivity. Qed.

Lemma options_loop_prefix (n : nat) :
  forall st st1 ex k,
    (List.length (it st) < n)%nat ->
    parseOptionsLoop n st = (inr tt, st1) -> it st1 = [] -> isTerminated (parser st1) = false ->
    (List.length (it st ++ ex) < k)%nat ->
    parseOptionsLoop k (appendCursor st ex)
      = parseOptionsLoop (S (List.length ex)) (mkSt (parser st1) (mem st1) ex).
Proof.
  induction n as [| n IH]; intros st st1 ex k Hn H Hit1 Ht1 Hk; [lia|].
  destruct k as [| k]; [lia|].
  destruct (it st) as [| t r] eqn:Hit.
  { destruct st as [p m c]. cbn in Hit. subst c.
    rewrite options_loop_empty in H. inversion H; subst st1.
    apply parseOptionsLoop_fuel; cbn in *; lia. }
  assert (Hne : it st <> []) by congruence.
  cbn [parseOptionsLoop] in H |- *. unfold bind, getCursor in H |- *. cbv beta iota in H |- *.
  rewrite (parseTerminator_stable st ex Hne).
  destruct (parseTerminator st) as [[e | []] s1] eqn:E1; [discriminate H|]. cbn [fst snd].
  shrink_fact parseTerminator_shrinks st E1.
  cbn [appendCursor it]. rewrite moved_app.
  destruct (moved (it st) (it s1)) eqn:M1.
  { exfalso. inversion H; subst st1.
    destruct (parseTerminator_cases st s1 tt E1) as [-> | Ht]; [|congruence].
    rewrite moved_refl in M1. discriminate. }
  assert (L1 : List.length (it s1) = List.length (it st)).
  { unfold moved in M1. apply negb_false_iff, Nat.eqb_eq in M1. exact M1. }
  assert (Hne1 : it s1 <> []) by (intros E; rewrite E, Hit in L1; discriminate).
  destruct (parseLongOption s1) as [[e | []] s2] eqn:E2; [discriminate H|].
  rewrite (parseLongOption_stable s1 ex s2 Hne1 E2).
  shrink_fact parseLongOption_shrinks s1 E2.
  cbn [appendCursor it]. rewrite moved_app.
  destruct (moved (it st) (it s2)) eqn:M2.
  { apply moved_lt in M2; [|lia].
    apply (IH s2 st1 ex k); try assumption;
      rewrite ?Hit in *; cbn [List.length app] in *; rewrite ?length_app in *; lia. }
  assert (L2 : List.length (it s2) = List.length (it st)).
  { unfold moved in M2. apply negb_false_iff, Nat.eqb_eq in M2. exact M2. }
  assert (Hne2 : it s2 <> []) by (intros E; rewrite E, Hit in L2; discriminate).
  destruct (parseShortOptions s2) as [[e | []] s3] eqn:E3; [discriminate H|].
  rewrite (parseShortOptions_stable s2 ex s3 Hne2 E3).
  shrink_fact parseShortOptions_shrinks s2 E3.
  cbn [appendCursor it]. rewrite moved_app.
  destruct (moved (it st) (it s3)) eqn:M3.
  { apply moved_lt in M3; [|lia].
    apply (IH s3 st1 ex k); try assumption;
      rewrite ?Hit in *; cbn [List.length app] in *; rewrite ?length_app in *; lia. }
  exfalso. unfold ret in H. inversion H; subst st1.
  unfold moved in M3. apply negb_false_iff, Nat.eqb_eq in M3.
  rewrite Hit1, Hit in M3. discriminate.
Qed.

Lemma unknown_long_option (q : Parser) (m0 : Mem) (l : string) (rest : list string) :
  defaultSyntax q -> l <> EmptyString -> (forall n, String.get n l <> Some "="%char) ->
  findArg (fun b => String.eqb (longName b) l) (options q) O = None ->
  parseOptions (mkSt q m0 (("--" ++ l)%string :: rest))
    = (inl (Error ("Unknown option name: " ++ l)%string), mkSt q m0 rest).
Proof.
  intros (Hsp & Hlp & Hsep & Ht & Hterm) Hl Hns Hf.
  destruct l as [| c0 l0]; [congruence|].
  unfold parseOptions, bind at 1, getCursor. cbv beta iota. cbn [it List.length].
  cbn [parseOptionsLoop]. unfold bind at 1, getCursor. cbv beta iota.
  unfold bind at 1. unfold parseTerminator at 1. cbn [it parser].
  assert (Etok : String.eqb ("--" ++ String c0 l0) "--" = false) by reflexivity.
  rewrite Hterm, Ht, Etok. cbn [orb negb].
  rewrite orb_true_r. cbv beta iota. unfold bind at 1. cbv beta iota. cbn [it]. rewrite moved_refl.
  unfold bind at 1. unfold parseLongOption at 1. unfold bind at 1, get. cbv beta iota.
  cbn [it parser]. unfold predictLongOption. rewrite Hterm, Hlp.
  match goal with |- context [if negb ?b then _ else _] => replace b with true by reflexivity end.
  cbn [negb]. unfold bind at 1, setCursor. cbv beta iota. cbn [parser].
  rewrite Hsep, substring_after by (rewrite string_length_app; lia).
  rewrite splitAtSep_none by exact Hns.
  cbn [mem]. unfold bind at 1. unfold getOptionLong at 1. cbn [parser String.eqb].
  rewrite Hf. reflexivity.
Qed.

Lemma bind_mem {A B} (m : M A) (k : A -> M B) :
  (forall s, mem (snd (m s)) = mem s) -> (forall x s, mem (snd (k x s)) = mem s) ->
  forall s, mem (snd (bind m k s)) = mem s.
Proof.
  intros Hm Hk s. unfold bind. specialize (Hm s).
  destruct (m s) as [[e | x] s']; cbn [snd] in *; [exact Hm|]. rewrite Hk. exact Hm.
Qed.

(** The stages after the operands stage never write a variable. *)
Lemma parse_tail_mem (s3 : St) :
  mem (snd ((parseTerminator;; checkEnd;;
             st1 <- get;; checkRequired (options (parser st1));;
             st2 <- get;; checkRequired (operands (parser st2))) s3)) = mem s3.
Proof.
  assert (Hget : forall s, mem (snd (get s)) = mem s) by reflexivity.
  assert (Hreq : forall l s, mem (snd (checkRequired l s)) = mem s).
  { intros l s. unfold checkRequired, bind, get. cbv beta iota.
    destruct (find _ l); reflexivity. }
  revert s3. apply bind_mem.
  - intros s. unfold parseTerminator. destruct (it s); [reflexivity|].
    destruct (_ || _ || _); reflexivity.
  - intros _. apply bind_mem.
    + intros s. unfold checkEnd, bind, getCursor. cbv beta iota.
      destruct (it s); reflexivity.
    + intros _. apply bind_mem; [exact Hget | intros st1].
      apply bind_mem; [apply Hreq | intros _].
      apply bind_mem; [exact Hget | intros st2]. apply Hreq.
Qed.

(** In the operands stage, once a token that is neither the terminator
    nor option-like is bound to the waiting operand, the rest of the stage
    runs from the state holding that write. *)
Lemma operands_continue_after_bind (i : nat) (a : Arg) (ops : list Arg) (st : St)
  (t : string) (rest : list string) :
  it st = t :: rest ->
  String.eqb t (terminator (parser st)) = false ->
  looksLikeOption (shortPrefix (parser st)) (longPrefix (parser st)) t = false ->
  parseOperandsFrom i (a :: ops) st
  = (setCursor rest;; argParse a t;; argDone (Opd i) a;;
     if isSink a then parseOperandsFrom i (a :: ops) else parseOperandsFrom (S i) ops) st.
Proof.
  intros Hit Ht Hl.
  change (parseOperandsFrom i (a :: ops) st)
    with (bind (parseOperandContent (Opd i) a) (fun _ => parseOperandsFrom (S i) ops) st).
  unfold parseOperandContent. rewrite bind_assoc.
  rewrite (bind_inr getCursor _ st (it st) st) by reflexivity. cbv beta. rewrite Hit.
  cbn [List.length]. remember (S (List.length rest)) as k eqn:Hk.
  cbn [parseOperandLoop]. rewrite bind_assoc.
  rewrite (bind_inr parseTerminator _ st tt st)
    by (unfold parseTerminator; rewrite Hit; cbv beta iota; rewrite Ht, orb_true_r; reflexivity).
  rewrite bind_assoc, (bind_inr get _ st st st) by reflexivity.
  cbv beta. rewrite Hit. cbv iota. rewrite predict_either, Hl, andb_false_r.
  unfold bind, setCursor. cbv beta iota.
  set (s1 := mkSt (parser st) (mem st) rest).
  pose proof (argParse_it a t s1) as E1.
  destruct (argParse a t s1) as [[e | []] s2]; [reflexivity|]. cbn [snd] in E1.
  pose proof (argDone_it (Opd i) a s2) as E2.
  destruct (argDone (Opd i) a s2) as [[e | []] s3]; [reflexivity|]. cbn [snd] in E2.
  destruct (isSink a).
  - cbn [parseOperandsFrom]. unfold parseOperandContent, bind, getCursor. cbv beta iota.
    rewrite E2, E1. cbn [it s1]. subst k. reflexivity.
  - unfold ret. reflexivity.
Qed.

(** C9: no stage of a parse rolls back a write.  (a) A parse whose
    options stage has taken all of [good] and then fails on later tokens
    [extra] ends in the failure state of [extra] started from the state
    [good] left, so every value written for [good] is still there; (b) for
    an unknown long option the failure state is that state itself; (c) a
    value that fails to convert writes nothing; (d) in the operands stage,
    once a token is bound to an operand the rest of the stage runs from the
    state holding that write; (e) a parse that fails after the options
    stage fails in the operands stage, with that stage's failure state, or
    after it (terminator, end check, required checks), with the memory the
    operands stage left. *)
Theorem failed_parse_keeps_earlier_writes :
  (forall p m prog good extra st1 e s2,
     (parseUtility;; parseOptions) (mkSt p m (prog :: good)) = (inr tt, st1) ->
     it st1 = [] -> isTerminated (parser st1) = false ->
     parseOptions (mkSt (parser st1) (mem st1) extra) = (inl e, s2) ->
     parse p m (prog :: good ++ extra) = (inl e, s2)) /\
  (forall q m0 l rest,
     defaultSyntax q -> l <> EmptyString -> (forall n, String.get n l <> Some "="%char) ->
     findArg (fun b => String.eqb (longName b) l) (options q) O = None ->
     parseOptions (mkSt q m0 (("--" ++ l)%string :: rest))
       = (inl (Error ("Unknown option name: " ++ l)%string), mkSt q m0 rest)) /\
  (forall a v st e st',
     argParse a v st = (inl e, st') -> st' = st) /\
  (forall i a ops st t rest,
     it st = t :: rest ->
     String.eqb t (terminator (parser st)) = false ->
     looksLikeOption (shortPrefix (parser st)) (longPrefix (parser st)) t = false ->
     parseOperandsFrom i (a :: ops) st
     = (setCursor rest;; argParse a t;; argDone (Opd i) a;;
        if isSink a then parseOperandsFrom i (a :: ops) else parseOperandsFrom (S i) ops) st) /\
  (forall p m argv s1 s2 e st,
     parseUtility (mkSt p m argv) = (inr tt, s1) ->
     parseOptions s1 = (inr tt, s2) ->
     parse p m argv = (inl e, st) ->
     parseOperands s2 = (inl e, st) \/
     exists s3, parseOperands s2 = (inr tt, s3) /\ mem st = mem s3).
Proof.
  split; [| split; [exact unknown_long_option | split; [| split]]].
  2:{ intros a v st e st' H. unfold argParse in H.
      destruct (kind a); try destruct (fromString _ v); congruence. }
  2:{ exact operands_continue_after_bind. }
  2:{ intros p m argv s1 s2 e st H1 H2 H.
      unfold parse, parseAll in H.
      rewrite (bind_inr parseUtility _ _ tt s1 H1), (bind_inr parseOptions _ _ tt s2 H2) in H.
      unfold bind at 1 in H.
      destruct (parseOperands s2) as [[e3 | []] s3] eqn:E3.
      - left. exact H.
      - right. exists s3. split; [reflexivity|].
        pose proof (parse_tail_mem s3) as T. rewrite H in T. exact T. }
  intros p m prog good extra st1 e s2 H1 Hit1 Ht1 H2.
  unfold bind in H1. rewrite parseUtility_cons in H1. cbv beta iota in H1.
  unfold parse, parseAll, bind at 1. rewrite parseUtility_cons. cbv beta iota.
  set (p1 := if String.eqb (utilityName p) EmptyString then setUtilityName p prog else p) in *.
  unfold bind at 1.
  assert (E : parseOptions (mkSt p1 m (good ++ extra)) = (inl e, s2)).
  { unfold parseOptions, bind, getCursor in H1, H2 |- *. cbv beta iota in H1, H2 |- *.
    cbn [it] in H1, H2 |- *.
    change (mkSt p1 m (good ++ extra)) with (appendCursor (mkSt p1 m good) extra).
    rewrite (options_loop_prefix (S (List.length good)) (mkSt p1 m good) st1 extra);
      [exact H2 | cbn [it]; lia | exact H1 | exact Hit1 | exact Ht1 | cbn [it]; lia]. }
  rewrite E. reflexivity.
Qed.

(** Witness: [-i 7] is bound, then [--nope] fails; variable 1 keeps 7.
    With a required operand missing, [-i 7] is bound, the required check
    fails, and variable 1 keeps 7 as well. *)
Lemma failed_parse_keeps_earlier_writes_witness :
  fst (parse intParser fiveMem ("prog" :: app ["-i"; "7"] ["--nope"; "x"])%string)
    = inl (Error "Unknown option name: nope"%string) /\
  mem (snd (parse intParser fiveMem ("prog" :: app ["-i"; "7"] ["--nope"; "x"])%string)) 1%nat
    = VInt 7 /\
  parse reqOpParser fiveMem ["prog"; "-i"; "7"]%string
    = (inl (Error "Cannot find required argument: M"%string),
       snd (parse reqOpParser fiveMem ["prog"; "-i"; "7"]%string)) /\
  mem (snd (parse reqOpParser fiveMem ["prog"; "-i"; "7"]%string)) 1%nat = VInt 7.
Proof.
  destruct failed_parse_keeps_earlier_writes as [HA [HB [_ [_ HE]]]].
  set (st1 := snd ((parseUtility;; parseOptions) (mkSt intParser fiveMem ["prog"; "-i"; "7"]%string))).
  split; [| split]; [| | split].
  1, 2: rewrite (HA intParser fiveMem "prog"%string ["-i"; "7"]%string ["--nope"; "x"]%string st1
             (Error "Unknown option name: nope"%string) (mkSt (parser st1) (mem st1) ["x"%string]));
    [reflexivity | reflexivity | reflexivity | reflexivity |
     apply (HB (parser st1) (mem st1) "nope"%string ["x"%string]);
       [repeat split; reflexivity | discriminate |
        intros [| [| [| [| n]]]]; cbn; try discriminate; destruct n; discriminate |
        reflexivity]].
  - vm_compute. reflexivity.
  - set (s1 := snd (parseUtility (mkSt reqOpParser fiveMem ["prog"; "-i"; "7"]%string))).
    set (s2 := snd (parseOptions s1)).
    destruct (HE reqOpParser fiveMem ["prog"; "-i"; "7"]%string s1 s2
                (Error "Cannot find required argument: M"%string)
                (snd (parse reqOpParser fiveMem ["prog"; "-i"; "7"]%string)))
      as [Hf | [s3 [Hs3 Hm]]].
    + reflexivity.
    + vm_compute. reflexivity.
    + vm_compute. reflexivity.
    + vm_compute in Hf. discriminate Hf.
    + rewrite Hm. vm_compute in Hs3. injection Hs3 as <-. reflexivity.
Defined.

End ParseFacts.

(* ================================================================== *)
(** * Properties of the help renderer *)

Module HelpFacts.

(** C7: for an optional value argument declared while its target held
    the value [m k], with a non-empty default intro and a non-empty
    rendering, the glossary description is the tokenized description
    followed by ["(" ++ intro ++ toString (m k) ++ ")"]: the rendering of
    the value copied at declaration.  The glossary entry does not read the
    done flag, the only thing a parse changes in an argument. *)
Theorem glossary_default_is_declared_value (p : Parser) (hs : bool) (m : Mem) (T : ty)
  (k : nat) (c : ascii) (l vn d : string) :
  defaultIntro p <> EmptyString -> toString (m k) <> EmptyString ->
  snd (glossaryEntry p hs (newValueArg c l vn d false T k m))
    = tokenize d ++ [("(" ++ defaultIntro p ++ toString (m k) ++ ")")%string] /\
  (forall a, glossaryEntry p hs (setDone a) = glossaryEntry p hs a).
Proof.
  intros Hi Hv. split.
  - unfold glossaryEntry, getDefaultValue, newValueArg. cbn [snd isRequired kind].
    rewrite (proj2 (String.eqb_neq _ _) Hi), (proj2 (String.eqb_neq _ _) Hv). reflexivity.
  - intros a. reflexivity.
Qed.

(** Witness: the integer option of [intParser], declared at 5. *)
Lemma glossary_default_is_declared_value_witness :
  snd (glossaryEntry intParser true (newValueArg "i" "int" "N" "An int" false int32 1%nat fiveMem))
    = ["An"; "int"; "(default: 5)"]%string.
Proof.
  destruct (glossary_default_is_declared_value intParser true fiveMem int32 1%nat "i"
              "int"%string "N"%string "An int"%string) as [H _].
  - discriminate.
  - discriminate.
  - rewrite H. reflexivity.
Defined.

(** C7 counterexample: after [-i 7] the variable holds 7 but the help
    text still shows [(default: 5)], the value it held at declaration. *)
Lemma glossary_shows_declared_not_current :
  mem (snd (parse intParser fiveMem ["prog"; "-i"; "7"]%string)) 1%nat = VInt 7 /\
  map (fun a => snd (glossaryEntry (parser (snd (parse intParser fiveMem ["prog"; "-i"; "7"]%string))) true a))
      (options (parser (snd (parse intParser fiveMem ["prog"; "-i"; "7"]%string))))
    = [["An"; "int"; "(default: 5)"]%string].
Proof. split; reflexivity. Qed.

Lemma str_app_assoc (a b c : string) : ((a ++ b) ++ c)%string = (a ++ b ++ c)%string.
Proof. induction a as [| x a IH]; cbn; [reflexivity | now rewrite IH]. Qed.

(** Every word given to the renderer appears whole in its output. *)
Lemma wrap_keeps_tokens (width hi : nat) (tokens : list string) :
  forall pos spc t, In t tokens -> t <> newline ->
    exists pre post, wrapLoop width hi pos spc tokens = (pre ++ t ++ post)%string.
Proof.
  induction tokens as [| t0 ts IH]; intros pos spc t Hin Hnl; [destruct Hin|].
  cbn [wrapLoop]. destruct Hin as [<- | Hin].
  - rewrite (proj2 (String.eqb_neq _ _) Hnl). cbn [orb].
    eexists ((if _ : bool then newline else EmptyString) ++ spaces _)%string, _.
    rewrite !str_app_assoc. reflexivity.
  - destruct (String.eqb t0 newline); cbn [orb].
    + destruct (IH O hi t Hin Hnl) as (pre & post & E). rewrite E.
      exists (newline ++ pre)%string, post. now rewrite str_app_assoc.
    + destruct (_ && _).
      * destruct (IH (O + hi + String.length t0)%nat 1%nat t Hin Hnl) as (pre & post & E).
        rewrite E. exists (newline ++ spaces hi ++ t0 ++ pre)%string, post.
        rewrite !str_app_assoc. reflexivity.
      * destruct (IH (pos + spc + String.length t0)%nat 1%nat t Hin Hnl) as (pre & post & E).
        rewrite E. exists (spaces spc ++ t0 ++ pre)%string, post.
        rewrite !str_app_assoc. reflexivity.
Qed.

(** C8: before a word the renderer breaks the line when the word would
    pass the width and the column is past the hanging indent, and goes on
    on the same line otherwise, also when the word overflows; a newline
    token always breaks; the words are never split. *)
Theorem wrap_break_rule :
  (forall width hi pos spc t ts,
     t <> newline -> (width < pos + spc + String.length t)%nat -> (hi < pos)%nat ->
     wrapLoop width hi pos spc (t :: ts)
       = (newline ++ spaces hi ++ t ++ wrapLoop width hi (hi + String.length t) 1 ts)%string) /\
  (forall width hi pos spc t ts,
     t <> newline -> (pos + spc + String.length t <= width \/ pos <= hi)%nat ->
     wrapLoop width hi pos spc (t :: ts)
       = (spaces spc ++ t ++ wrapLoop width hi (pos + spc + String.length t) 1 ts)%string) /\
  (forall width hi pos spc ts,
     wrapLoop width hi pos spc (newline :: ts) = (newline ++ wrapLoop width hi O hi ts)%string) /\
  (forall width hi tokens pos spc t, In t tokens -> t <> newline ->
     exists pre post, wrapLoop width hi pos spc tokens = (pre ++ t ++ post)%string).
Proof.
  split; [| split; [| split]].
  - intros width hi pos spc t ts Hnl Hw Hp. cbn [wrapLoop].
    rewrite (proj2 (String.eqb_neq _ _) Hnl), (proj2 (Nat.ltb_lt _ _) Hw),
      (proj2 (Nat.ltb_lt _ _) Hp). reflexivity.
  - intros width hi pos spc t ts Hnl H. cbn [wrapLoop].
    rewrite (proj2 (String.eqb_neq _ _) Hnl).
    destruct H as [H | H].
    + rewrite (proj2 (Nat.ltb_ge _ _) H). reflexivity.
    + rewrite (proj2 (Nat.ltb_ge _ _) H), andb_false_r. reflexivity.
  - intros width hi pos spc ts. cbn [wrapLoop]. rewrite String.eqb_refl. reflexivity.
  - intros width hi tokens. apply wrap_keeps_tokens.
Qed.

(** Witness: the two overlong words of the help test at width 21 with the
    indent 6: the first, at the indent, stays on its line; the second,
    after other words, goes to a new one. *)
Lemma wrap_break_rule_witness :
  wrapLoop 21 6 6 0 ["Thisisaverylongtoken"; "Next"]%string
    = (spaces 0 ++ "Thisisaverylongtoken" ++ wrapLoop 21 6 26 1 ["Next"])%string /\
  wrapLoop 21 6 18 1 ["Anotherverylongtoken"]%string
    = (newline ++ spaces 6 ++ "Anotherverylongtoken" ++ wrapLoop 21 6 26 1 [])%string /\
  wrapLoop 21 6 6 0 [newline; "x"]%string = (newline ++ wrapLoop 21 6 0 6 ["x"])%string /\
  exists pre post, wrapLoop 0 2 0 0 ["ab"; "cd"]%string = (pre ++ "cd" ++ post)%string.
Proof.
  destruct wrap_break_rule as [HA [HB [HC HD]]].
  split; [apply HB; [unfold newline, chr; intros H; discriminate H | right; lia]|].
  split; [apply HA; [unfold newline, chr; intros H; discriminate H | cbn; lia | lia]|].
  split; [apply HC|].
  apply HD; [right; left; reflexivity | unfold newline, chr; intros H; discriminate H].
Defined.

(** C8 counterexample: at width 21 a single description word of 25
    characters is written on the line of its option's term, not at the
    start of a line of its own. *)
Lemma overlong_first_word_stays_on_term_line :
  writeGlossary narrowParser "OPTIONS" (options narrowParser)
    = ("OPTIONS" ++ newline ++ "  -a  Thisisaverylongtokenxxxxx" ++ newline ++ newline)%string.
Proof. reflexivity. Qed.

End HelpFacts.

(* ================================================================== *)
(** * Further properties of the parse engine *)

Module ParseMore.

(** ** A parse changes no configuration *)

Lemma bind_cfg {A B} (m : M A) (k : A -> M B) :
  configKept m -> (forall x, configKept (k x)) -> configKept (bind m k).
Proof.
  intros Hm Hk st. unfold bind. specialize (Hm st).
  destruct (m st) as [[e | x] st']; cbn in *; [exact Hm|].
  rewrite Hk; exact Hm.
Qed.

Lemma ret_cfg {A} (x : A) : configKept (ret x).
Proof. intros st; reflexivity. Qed.

Lemma throw_cfg {A} (e : Exn) : configKept (@throw A e).
Proof. intros st; reflexivity. Qed.

Lemma get_cfg : configKept get.
Proof. intros st; reflexivity. Qed.

Lemma getCursor_cfg : configKept getCursor.
Proof. intros st; reflexivity. Qed.

Lemma setCursor_cfg (l : list string) : configKept (setCursor l).
Proof. intros st; reflexivity. Qed.

Lemma argParse_cfg (a : Arg) (s : string) : configKept (argParse a s).
Proof.
  intros st; unfold argParse.
  destruct (kind a); try reflexivity; destruct (fromString T s); reflexivity.
Qed.

Lemma clearDone_setDone (a : Arg) : clearDone (setDone a) = clearDone a.
Proof. reflexivity. Qed.

Lemma map_clearDone_replace (l : list Arg) (i : nat) :
  map clearDone (replace_nth l i setDone) = map clearDone l.
Proof.
  revert i; induction l as [| a l IH]; intros [| i]; cbn; f_equal; auto.
Qed.

Lemma configOf_markDone (p : Parser) (r : ArgRef) : configOf (markDone p r) = configOf p.
Proof.
  destruct r as [i | i]; unfold markDone, configOf; cbn;
    rewrite map_clearDone_replace; reflexivity.
Qed.

Lemma argDone_cfg (r : ArgRef) (a : Arg) : configKept (argDone r a).
Proof.
  intros st; unfold argDone; destruct (kind a); try reflexivity;
    apply configOf_markDone.
Qed.

Lemma getOptionLong_cfg (name : string) : configKept (getOptionLong name).
Proof.
  intros st; unfold getOptionLong.
  destruct (if String.eqb name EmptyString then None else _); reflexivity.
Qed.

Lemma getOptionShort_cfg (name : ascii) : configKept (getOptionShort name).
Proof.
  intros st; unfold getOptionShort.
  destruct (if Ascii.eqb name nul then None else _); reflexivity.
Qed.

Create HintDb config.
#[local] Hint Resolve bind_cfg ret_cfg throw_cfg get_cfg getCursor_cfg setCursor_cfg
  argParse_cfg argDone_cfg getOptionLong_cfg getOptionShort_cfg : config.

Lemma nextValue_cfg (token : string) (a : Arg) : configKept (nextValue token a).
Proof.
  unfold nextValue. apply bind_cfg; [auto with config|].
  intros [| t r]; auto with config.
Qed.

#[local] Hint Resolve nextValue_cfg : config.

Lemma parseTerminator_cfg : configKept parseTerminator.
Proof.
  intros st. unfold parseTerminator.
  destruct (it st) as [| t r]; [reflexivity|].
  destruct (_ || _); reflexivity.
Qed.

Lemma parseUtility_cfg_named (st : St) :
  utilityName (parser st) <> EmptyString ->
  configOf (parser (snd (parseUtility st))) = configOf (parser st).
Proof.
  intros Hu. unfold parseUtility.
  destruct (it st) as [| t r]; [reflexivity|]. cbn [parser snd].
  rewrite (proj2 (String.eqb_neq _ _) Hu). reflexivity.
Qed.

Lemma parseLongOption_cfg : configKept parseLongOption.
Proof.
  unfold parseLongOption. apply bind_cfg; [auto with config|]. intros st.
  destruct (negb _); [auto with config|].
  destruct (it st) as [| token rest]; [auto with config|].
  apply bind_cfg; [auto with config|]. intros _.
  destruct (splitAtSep _ _) as [name sepValue].
  apply bind_cfg; [auto with config|]. intros [i a].
  apply bind_cfg; [| auto with config].
  destruct (hasValue a), sepValue; auto with config.
Qed.

Lemma shortLoop_cfg (token names : string) : configKept (shortLoop token names).
Proof.
  induction names as [| c rest IH]; cbn [shortLoop]; [auto with config|].
  apply bind_cfg; [auto with config|]. intros [i a].
  destruct (hasValue a); [| auto with config].
  apply bind_cfg; [destruct (negb _) | ]; auto with config.
Qed.

#[local] Hint Resolve parseTerminator_cfg parseLongOption_cfg shortLoop_cfg : config.

Lemma parseShortOptions_cfg : configKept parseShortOptions.
Proof.
  unfold parseShortOptions. apply bind_cfg; [auto with config|]. intros st.
  destruct (negb _); [auto with config|].
  destruct (it st) as [| token rest]; [auto with config|].
  apply bind_cfg; [auto with config|]. intros _.
  destruct token; auto with config.
Qed.

#[local] Hint Resolve parseShortOptions_cfg : config.

Lemma parseOptionsLoop_cfg (n : nat) : configKept (parseOptionsLoop n).
Proof.
  induction n as [| n IH]; cbn [parseOptionsLoop]; [auto with config|].
  apply bind_cfg; [auto with config|]. intros old.
  apply bind_cfg; [auto with config|]. intros _.
  apply bind_cfg; [auto with config|]. intros c1.
  destruct (moved old c1); [auto with config|].
  apply bind_cfg; [auto with config|]. intros _.
  apply bind_cfg; [auto with config|]. intros c2.
  destruct (moved old c2); [exact IH|].
  apply bind_cfg; [auto with config|]. intros _.
  apply bind_cfg; [auto with config|]. intros c3.
  destruct (moved old c3); [exact IH | auto with config].
Qed.

Lemma parseOptions_cfg : configKept parseOptions.
Proof.
  unfold parseOptions. apply bind_cfg; [auto with config|].
  intros cur; apply parseOptionsLoop_cfg.
Qed.

Lemma parseOperandLoop_cfg (n : nat) (r : ArgRef) (a : Arg) :
  configKept (parseOperandLoop n r a).
Proof.
  induction n as [| n IH]; cbn [parseOperandLoop]; [auto with config|].
  apply bind_cfg; [auto with config|]. intros _.
  apply bind_cfg; [auto with config|]. intros st.
  destruct (it st) as [| t rest]; [auto with config|].
  destruct (_ || _); [auto with config|].
  apply bind_cfg; [auto with config|]. intros _.
  apply bind_cfg; [auto with config|]. intros _.
  apply bind_cfg; [auto with config|]. intros _.
  destruct (isSink a); [exact IH | auto with config].
Qed.

Lemma parseOperandsFrom_cfg (ops : list Arg) : forall i, configKept (parseOperandsFrom i ops).
Proof.
  induction ops as [| a ops IH]; intros i; cbn [parseOperandsFrom]; [auto with config|].
  apply bind_cfg; [| intros _; apply IH].
  unfold parseOperandContent. apply bind_cfg; [auto with config|].
  intros cur; apply parseOperandLoop_cfg.
Qed.

Lemma checkEnd_cfg : configKept checkEnd.
Proof.
  unfold checkEnd. apply bind_cfg; [auto with config|]. intros [| t r]; auto with config.
Qed.

Lemma checkRequired_cfg (args : list Arg) : configKept (checkRequired args).
Proof.
  unfold checkRequired. apply bind_cfg; [auto with config|]. intros st.
  destruct (find _ args); auto with config.
Qed.

Lemma parseOperands_cfg : configKept parseOperands.
Proof.
  unfold parseOperands. apply bind_cfg; [auto with config|]. intros st.
  apply parseOperandsFrom_cfg.
Qed.

#[local] Hint Resolve parseOptions_cfg parseOperands_cfg checkEnd_cfg checkRequired_cfg : config.

(** Everything after [parseUtility]. *)
Lemma after_utility_cfg :
  configKept (parseOptions;; parseOperands;; parseTerminator;; checkEnd;;
              st1 <- get;; checkRequired (options (parser st1));;
              st2 <- get;; checkRequired (operands (parser st2))).
Proof.
  apply bind_cfg; [auto with config|]; intros _.
  apply bind_cfg; [auto with config|]; intros _.
  apply bind_cfg; [auto with config|]; intros _.
  apply bind_cfg; [auto with config|]; intros _.
  apply bind_cfg; [auto with config|]; intros st1.
  apply bind_cfg; [auto with config|]; intros _.
  apply bind_cfg; [auto with config|]; intros st2.
  auto with config.
Qed.

(** The help text reads no done flag and not the terminated flag. *)
Lemma usageToken_clear (p : Parser) (a : Arg) :
  usageToken (configOf p) (clearDone a) = usageToken p a.
Proof. reflexivity. Qed.

Lemma glossaryEntry_clear (p : Parser) (hs : bool) (a : Arg) :
  glossaryEntry (configOf p) hs (clearDone a) = glossaryEntry p hs a.
Proof. reflexivity. Qed.

Lemma hasAnyShortName_clear (args : list Arg) :
  hasAnyShortName (map clearDone args) = hasAnyShortName args.
Proof.
  unfold hasAnyShortName. induction args as [| a r IH]; [reflexivity|].
  cbn [map existsb]. rewrite IH. reflexivity.
Qed.

Lemma glossary_congr (p q : Parser) (t : string) (args args' : list Arg) :
  helpIndent q = helpIndent p -> helpWidth q = helpWidth p ->
  (args' = [] <-> args = []) ->
  map (glossaryEntry q (hasAnyShortName args')) args'
    = map (glossaryEntry p (hasAnyShortName args)) args ->
  writeGlossary q t args' = writeGlossary p t args.
Proof.
  intros Hi Hw Hn Hm. unfold writeGlossary, writeWrapped.
  destruct (String.eqb t EmptyString); [reflexivity|].
  rewrite Hm, Hi, Hw.
  destruct args as [| a r], args' as [| a' r']; try reflexivity.
  - exfalso. assert (X : a' :: r' = []) by (apply Hn; reflexivity). discriminate.
  - exfalso. assert (X : a :: r = []) by (apply Hn; reflexivity). discriminate.
Qed.

Lemma glossary_config (p : Parser) (t : string) (args : list Arg) :
  writeGlossary (configOf p) t (map clearDone args) = writeGlossary p t args.
Proof.
  apply glossary_congr; try reflexivity.
  - destruct args; split; intros H; try discriminate; reflexivity.
  - rewrite hasAnyShortName_clear, map_map. apply map_ext. apply glossaryEntry_clear.
Qed.

Lemma usage_config (p : Parser) : writeUsage (configOf p) = writeUsage p.
Proof.
  assert (E1 : map (usageToken (configOf p)) (options (configOf p)) = map (usageToken p) (options p)).
  { cbn [configOf options]. rewrite map_map. apply map_ext. apply usageToken_clear. }
  assert (E2 : map (usageToken (configOf p)) (operands (configOf p)) = map (usageToken p) (operands p)).
  { cbn [configOf operands]. rewrite map_map. apply map_ext. apply usageToken_clear. }
  unfold writeUsage, pushUsageTokens. rewrite E1, E2. reflexivity.
Qed.

Lemma help_config (p : Parser) : writeHelp (configOf p) = writeHelp p.
Proof.
  unfold writeHelp. rewrite usage_config.
  change (options (configOf p)) with (map clearDone (options p)).
  change (operands (configOf p)) with (map clearDone (operands p)).
  rewrite !glossary_config. reflexivity.
Qed.

Lemma parse_configOf (p : Parser) (m : Mem) (argv : list string) :
  configOf (parser (snd (parse p m argv)))
  = configOf (match argv with
              | [] => p
              | prog :: _ => if String.eqb (utilityName p) EmptyString
                             then setUtilityName p prog else p
              end).
Proof.
  unfold parse, parseAll. unfold bind at 1.
  destruct argv as [| prog l].
  - exact (after_utility_cfg (mkSt p m [])).
  - rewrite ParseFacts.parseUtility_cons. exact (after_utility_cfg _).
Qed.

(** A parse, whatever its outcome, changes nothing of the parser but the
    done flags, the terminated flag and an empty utility name, which it
    sets to the first token: the declared options and operands keep their
    number, order, names, flags and default copies. *)
Theorem parse_keeps_configuration (p : Parser) (m : Mem) (argv : list string) :
  configOf (parser (snd (parse p m argv)))
  = configOf (match argv with
              | [] => p
              | prog :: _ => if String.eqb (utilityName p) EmptyString
                             then setUtilityName p prog else p
              end).
Proof. apply parse_configOf. Qed.

(** Once the utility name is set, a parse (successful or not) leaves the
    help text as it was. *)
Theorem parse_keeps_help (p : Parser) (m : Mem) (argv : list string) :
  utilityName p <> EmptyString ->
  writeHelp (parser (snd (parse p m argv))) = writeHelp p.
Proof.
  intros Hu. rewrite <- (help_config (parser _)), parse_configOf.
  destruct argv as [| prog l]; [apply help_config|].
  rewrite (proj2 (String.eqb_neq _ _) Hu). apply help_config.
Qed.

Lemma parse_keeps_help_witness :
  utilityName (setUtilityName intParser "tool") <> EmptyString /\
  writeHelp (parser (snd (parse (setUtilityName intParser "tool") fiveMem
                                 ["prog"; "-i"; "7"; "--nope"]%string)))
    = writeHelp (setUtilityName intParser "tool").
Proof.
  split; [discriminate|].
  apply parse_keeps_help. discriminate.
Defined.

(** ** Required arguments and leftover tokens *)

Lemma checkRequired_result (args : list Arg) (st : St) :
  checkRequired args st
  = (match find (fun a => isRequired a && negb (isDone a)) args with
     | Some a => inl (Error ("Cannot find required argument: " ++ expandName (parser st) a)%string)
     | None => inr tt
     end, st).
Proof. unfold checkRequired, bind, get. cbv beta iota. destruct (find _ args); reflexivity. Qed.

Lemma find_app {A} (f : A -> bool) (l1 l2 : list A) :
  find f (l1 ++ l2) = match find f l1 with Some x => Some x | None => find f l2 end.
Proof.
  induction l1 as [| x l1 IH]; [reflexivity|]. cbn. destruct (f x); [reflexivity | exact IH].
Qed.

Lemma operands_on_empty (ops : list Arg) :
  forall i q m, parseOperandsFrom i ops (mkSt q m []) = (inr tt, mkSt q m []).
Proof.
  induction ops as [| a ops IH]; intros i q m; [reflexivity|].
  cbn [parseOperandsFrom]. unfold bind at 1.
  replace (parseOperandContent (Opd i) a (mkSt q m [])) with (@inr Exn unit tt, mkSt q m [])
    by reflexivity.
  apply IH.
Qed.

(** With nothing after the program name, a parse writes no variable and
    succeeds exactly when every required argument is already done; else
    it fails on the first missing one, options before operands. *)
Theorem parse_program_only (p : Parser) (m : Mem) (prog : string) :
  let p1 := if String.eqb (utilityName p) EmptyString then setUtilityName p prog else p in
  parse p m [prog]
  = (match find (fun a => isRequired a && negb (isDone a)) (options p ++ operands p) with
     | Some a => inl (Error ("Cannot find required argument: " ++ expandName p1 a)%string)
     | None => inr tt
     end, mkSt p1 m []).
Proof.
  intros p1. unfold parse, parseAll. unfold bind at 1. rewrite ParseFacts.parseUtility_cons.
  fold p1. cbv beta iota.
  unfold bind at 1. replace (parseOptions (mkSt p1 m [])) with (@inr Exn unit tt, mkSt p1 m [])
    by reflexivity. cbv beta iota.
  unfold bind at 1. unfold parseOperands at 1, bind at 1, get. cbv beta iota.
  cbn [parser]. rewrite operands_on_empty. cbv beta iota.
  unfold bind at 1. replace (parseTerminator (mkSt p1 m [])) with (@inr Exn unit tt, mkSt p1 m [])
    by reflexivity. cbv beta iota.
  unfold bind at 1. replace (checkEnd (mkSt p1 m [])) with (@inr Exn unit tt, mkSt p1 m [])
    by reflexivity. cbv beta iota.
  unfold bind at 1, get. cbv beta iota. cbn [parser].
  assert (Eo : options p1 = options p) by (unfold p1; destruct (String.eqb _ _); reflexivity).
  assert (Ed : operands p1 = operands p) by (unfold p1; destruct (String.eqb _ _); reflexivity).
  rewrite find_app.
  unfold bind at 1. rewrite checkRequired_result. cbn [parser]. rewrite Eo.
  destruct (find _ (options p)); [reflexivity|]. cbv beta iota.
  unfold bind at 1, get. cbv beta iota. cbn [parser]. rewrite checkRequired_result.
  cbn [parser]. rewrite Ed.
  reflexivity.
Qed.

Lemma parseTerminator_noop (q : Parser) (m : Mem) (t : string) (r : list string) :
  (isTerminated q || String.eqb (terminator q) EmptyString || negb (String.eqb t (terminator q))) = true ->
  parseTerminator (mkSt q m (t :: r)) = (inr tt, mkSt q m (t :: r)).
Proof. intros H. unfold parseTerminator. cbn [it parser]. rewrite H. reflexivity. Qed.

Lemma options_stop (q : Parser) (m : Mem) (t : string) (r : list string) :
  predictLongOption q (t :: r) = false -> predictShortOption q (t :: r) = false ->
  (isTerminated q || String.eqb (terminator q) EmptyString || negb (String.eqb t (terminator q))) = true ->
  parseOptions (mkSt q m (t :: r)) = (inr tt, mkSt q m (t :: r)).
Proof.
  intros HL HS HT.
  unfold parseOptions, bind at 1, getCursor. cbv beta iota. cbn [it List.length parseOptionsLoop].
  unfold bind at 1, getCursor. cbv beta iota.
  unfold bind at 1. rewrite parseTerminator_noop by exact HT. cbv beta iota.
  unfold bind at 1, getCursor. cbv beta iota. cbn [it]. rewrite ParseFacts.moved_refl.
  unfold bind at 1. unfold parseLongOption at 1, bind at 1, get. cbv beta iota.
  cbn [parser it]. rewrite HL. cbn [negb]. unfold ret. cbv beta iota.
  unfold bind at 1, getCursor. cbv beta iota. cbn [it]. rewrite ParseFacts.moved_refl.
  unfold bind at 1. unfold parseShortOptions at 1, bind at 1, get. cbv beta iota.
  cbn [parser it]. rewrite HS. cbn [negb]. unfold ret. cbv beta iota.
  unfold bind at 1, getCursor. cbv beta iota. cbn [it]. rewrite ParseFacts.moved_refl. reflexivity.
Qed.

(** A parser without operands rejects a token that is not an option and
    not the terminator with "Unexpected argument". *)
Theorem parse_rejects_extra_operand (p : Parser) (m : Mem) (prog t : string) (rest : list string) :
  operands p = [] ->
  predictLongOption p (t :: rest) = false -> predictShortOption p (t :: rest) = false ->
  (isTerminated p || String.eqb (terminator p) EmptyString || negb (String.eqb t (terminator p))) = true ->
  fst (parse p m (prog :: t :: rest)) = inl (Error ("Unexpected argument: " ++ t)%string).
Proof.
  intros Hop HL HS HT.
  unfold parse, parseAll. unfold bind at 1. rewrite ParseFacts.parseUtility_cons. cbv beta iota.
  destruct (String.eqb (utilityName p) EmptyString);
  (unfold bind at 1; rewrite options_stop by first [exact HL | exact HS | exact HT]; cbv beta iota;
   unfold bind at 1; unfold parseOperands at 1, bind at 1, get; cbv beta iota;
   cbn [parser operands setUtilityName]; rewrite Hop; cbn [parseOperandsFrom]; unfold ret;
   cbv beta iota;
   unfold bind at 1; rewrite parseTerminator_noop by exact HT; cbv beta iota;
   unfold bind at 1; reflexivity).
Qed.

Lemma parse_rejects_extra_operand_witness :
  fst (parse intParser fiveMem ["prog"; "extra"]%string)
    = inl (Error "Unexpected argument: extra"%string).
Proof.
  apply (parse_rejects_extra_operand intParser fiveMem "prog" "extra" []); reflexivity.
Defined.

(** ** Option forms *)

(** An option that takes no value, given one after the separator, is an
    error; the token is consumed and nothing is written. *)
Theorem flag_rejects_inline_value (p : Parser) (m : Mem) (l v : string) (rest : list string)
  (i : nat) (a : Arg) :
  defaultSyntax p -> l <> EmptyString -> (forall n, String.get n l <> Some "="%char) ->
  findArg (fun b => String.eqb (longName b) l) (options p) O = Some (i, a) ->
  hasValue a = false ->
  parseOptions (mkSt p m (("--" ++ l ++ "=" ++ v)%string :: rest))
    = (inl (Error ("Unexpected option value: " ++ "--" ++ l ++ "=" ++ v)%string), mkSt p m rest).
Proof.
  intros (Hsp & Hlp & Hsep & Ht & Hterm) Hl Hns Hf Hv.
  unfold parseOptions at 1, bind at 1, getCursor. cbv beta iota. cbn [it List.length].
  destruct l as [| c0 l0]; [congruence|].
  cbn [parseOptionsLoop]. unfold bind at 1, getCursor. cbv beta iota.
  unfold bind at 1. unfold parseTerminator at 1. cbn [it parser].
  assert (Etok : String.eqb ("--" ++ String c0 l0 ++ "=" ++ v) "--" = false) by reflexivity.
  rewrite Hterm, Ht, Etok. cbn [orb negb].
  rewrite orb_true_r. cbv beta iota. unfold bind at 1. cbv beta iota. cbn [it].
  rewrite ParseFacts.moved_refl.
  unfold bind at 1. unfold parseLongOption at 1. unfold bind at 1, get. cbv beta iota.
  cbn [it parser]. unfold predictLongOption. rewrite Hterm, Hlp.
  match goal with |- context [if negb ?b then _ else _] => replace b with true by reflexivity end.
  cbn [negb]. unfold bind at 1, setCursor. cbv beta iota. cbn [parser].
  rewrite Hsep, ParseFacts.substring_after by (rewrite (ParseFacts.string_length_app "--"); lia).
  change (("=" ++ v)%string) with (String "=" v).
  rewrite ParseFacts.splitAtSep_some by exact Hns.
  cbn [mem]. unfold bind at 1. unfold bind at 1. unfold getOptionLong at 1. cbn [parser String.eqb].
  rewrite Hf. cbv beta iota. rewrite Hv. reflexivity.
Qed.

Lemma flag_rejects_inline_value_witness :
  parseOptions (mkSt (addOptionBool (newParser EmptyString EmptyString) 3 "v" "verbose" "Talk" false)
                     zeroMem ["--verbose=yes"; "x"]%string)
    = (inl (Error "Unexpected option value: --verbose=yes"%string),
       mkSt (addOptionBool (newParser EmptyString EmptyString) 3 "v" "verbose" "Talk" false)
            zeroMem ["x"%string]).
Proof.
  apply (flag_rejects_inline_value _ zeroMem "verbose" "yes" ["x"%string] 0
           (newBoolArg "v" "verbose" "Talk" false 3)).
  - repeat split.
  - discriminate.
  - intros [| [| [| [| [| [| [| [| n]]]]]]]]; cbn; try discriminate; destruct n; discriminate.
  - reflexivity.
  - reflexivity.
Defined.

Lemma findArg_offset (f : Arg -> bool) (l : list Arg) :
  forall n j b, findArg f l n = Some (j, b) -> (n <= j)%nat.
Proof.
  induction l as [| x l IH]; intros n j b H; [discriminate|]. cbn in H.
  destruct (f x); [injection H as <- <-; lia|]. apply IH in H. lia.
Qed.

(** Marking the found argument done does not change what a second lookup
    finds, up to the done flag. *)
Lemma findArg_replace_same (f : Arg -> bool) (l : list Arg) :
  (forall x, f (setDone x) = f x) ->
  forall n j b, findArg f l n = Some (j, b) ->
  findArg f (replace_nth l (j - n) setDone) n = Some (j, setDone b).
Proof.
  intros Hf. induction l as [| x l IH]; intros n j b H; [discriminate|]. cbn in H.
  destruct (f x) eqn:Fx.
  - injection H as <- <-. rewrite Nat.sub_diag. cbn. rewrite Hf, Fx. reflexivity.
  - pose proof (findArg_offset f l (S n) j b H) as Hle.
    replace (j - n)%nat with (S (j - S n)) by lia. cbn. rewrite Fx. apply IH. exact H.
Qed.

Lemma markDone_twice (p : Parser) (i : nat) :
  markDone (markDone p (Opt i)) (Opt i) = markDone p (Opt i).
Proof.
  unfold markDone, setArgs. cbn [options operands].
  assert (E : forall (l : list Arg) j,
             replace_nth (replace_nth l j setDone) j setDone = replace_nth l j setDone).
  { induction l as [| x l IH]; intros [| j]; cbn; f_equal; auto. }
  rewrite E. reflexivity.
Qed.

(** A value option given twice, as [--l v] or as [--l=v], keeps the
    last value: the run goes on from the state where the target was
    written twice, the second write last, and the option is done. *)
Theorem repeated_option_last_wins (p : Parser) (m : Mem) (l v1 v2 : string)
  (rest : list string) (i : nat) (a : Arg) (T : ty) (k : nat) (d x1 x2 : val) :
  defaultSyntax p -> l <> EmptyString -> (forall n, String.get n l <> Some "="%char) ->
  findArg (fun b => String.eqb (longName b) l) (options p) O = Some (i, a) ->
  hasValue a = true -> kind a = ValueArg T k d ->
  fromString T v1 = inr x1 -> fromString T v2 = inr x2 ->
  parseOptions (mkSt p m (("--" ++ l)%string :: v1 :: ("--" ++ l)%string :: v2 :: rest))
    = parseOptions (mkSt (markDone p (Opt i)) (memSet (memSet m k x1) k x2) rest) /\
  parseOptions (mkSt p m (("--" ++ l ++ "=" ++ v1)%string :: ("--" ++ l ++ "=" ++ v2)%string
                          :: rest))
    = parseOptions (mkSt (markDone p (Opt i)) (memSet (memSet m k x1) k x2) rest) /\
  (forall k', memSet (memSet m k x1) k x2 k' = memSet m k x2 k').
Proof.
  intros Hs Hl Hns Hf Hv Hk E1 E2.
  assert (Hf' : findArg (fun b => String.eqb (longName b) l) (options (markDone p (Opt i))) O
                = Some (i, setDone a)).
  { cbn [markDone setArgs options].
    pose proof (findArg_replace_same (fun b => String.eqb (longName b) l) (options p)
                  (fun x => eq_refl) O i a Hf) as H.
    rewrite Nat.sub_0_r in H. exact H. }
  assert (Hs' : defaultSyntax (markDone p (Opt i))) by exact Hs.
  split; [| split].
  3:{ intros k'. unfold memSet. destruct (Nat.eqb k' k); reflexivity. }
  - rewrite (ParseFacts.parseOptions_long_next p m l v1 _ i a) by assumption.
    unfold bind at 1. unfold argParse at 1. rewrite Hk, E1. cbv beta iota. cbn [parser mem it].
    unfold bind at 1. unfold argDone at 1. rewrite Hk. cbv beta iota. cbn [parser mem it].
    rewrite (ParseFacts.parseOptions_long_next (markDone p (Opt i)) _ l v2 rest i (setDone a))
      by assumption.
    unfold bind at 1. unfold argParse at 1. cbn [kind setDone]. rewrite Hk, E2. cbv beta iota.
    cbn [parser mem it].
    unfold bind at 1. unfold argDone at 1. cbn [kind setDone]. rewrite Hk. cbv beta iota.
    cbn [parser mem it]. rewrite markDone_twice. reflexivity.
  - rewrite (ParseFacts.parseOptions_long_merged p m l v1 _ i a) by assumption.
    unfold bind at 1. unfold argParse at 1. rewrite Hk, E1. cbv beta iota. cbn [parser mem it].
    unfold bind at 1. unfold argDone at 1. rewrite Hk. cbv beta iota. cbn [parser mem it].
    rewrite (ParseFacts.parseOptions_long_merged (markDone p (Opt i)) _ l v2 rest i (setDone a))
      by assumption.
    unfold bind at 1. unfold argParse at 1. cbn [kind setDone]. rewrite Hk, E2. cbv beta iota.
    cbn [parser mem it].
    unfold bind at 1. unfold argDone at 1. cbn [kind setDone]. rewrite Hk. cbv beta iota.
    cbn [parser mem it]. rewrite markDone_twice. reflexivity.
Qed.

Lemma repeated_option_last_wins_witness :
  parseOptions (mkSt intParser fiveMem ["--int"; "1"; "--int"; "2"]%string)
    = parseOptions (mkSt (markDone intParser (Opt 0)) (memSet (memSet fiveMem 1 (VInt 1)) 1 (VInt 2)) [])
  /\ parseOptions (mkSt intParser fiveMem ["--int=1"; "--int=2"]%string)
    = parseOptions (mkSt (markDone intParser (Opt 0)) (memSet (memSet fiveMem 1 (VInt 1)) 1 (VInt 2)) [])
  /\ (forall k', memSet (memSet fiveMem 1 (VInt 1)) 1 (VInt 2) k' = memSet fiveMem 1 (VInt 2) k').
Proof.
  apply (repeated_option_last_wins intParser fiveMem "int" "1" "2" [] 0
           (newValueArg "i" "int" "N" "An int" false int32 1 fiveMem) int32 1 (VInt 5));
    try reflexivity; try discriminate.
  - repeat split.
  - intros [| [| [| [| n]]]]; cbn; try discriminate; destruct n; discriminate.
Defined.

(** One round of the options loop on a short-option token. *)
Lemma round_short (f : nat) (q : Parser) (m : Mem) (c : ascii) (names : string)
  (rest : list string) :
  defaultSyntax q -> c <> "-"%char ->
  parseOptionsLoop (S f) (mkSt q m (String "-" (String c names) :: rest))
    = (shortLoop (String "-" (String c names)) (String c names);; parseOptionsLoop f)
        (mkSt q m rest).
Proof.
  intros (Hsp & Hlp & Hsep & Ht & Hterm) Hc.
  assert (Etok : String.eqb (String "-" (String c names)) "--" = false).
  { cbn. rewrite (proj2 (Ascii.eqb_neq c "-") Hc). reflexivity. }
  assert (Epre : String.prefix "--" (String "-" (String c names)) = false).
  { cbn [String.prefix]. destruct (ascii_dec "-" "-") as [_ | C]; [|congruence].
    destruct (ascii_dec "-" c); [congruence | reflexivity]. }
  cbn [parseOptionsLoop]. unfold bind at 1, getCursor. cbv beta iota.
  unfold bind at 1. unfold parseTerminator at 1. cbn [it parser].
  rewrite Hterm, Ht, Etok. cbn [orb negb].
  rewrite orb_true_r. cbv beta iota. unfold bind at 1. cbv beta iota. cbn [it].
  rewrite ParseFacts.moved_refl.
  unfold bind at 1. unfold parseLongOption at 1. unfold bind at 1, get. cbv beta iota.
  cbn [it parser]. unfold predictLongOption. rewrite Hterm, Hlp, Epre, andb_false_r.
  cbn [negb]. unfold ret. cbv beta iota.
  unfold bind at 1. cbv beta iota. cbn [it]. rewrite ParseFacts.moved_refl.
  unfold bind at 1. unfold parseShortOptions at 1. unfold bind at 1, get. cbv beta iota.
  cbn [it parser]. unfold predictShortOption. rewrite Hterm, Hsp. cbn [negb andb Ascii.eqb Bool.eqb].
  unfold bind at 1, setCursor. cbv beta iota. cbn [parser mem].
  unfold bind.
  destruct (shortLoop _ _ (mkSt q m rest)) as [[e | []] s3] eqn:E3; [reflexivity|].
  pose proof (ParseFacts.shortLoop_shrinks (String "-" (String c names)) (String c names)
                (mkSt q m rest)) as K. rewrite E3 in K. cbn in K. unfold getCursor.
  cbv beta iota. unfold moved. cbn [List.length].
  rewrite (proj2 (Nat.eqb_neq _ _)) by lia. reflexivity.
Qed.

Lemma findArg_replace_kind (f : Arg -> bool) (l : list Arg) (r : nat) :
  (forall x, f (setDone x) = f x) ->
  forall n j b, findArg f l n = Some (j, b) ->
  exists b', findArg f (replace_nth l r setDone) n = Some (j, b') /\
             kind b' = kind b /\ hasValue b' = hasValue b.
Proof.
  intros Hf. revert r. induction l as [| x l IH]; intros r n j b H; [discriminate|].
  cbn in H. destruct r as [| r]; cbn.
  - rewrite Hf. destruct (f x).
    + inversion H; subst. exists (setDone b). auto.
    + exists b. auto.
  - destruct (f x); [inversion H; subst; exists b; auto|]. apply IH. exact H.
Qed.

(** Two boolean flags in one short-option token ([-ab]) set the same
    variables and done flags as the two tokens [-a] and [-b]. *)
Theorem flag_cluster_splits (p : Parser) (m : Mem) (c1 c2 : ascii) (rest : list string)
  (i1 i2 : nat) (a1 a2 : Arg) (k1 k2 : nat) :
  defaultSyntax p -> c1 <> "-"%char -> c2 <> "-"%char -> c1 <> nul -> c2 <> nul ->
  findArg (fun b => Ascii.eqb (shortName b) c1) (options p) O = Some (i1, a1) ->
  findArg (fun b => Ascii.eqb (shortName b) c2) (options p) O = Some (i2, a2) ->
  kind a1 = BoolArg k1 -> hasValue a1 = false ->
  kind a2 = BoolArg k2 -> hasValue a2 = false ->
  parseOptions (mkSt p m (String "-" (String c1 (String c2 EmptyString)) :: rest))
    = parseOptions (mkSt p m (String "-" (String c1 EmptyString)
                              :: String "-" (String c2 EmptyString) :: rest)).
Proof.
  intros Hs Hc1 Hc2 Hn1 Hn2 Hf1 Hf2 Hk1 Hv1 Hk2 Hv2.
  destruct (findArg_replace_kind (fun b => Ascii.eqb (shortName b) c2) (options p) i1
              (fun x => eq_refl) O i2 a2 Hf2) as (b2 & Hf2' & Hkb & Hvb).
  unfold parseOptions, bind at 1 2, getCursor. cbv beta iota. cbn [it List.length].
  rewrite !round_short by assumption.
  (* the cluster *)
  unfold bind at 1. cbn [shortLoop]. unfold bind at 1. unfold getOptionShort at 1. cbn [parser].
  rewrite (proj2 (Ascii.eqb_neq c1 nul) Hn1), Hf1. cbv beta iota. rewrite Hv1.
  unfold bind at 1. unfold argDone at 1. rewrite Hk1. cbv beta iota. cbn [parser mem it].
  unfold bind at 1. unfold getOptionShort at 1. cbn [parser markDone setArgs options].
  rewrite (proj2 (Ascii.eqb_neq c2 nul) Hn2), Hf2'. cbv beta iota. rewrite Hvb, Hv2.
  unfold bind at 1. unfold argDone at 1. rewrite Hkb, Hk2. cbv beta iota. cbn [parser mem it].
  unfold ret. cbv beta iota.
  (* the two tokens *)
  symmetry.
  unfold bind at 1. cbn [shortLoop]. unfold bind at 1. unfold getOptionShort at 1. cbn [parser].
  rewrite (proj2 (Ascii.eqb_neq c1 nul) Hn1), Hf1. cbv beta iota. rewrite Hv1.
  unfold bind at 1. unfold argDone at 1. rewrite Hk1. cbv beta iota. cbn [parser mem it].
  unfold ret. cbv beta iota.
  rewrite round_short by (try exact Hc2; exact Hs).
  unfold bind at 1. cbn [shortLoop]. unfold bind at 1. unfold getOptionShort at 1.
  cbn [parser markDone setArgs options].
  rewrite (proj2 (Ascii.eqb_neq c2 nul) Hn2), Hf2'. cbv beta iota. rewrite Hvb, Hv2.
  unfold bind at 1. unfold argDone at 1. rewrite Hkb, Hk2. cbv beta iota. cbn [parser mem it].
  unfold ret. cbv beta iota.
  apply ParseFacts.parseOptionsLoop_fuel; cbn [it List.length]; lia.
Qed.

Lemma flag_cluster_splits_witness :
  parseOptions (mkSt (addOptionBool (addOptionBool (newParser EmptyString EmptyString)
                                        1 "a" "all" "All" false) 2 "b" "brief" "Brief" false)
                     zeroMem ["-ab"; "x"]%string)
    = parseOptions (mkSt (addOptionBool (addOptionBool (newParser EmptyString EmptyString)
                                        1 "a" "all" "All" false) 2 "b" "brief" "Brief" false)
                     zeroMem ["-a"; "-b"; "x"]%string).
Proof.
  apply (flag_cluster_splits _ zeroMem "a" "b" ["x"%string] 0 1
           (newBoolArg "a" "all" "All" false 1) (newBoolArg "b" "brief" "Brief" false 2) 1 2);
    try reflexivity; try discriminate.
  repeat split.
Defined.

(** An option that takes a value, given in its long form as the last
    token and without an inline value, fails with "Cannot find value for
    option" and leaves memory and the parser as they were. *)
Theorem last_option_missing_value (p : Parser) (m : Mem) (l : string) (i : nat) (a : Arg) :
  defaultSyntax p -> l <> EmptyString -> (forall n, String.get n l <> Some "="%char) ->
  findArg (fun b => String.eqb (longName b) l) (options p) O = Some (i, a) ->
  hasValue a = true ->
  parseOptions (mkSt p m [("--" ++ l)%string])
    = (inl (Error ("Cannot find value for option: " ++ "--" ++ l)%string), mkSt p m []).
Proof.
  intros (Hsp & Hlp & Hsep & Ht & Hterm) Hl Hns Hf Hv.
  unfold parseOptions at 1, bind at 1, getCursor. cbv beta iota. cbn [it List.length].
  destruct l as [| c0 l0]; [congruence|].
  cbn [parseOptionsLoop]. unfold bind at 1, getCursor. cbv beta iota.
  unfold bind at 1. unfold parseTerminator at 1. cbn [it parser].
  assert (Etok : String.eqb ("--" ++ String c0 l0) "--" = false) by reflexivity.
  rewrite Hterm, Ht, Etok. cbn [orb negb].
  rewrite orb_true_r. cbv beta iota. unfold bind at 1. cbv beta iota. cbn [it].
  rewrite ParseFacts.moved_refl.
  unfold bind at 1. unfold parseLongOption at 1. unfold bind at 1, get. cbv beta iota.
  cbn [it parser]. unfold predictLongOption. rewrite Hterm, Hlp.
  match goal with |- context [if negb ?b then _ else _] => replace b with true by reflexivity end.
  cbn [negb]. unfold bind at 1, setCursor. cbv beta iota. cbn [parser].
  rewrite Hsep, ParseFacts.substring_after by (rewrite (ParseFacts.string_length_app "--"); lia).
  rewrite ParseFacts.splitAtSep_none by exact Hns.
  cbn [mem]. unfold bind at 1. unfold bind at 1. unfold getOptionLong at 1. cbn [parser String.eqb].
  rewrite Hf. cbv beta iota. rewrite Hv. reflexivity.
Qed.

Lemma last_option_missing_value_witness :
  parseOptions (mkSt intParser fiveMem ["--int"%string])
    = (inl (Error "Cannot find value for option: --int"%string), mkSt intParser fiveMem []).
Proof.
  eapply (last_option_missing_value _ fiveMem "int" 0).
  - repeat split.
  - discriminate.
  - intros [| [| [| [| n]]]]; cbn; try discriminate; destruct n; discriminate.
  - reflexivity.
  - reflexivity.
Defined.

End ParseMore.

(* ================================================================== *)
(** * Further properties of the value codec *)

Module CodecMore.
Import Codec.

Lemma skipSpaces_cons (c : ascii) (s : string) :
  isspace c = true -> skipSpaces (String c s) = let '(k, t) := skipSpaces s in (S k, t).
Proof. intros Hc. cbn [skipSpaces]. rewrite Hc. reflexivity. Qed.

Lemma space_cases (c : ascii) :
  isspace c = true ->
  c = " "%char \/ c = "009"%char \/ c = "010"%char \/ c = "011"%char \/
  c = "012"%char \/ c = "013"%char.
Proof.
  unfold isspace. cbn [existsb]. intros H.
  repeat (apply orb_true_iff in H; destruct H as [H | H];
          [apply Ascii.eqb_eq in H; subst; tauto|]).
  discriminate H.
Qed.

Ltac scan_cases :=
  repeat (cbv beta iota zeta;
    match goal with
    | |- context [match ?t with EmptyString => _ | String _ _ => _ end] => is_var t; destruct t
    | |- context [match ?c with Ascii _ _ _ _ _ _ _ _ => _ end] => is_var c; destruct c
    | |- context [if ?b then _ else _] => is_var b; destruct b
    | |- context [if (?b =? 16) && isX ?x then _ else _] => destruct ((b =? 16) && isX x)
    | |- context [readDigits ?b ?a ?x] => destruct (readDigits b a x) as [? [| ?]]
    end); try reflexivity.

(** [strtoll]/[strtoull] skip a leading white-space character: the scan
    is the same, one position further. *)
Lemma strtoScan_space (c : ascii) (s : string) (base : Z) :
  isspace c = true ->
  strtoScan (String c s) base
  = match strtoScan s base with
    | Scanned n v p => Scanned n v (S p)
    | NoConversion => NoConversion
    end.
Proof.
  intros Hc. unfold strtoScan. rewrite skipSpaces_cons by exact Hc.
  destruct (skipSpaces s) as [i t]. scan_cases.
Qed.

Lemma find_first_of_from_shift (set s : string) :
  forall i, find_first_of_from set s (S i) = option_map S (find_first_of_from set s i).
Proof.
  induction s as [| c s IH]; intros i; [reflexivity|]. cbn.
  destruct (existsb _ _); [reflexivity | apply IH].
Qed.

Lemma find_first_of_space (set : string) (c : ascii) (s : string) :
  existsb (Ascii.eqb c) (list_ascii_of_string set) = false ->
  find_first_of set (String c s) = option_map S (find_first_of set s).
Proof.
  intros H. unfold find_first_of. cbn [find_first_of_from]. rewrite H.
  apply find_first_of_from_shift.
Qed.

(** An integer token may start with white space: [fromString] accepts
    [" " ++ s] (or a tab, a newline, ...) exactly when it accepts [s],
    with the same value. *)
Theorem int_ignores_leading_space (sg : bool) (bits : Z) (c : ascii) (s : string) (v : Z) :
  isspace c = true ->
  fromStringInt sg bits (String c s) = inr v <-> fromStringInt sg bits s = inr v.
Proof.
  intros Hc.
  assert (Hx : existsb (Ascii.eqb c) (list_ascii_of_string "Xx") = false)
    by (destruct (space_cases c Hc) as [-> | [-> | [-> | [-> | [-> | ->]]]]]; reflexivity).
  assert (Hm : existsb (Ascii.eqb c) (list_ascii_of_string "-") = false)
    by (destruct (space_cases c Hc) as [-> | [-> | [-> | [-> | [-> | ->]]]]]; reflexivity).
  assert (Hb : intBase (String c s) = intBase s).
  { unfold intBase. rewrite find_first_of_space by exact Hx.
    destruct (find_first_of "Xx" s); reflexivity. }
  unfold fromStringInt. rewrite Hb. unfold toLongest.
  assert (Hsc : forall b, stoll (String c s) b
                = match stoll s b with StoValue x p => StoValue x (S p) | r => r end /\
                stoull (String c s) b
                = match stoull s b with StoValue x p => StoValue x (S p) | r => r end).
  { intros b. unfold stoll, stoull. rewrite strtoScan_space by exact Hc.
    destruct (strtoScan s b) as [n x p |]; [| split; reflexivity].
    split; [destruct (_ || _) | destruct (_ <? _)]; reflexivity. }
  destruct (Hsc (intBase s)) as [Hl Hu].
  destruct sg.
  - rewrite Hl. destruct (stoll s (intBase s)); cbn [String.length Nat.eqb];
      try (destruct (_ && _ && _)); split; intros H; congruence.
  - unfold find_char. rewrite find_first_of_space by exact Hm.
    destruct (find_first_of (String "-" EmptyString) s); cbn [option_map].
    { split; intros H; discriminate H. }
    rewrite Hu. destruct (stoull s (intBase s)); cbn [String.length Nat.eqb];
      try (destruct (_ && _ && _)); split; intros H; congruence.
Qed.

Lemma int_ignores_leading_space_witness :
  fromStringInt true 32 " 42" = inr 42 <-> fromStringInt true 32 "42" = inr 42.
Proof. apply int_ignores_leading_space. reflexivity. Defined.

End CodecMore.

(* ------------------------------------------------------------------ *)
(** ** Further properties of the help renderer *)

Module HelpMore.

Lemma str_app_nil_r (s : string) : (s ++ EmptyString)%string = s.
Proof. induction s as [| c s IH]; cbn; [reflexivity | now rewrite IH]. Qed.

Lemma string_app_assoc (s t u : string) : (s ++ (t ++ u))%string = ((s ++ t) ++ u)%string.
Proof. induction s as [| c s IH]; cbn; [reflexivity | now rewrite IH]. Qed.

Lemma forallb_word_app (s : string) (c : ascii) :
  forallb wordChar (list_ascii_of_string (s ++ String c EmptyString))
  = forallb wordChar (list_ascii_of_string s) && wordChar c.
Proof.
  induction s as [| d s IH]; cbn [String.append list_ascii_of_string forallb].
  - now rewrite andb_true_r.
  - rewrite IH. now rewrite andb_assoc.
Qed.

Lemma flushWord_tokens (cur : string) (l : list string) (t : string) :
  forallb wordChar (list_ascii_of_string cur) = true ->
  In t (flushWord cur l) -> (isWord t = true \/ In t l).
Proof.
  unfold flushWord. intros Hc.
  destruct (String.eqb_spec cur EmptyString) as [-> | Hne]; [now right|].
  intros [<- | Hin]; [left | now right].
  unfold isWord. rewrite Hc. destruct (String.eqb_spec cur EmptyString); [contradiction|].
  reflexivity.
Qed.

Lemma tokenizeFrom_tokens (s cur : string) :
  forallb wordChar (list_ascii_of_string cur) = true ->
  forall t, In t (tokenizeFrom cur s) -> t = newline \/ isWord t = true.
Proof.
  revert cur. induction s as [| c s IH]; intros cur Hc t Hin; cbn [tokenizeFrom] in Hin.
  - destruct (flushWord_tokens cur [] t Hc Hin) as [H | []]. now right.
  - destruct (Ascii.eqb c " ") eqn:Hsp.
    + destruct (flushWord_tokens _ _ t Hc Hin) as [H | H]; [now right|].
      exact (IH EmptyString eq_refl t H).
    + destruct (Ascii.eqb c (chr 10)) eqn:Hnl.
      * destruct (flushWord_tokens _ _ t Hc Hin) as [H | [<- | H]]; [now right | now left|].
        exact (IH EmptyString eq_refl t H).
      * apply (IH _ ltac:(rewrite forallb_word_app, Hc; unfold wordChar; now rewrite Hsp, Hnl)
                 t Hin).
Qed.

Lemma tokenizeFrom_word (w cur rest : string) :
  forallb wordChar (list_ascii_of_string w) = true ->
  tokenizeFrom cur (w ++ rest) = tokenizeFrom (cur ++ w) rest.
Proof.
  revert cur. induction w as [| c w IH]; intros cur Hw.
  - cbn [String.append]. now rewrite str_app_nil_r.
  - cbn [list_ascii_of_string forallb] in Hw. apply andb_true_iff in Hw as [Hc Hw].
    unfold wordChar in Hc. apply andb_true_iff in Hc as [Hs Hn].
    apply negb_true_iff in Hs, Hn.
    cbn [String.append tokenizeFrom]. rewrite Hs, Hn, IH by exact Hw.
    now rewrite <- string_app_assoc.
Qed.

Lemma tokenize_concat_words (words : list string) :
  forallb isWord words = true ->
  tokenize (String.concat " " words) = words.
Proof.
  unfold tokenize. induction words as [| w ws IH]; intros Hw; [reflexivity|].
  cbn [forallb] in Hw. apply andb_true_iff in Hw as [Hw Hws].
  unfold isWord in Hw. apply andb_true_iff in Hw as [Hne Hc].
  apply negb_true_iff in Hne.
  assert (Hflush : forall l, flushWord w l = w :: l)
    by (intros l; unfold flushWord; now rewrite Hne).
  destruct ws as [| w' ws].
  - cbn [String.concat]. rewrite <- (str_app_nil_r w).
    rewrite tokenizeFrom_word by exact Hc. cbn [String.append tokenizeFrom].
    rewrite str_app_nil_r. now rewrite Hflush.
  - change (String.concat " " (w :: w' :: ws)) with (w ++ " " ++ String.concat " " (w' :: ws))%string.
    rewrite tokenizeFrom_word by exact Hc. cbn [String.append tokenizeFrom].
    rewrite Hflush. cbn [Ascii.eqb Bool.eqb]. now rewrite (IH Hws).
Qed.

Lemma wrapLoop_fits (width hi : nat) (t : string) (ts : list string) :
  forall pos spc,
  forallb (fun x => negb (String.eqb x newline)) (t :: ts) = true ->
  (pos + spc + String.length (String.concat " " (t :: ts)) <= width)%nat ->
  wrapLoop width hi pos spc (t :: ts) = (spaces spc ++ String.concat " " (t :: ts))%string.
Proof.
  revert t. induction ts as [| t' ts IH]; intros t pos spc Hn Hw;
    cbn [forallb] in Hn; apply andb_true_iff in Hn as [Ht Hn]; apply negb_true_iff in Ht.
  - cbn [String.concat] in *. cbn [wrapLoop]. rewrite Ht.
    assert (Hov : Nat.ltb width (pos + spc + String.length t) = false)
      by (apply Nat.ltb_ge; lia).
    rewrite Hov. cbn [orb andb String.append]. now rewrite str_app_nil_r.
  - change (String.concat " " (t :: t' :: ts))
      with (t ++ " " ++ String.concat " " (t' :: ts))%string in *.
    rewrite !ParseFacts.string_length_app in Hw. cbn [String.length] in Hw.
    specialize (IH t' (pos + spc + String.length t)%nat 1%nat Hn ltac:(lia)).
    remember (t' :: ts) as rest eqn:Er.
    cbn [wrapLoop]. rewrite Ht.
    assert (Hov : Nat.ltb width (pos + spc + String.length t) = false)
      by (apply Nat.ltb_ge; lia).
    rewrite Hov. cbn [orb andb String.append]. rewrite IH. reflexivity.
Qed.

Lemma words_no_newline (l : list string) :
  forallb isWord l = true -> forallb (fun x => negb (String.eqb x newline)) l = true.
Proof.
  induction l as [| x l IH]; [reflexivity|].
  cbn [forallb]. intros H. apply andb_true_iff in H as [Hx Hl]. rewrite (IH Hl).
  unfold isWord in Hx. apply andb_true_iff in Hx as [_ Hx].
  destruct (String.eqb_spec x newline) as [-> | _]; [discriminate Hx | reflexivity].
Qed.

Lemma spaces_length (n : nat) : String.length (spaces n) = n.
Proof. induction n as [| n IH]; cbn; [reflexivity | now rewrite IH]. Qed.

Lemma fold_max_ge (l : list nat) (acc : nat) :
  (acc <= fold_left Nat.max l acc)%nat /\ (forall x, In x l -> x <= fold_left Nat.max l acc)%nat.
Proof.
  revert acc. induction l as [| y l IH]; intros acc; cbn [fold_left]; [split; [lia | intros x []]|].
  destruct (IH (Nat.max acc y)) as [H1 H2]. split; [lia|].
  intros x [<- | Hx]; [lia | now apply H2].
Qed.

Lemma fold_max_attained (l : list nat) (acc : nat) :
  fold_left Nat.max l acc = acc \/ In (fold_left Nat.max l acc) l.
Proof.
  revert acc. induction l as [| y l IH]; intros acc; cbn [fold_left]; [now left|].
  destruct (IH (Nat.max acc y)) as [H | H]; [| right; now right].
  rewrite H. destruct (Nat.max_spec acc y) as [[_ ->] | [_ ->]]; [right; now left | now left].
Qed.

(** [tokenize] yields only ["\n"] tokens and non-empty words that contain
    no space and no line break. *)
Theorem tokenize_token_shape (text t : string) :
  In t (tokenize text) -> t = newline \/ isWord t = true.
Proof. apply tokenizeFrom_tokens. reflexivity. Qed.

Lemma tokenize_token_shape_witness :
  In "-v,"%string (tokenize "Use  -v, not -q")
  /\ ("-v,"%string = newline \/ isWord "-v," = true).
Proof.
  split; [cbn; right; left; reflexivity|].
  apply (tokenize_token_shape "Use  -v, not -q"). cbn. right; left; reflexivity.
Defined.

(** Words joined by single spaces are split back into the same words. *)
Theorem tokenize_joined_words (words : list string) :
  forallb isWord words = true ->
  tokenize (String.concat " " words) = words.
Proof. apply tokenize_concat_words. Qed.

Lemma tokenize_joined_words_witness :
  forallb isWord ["--name"; "value"]%string = true /\
  tokenize (String.concat " " ["--name"; "value"]%string) = ["--name"; "value"]%string.
Proof. split; [reflexivity | apply tokenize_joined_words; reflexivity]. Defined.

(** A paragraph of words joined by single spaces that fits in the help
    width is written unchanged, followed by an empty line. *)
Theorem short_paragraph_verbatim (p : Parser) (words : list string) :
  words <> [] -> forallb isWord words = true ->
  (String.length (String.concat " " words) <= helpWidth p)%nat ->
  writeParagraph p (String.concat " " words)
  = (String.concat " " words ++ newline ++ newline)%string.
Proof.
  intros Hne Hw Hlen. unfold writeParagraph.
  destruct words as [| w ws]; [contradiction|].
  cbn [forallb] in Hw. pose proof Hw as Hw'. apply andb_true_iff in Hw' as [Hw1 _].
  assert (Hnonempty : String.eqb (String.concat " " (w :: ws)) EmptyString = false).
  { unfold isWord in Hw1. apply andb_true_iff in Hw1 as [Hn _].
    destruct w as [| c w]; [discriminate Hn|].
    destruct ws; reflexivity. }
  rewrite Hnonempty. unfold writeWrapped.
  rewrite (tokenize_concat_words (w :: ws) Hw).
  rewrite wrapLoop_fits; [reflexivity | | lia].
  exact (words_no_newline (w :: ws) Hw).
Qed.

Lemma short_paragraph_verbatim_witness :
  writeParagraph (setHelpWidth intParser 20) (String.concat " " ["Prints"; "a"; "value."]%string)
  = (String.concat " " ["Prints"; "a"; "value."]%string ++ newline ++ newline)%string.
Proof.
  apply short_paragraph_verbatim; [discriminate | reflexivity | cbn; lia].
Defined.

(** Every glossary line starts with the indent, the term and padding
    that together reach one common column [tab]; that column is the
    longest term plus twice the indent: no term plus twice the indent
    goes past it, and one term plus twice the indent reaches it. *)
Theorem glossary_common_column (p : Parser) (title : string) (args : list Arg) :
  title <> EmptyString -> args <> [] ->
  let term a := fst (glossaryEntry p (hasAnyShortName args) a) in
  exists tab,
    writeGlossary p title args
    = (title ++ newline ++
       String.concat EmptyString
         (map (fun a => spaces (helpIndent p) ++ term a
                        ++ spaces (tab - helpIndent p - String.length (term a))
                        ++ writeWrapped p (snd (glossaryEntry p (hasAnyShortName args) a)) tab tab
                        ++ newline) args)
       ++ newline)%string /\
    (forall a, In a args ->
       String.length (spaces (helpIndent p) ++ term a
                      ++ spaces (tab - helpIndent p - String.length (term a))) = tab) /\
    (forall a, In a args -> (helpIndent p + String.length (term a) + helpIndent p <= tab)%nat) /\
    (exists a, In a args /\ tab = (helpIndent p + String.length (term a) + helpIndent p)%nat).
Proof.
  intros Ht Hne term.
  set (l := map (fun e => String.length (fst e)) (map (glossaryEntry p (hasAnyShortName args)) args)).
  exists (helpIndent p + fold_left Nat.max l O + helpIndent p)%nat.
  destruct (fold_max_ge l O) as [_ Hge].
  assert (Hterm : forall a, In a args -> (String.length (term a) <= fold_left Nat.max l O)%nat).
  { intros a Ha. apply Hge. unfold l. rewrite map_map. apply in_map_iff. now exists a. }
  split; [| split; [| split]].
  - unfold writeGlossary. destruct (String.eqb_spec title EmptyString) as [-> | _]; [contradiction|].
    destruct args as [| a0 args0]; [contradiction|]. rewrite map_map. reflexivity.
  - intros a Ha. specialize (Hterm a Ha).
    rewrite !ParseFacts.string_length_app, !spaces_length. lia.
  - intros a Ha. specialize (Hterm a Ha). lia.
  - destruct args as [| a0 args0]; [contradiction|].
    destruct (fold_max_attained l O) as [H0 | Hin].
    + exists a0. split; [now left|]. specialize (Hterm a0 (or_introl eq_refl)). lia.
    + unfold l in Hin. rewrite map_map in Hin. apply in_map_iff in Hin as (a & Ha & Hin).
      exists a. split; [exact Hin|]. unfold term, l. rewrite map_map. lia.
Qed.

Lemma glossary_common_column_witness :
  "Options:"%string <> EmptyString /\ options intParser <> [] /\
  let term a := fst (glossaryEntry intParser (hasAnyShortName (options intParser)) a) in
  exists tab,
    writeGlossary intParser "Options:" (options intParser)
    = ("Options:" ++ newline ++
       String.concat EmptyString
         (map (fun a => spaces (helpIndent intParser) ++ term a
                        ++ spaces (tab - helpIndent intParser - String.length (term a))
                        ++ writeWrapped intParser
                             (snd (glossaryEntry intParser (hasAnyShortName (options intParser)) a))
                             tab tab
                        ++ newline) (options intParser))
       ++ newline)%string /\
    (forall a, In a (options intParser) ->
       String.length (spaces (helpIndent intParser) ++ term a
                      ++ spaces (tab - helpIndent intParser - String.length (term a))) = tab) /\
    (forall a, In a (options intParser) ->
       (helpIndent intParser + String.length (term a) + helpIndent intParser <= tab)%nat) /\
    (exists a, In a (options intParser) /\
       tab = (helpIndent intParser + String.length (term a) + helpIndent intParser)%nat).
Proof.
  split; [discriminate | split; [discriminate|]].
  apply glossary_common_column; discriminate.
Defined.

(** A non-empty custom options usage replaces the per-option usage
    tokens: the usage text does not depend on the declared options. *)
Theorem options_usage_hides_options (p : Parser) (opts : list Arg) :
  optionsUsage p <> EmptyString ->
  writeUsage (setArgs p opts (operands p)) = writeUsage p.
Proof.
  intros H. unfold writeUsage, setArgs. cbn [usageTitle utilityName optionsUsage operandsUsage
    helpIndent options operands].
  destruct (String.eqb_spec (optionsUsage p) EmptyString) as [E | _]; [contradiction|].
  cbn [negb]. unfold pushUsageTokens, writeWrapped. cbn [helpWidth shortPrefix longPrefix].
  reflexivity.
Qed.

Lemma options_usage_hides_options_witness :
  let p := mkParser "-" "--" "=" "--" false EmptyString EmptyString "USAGE" "OPTIONS"
              "OPERANDS" "tool" "[options]" EmptyString "default: " 80 2
              (options intParser) [] in
  optionsUsage p <> EmptyString /\
  writeUsage (setArgs p [] (operands p)) = writeUsage p.
Proof.
  intros p. split; [discriminate | apply options_usage_hides_options; discriminate].
Defined.

End HelpMore.
